(** * Build Advisor: the build-schedule engine of sc2-waterfall

    A shallow embedding of the pure core of [BuildAdvisor.jsx]:
    [parseTimeSafe], [formatTime], [validateBuild], the [enrichedSteps] and
    [visibleSteps] projections, and the three document loaders, followed by
    the properties the specification states about them.  Further down come
    the address rewriting of the link loader, the banners, the heading
    anchors of the tutorial page and the loaders of the first version of the
    component, with properties read off the code.

    Conventions of the embedding.
    - A JavaScript number is a value of [number]: [NaN], the two infinities,
      or a finite binary64 value, kept as the rational it is, in lowest
      terms.  The result of an operation is the exact result rounded to the
      nearest binary64 value, ties to even, with overflow to an infinity and
      gradual underflow ([Num.of_Q]).  The sign of zero is not tracked (no
      operation of the component distinguishes the two zeros).
    - A JavaScript string is a [string]: a sequence of code units, here the
      8-bit ones.
    - A value produced by [JSON.parse] is a [value]; [undefined] is the
      absence of a value ([None]). *)

From Stdlib Require Import ZArith NArith QArith Qreduction Qpower Qround.
From Stdlib Require Import String Ascii List Bool Lia Sorted.
From Stdlib Require Import DecimalString DecimalN DecimalPos DecimalFacts.
Import ListNotations.

Close Scope Q_scope.
Local Open Scope string_scope.
Local Open Scope list_scope.

(** ** Numbers *)

Module Num.

Inductive number : Type :=
| NaN
| PInf
| NInf
| Fin (q : Q).

(** [q * 2^s]. *)
Definition scale2 (q : Q) (s : Z) : Q :=
  match s with
  | Z0 => q
  | Zpos p => (Qnum q * Z.pow_pos 2 p) # Qden q
  | Zneg p => Qnum q # (Qden q * Pos.pow 2 p)
  end.

(** The binary exponent of a positive rational: the [e] with
    [2^e <= q < 2^(e+1)]. *)
Definition exponent (q : Q) : Z :=
  let e0 := (Z.log2 (Qnum q) - Z.log2 (Zpos (Qden q)))%Z in
  if Qle_bool 1 (scale2 q (- e0)) then e0 else (e0 - 1)%Z.

(** The integer nearest to [t], the even one of the two when [t] is half
    way. *)
Definition round_half_even (t : Q) : Z :=
  let f := Qfloor t in
  match Qcompare (t - inject_Z f) (1 # 2) with
  | Lt => f
  | Gt => (f + 1)%Z
  | Eq => if Z.even f then f else (f + 1)%Z
  end.

(** The binary64 value nearest to a positive rational: 53 significant bits,
    exponents from -1022 (below it the spacing stays [2^-1074]) to 1023,
    and [Infinity] when the rounded value reaches [2^1024]. *)
Definition round_positive (q : Q) : number :=
  let e := Z.max (exponent q) (-1022) in
  let m := round_half_even (scale2 q (52 - e)) in
  let r := scale2 (inject_Z m) (e - 52) in
  if Qle_bool (inject_Z (2 ^ 1024)) r then PInf else Fin (Qred r).

Definition neg (a : number) : number :=
  match a with
  | NaN => NaN
  | PInf => NInf
  | NInf => PInf
  | Fin q => Fin (Qred (- q))
  end.

(** The number that an exact rational result becomes: the nearest binary64
    value, ties to even. *)
Definition of_Q (q : Q) : number :=
  match Qnum q with
  | Z0 => Fin 0
  | Zpos _ => round_positive q
  | Zneg _ => neg (round_positive (- q))
  end.

(** An integer as a number, taken as it is: a binary64 value when its
    magnitude is at most 2^53, and [of_Q] rounds the others. *)
Definition of_Z (z : Z) : number := Fin (inject_Z z).
Definition of_N (n : N) : number := of_Z (Z.of_N n).

(** [Number.MAX_SAFE_INTEGER]. *)
Definition MAX_SAFE_INTEGER : Z := 2 ^ 53 - 1.

Definition zero : number := of_Z 0.
Definition Infinity : number := PInf.

(** Sign of a finite value: -1, 0 or 1. *)
Definition sgn (q : Q) : Z := Z.sgn (Qnum q).

(** [a * b] on numbers: a product with [NaN] is [NaN], and so is the product
    of an infinity with zero. *)
Definition mul (a b : number) : number :=
  match a, b with
  | NaN, _ | _, NaN => NaN
  | Fin x, Fin y => of_Q (x * y)
  | PInf, PInf | NInf, NInf => PInf
  | PInf, NInf | NInf, PInf => NInf
  | PInf, Fin y | Fin y, PInf =>
      match sgn y with Z0 => NaN | Zpos _ => PInf | Zneg _ => NInf end
  | NInf, Fin y | Fin y, NInf =>
      match sgn y with Z0 => NaN | Zpos _ => NInf | Zneg _ => PInf end
  end.

(** [a + b] on numbers: the sum of the two opposite infinities is [NaN]. *)
Definition add (a b : number) : number :=
  match a, b with
  | NaN, _ | _, NaN => NaN
  | Fin x, Fin y => of_Q (x + y)
  | PInf, NInf | NInf, PInf => NaN
  | PInf, _ | _, PInf => PInf
  | NInf, _ | _, NInf => NInf
  end.

(** [a / b]; a zero divisor counts as [+0]. *)
Definition div (a b : number) : number :=
  match a, b with
  | NaN, _ | _, NaN => NaN
  | Fin x, Fin y =>
      match Qnum y, Qnum x with
      | Z0, Z0 => NaN
      | Z0, Zpos _ => PInf
      | Z0, Zneg _ => NInf
      | _, _ => of_Q (x / y)
      end
  | Fin _, _ => Fin 0
  | PInf, Fin y => match Qnum y with Zneg _ => NInf | _ => PInf end
  | NInf, Fin y => match Qnum y with Zneg _ => PInf | _ => NInf end
  | _, _ => NaN
  end.

(** [Math.floor(a)]. *)
Definition floor (a : number) : number :=
  match a with
  | Fin q => Fin (inject_Z (Qfloor q))
  | _ => a
  end.

(** The integer part of a rational, towards zero. *)
Definition Qtrunc (q : Q) : Z :=
  if Qle_bool 0 q then Qfloor q else Qceiling q.

(** [a % b]: the remainder has the sign of [a] and is exact. *)
Definition rem (a b : number) : number :=
  match a, b with
  | Fin x, Fin y =>
      match Qnum y with
      | Z0 => NaN
      | _ => Fin (Qred (x - y * inject_Z (Qtrunc (x / y))))
      end
  | Fin x, PInf | Fin x, NInf => Fin x
  | _, _ => NaN
  end.

(** [a < b]: false as soon as one side is [NaN]. *)
Definition ltb (a b : number) : bool :=
  match a, b with
  | NaN, _ | _, NaN => false
  | Fin x, Fin y => negb (Qle_bool y x)
  | NInf, NInf => false
  | NInf, _ => true
  | _, NInf => false
  | PInf, _ => false
  | Fin _, PInf => true
  end.

(** [a >= b]: false as soon as one side is [NaN]. *)
Definition geb (a b : number) : bool :=
  match a, b with
  | NaN, _ | _, NaN => false
  | Fin x, Fin y => Qle_bool y x
  | _, NInf => true
  | NInf, _ => false
  | PInf, _ => true
  | Fin _, PInf => false
  end.

Definition leb (a b : number) : bool := geb b a.

(** [a === b] on two numbers: [NaN] differs from everything. *)
Definition eqb (a b : number) : bool :=
  match a, b with
  | Fin x, Fin y => Qeq_bool x y
  | PInf, PInf | NInf, NInf => true
  | _, _ => false
  end.

(** ToBoolean on a number: zero and [NaN] are falsy. *)
Definition to_bool (a : number) : bool :=
  match a with
  | NaN => false
  | Fin q => negb (Qeq_bool q 0)
  | _ => true
  end.

(** [a || 0] on a number. *)
Definition or_zero (a : number) : number :=
  if to_bool a then a else zero.

End Num.

Import Num.

Declare Scope num_scope.
Delimit Scope num_scope with num.
Bind Scope num_scope with number.
Infix "*" := Num.mul : num_scope.
Infix "+" := Num.add : num_scope.

(** ** Strings *)

Module Str.

Local Open Scope char_scope.

(** [s.includes(c)] for a one-character needle. *)
Fixpoint includes (c : ascii) (s : string) : bool :=
  match s with
  | EmptyString => false
  | String a r => if Ascii.eqb a c then true else includes c r
  end.

(** First piece of [s] up to the first [sep], and the pieces after it. *)
Fixpoint split_pieces (sep : ascii) (s : string) : string * list string :=
  match s with
  | EmptyString => (EmptyString, [])
  | String a r =>
      let (p, ps) := split_pieces sep r in
      if Ascii.eqb a sep then (EmptyString, p :: ps) else (String a p, ps)
  end.

(** [s.split(sep)] for a one-character separator: every separator cuts. *)
Definition split (sep : ascii) (s : string) : list string :=
  let (p, ps) := split_pieces sep s in p :: ps.

Fixpoint replicate (n : nat) (c : ascii) : string :=
  match n with
  | O => EmptyString
  | S k => String c (replicate k c)
  end.

(** [s.padStart(n, c)] for a one-character filler. *)
Definition padStart (n : nat) (c : ascii) (s : string) : string :=
  (replicate (n - String.length s) c ++ s)%string.

(** The decimal digits of a natural number. *)
Definition of_N (n : N) : string :=
  NilEmpty.string_of_uint (N.to_uint n).

(** *** StringToNumber *)

(** White space and line terminators among the 8-bit code units:
    TAB, LF, VT, FF, CR, SP and NBSP. *)
Definition is_ws (c : ascii) : bool :=
  let n := N_of_ascii c in
  ((9 <=? n) && (n <=? 13) || (n =? 32) || (n =? 160))%N.

Fixpoint trim_start (l : list ascii) : list ascii :=
  match l with
  | c :: r => if is_ws c then trim_start r else l
  | [] => []
  end.

Fixpoint trim_end (l : list ascii) : list ascii :=
  match l with
  | [] => []
  | c :: r =>
      match trim_end r with
      | [] => if is_ws c then [] else [c]
      | r' => c :: r'
      end
  end.

Definition trim (l : list ascii) : list ascii := trim_end (trim_start l).

(** Value of a digit in the given radix (2, 8, 10 or 16). *)
Definition digit_in (radix : N) (c : ascii) : option N :=
  let n := N_of_ascii c in
  let v :=
    if ((48 <=? n) && (n <=? 57))%N then Some (n - 48)%N
    else if ((97 <=? n) && (n <=? 102))%N then Some (n - 87)%N
    else if ((65 <=? n) && (n <=? 70))%N then Some (n - 55)%N
    else None in
  match v with
  | Some d => if (d <? radix)%N then Some d else None
  | None => None
  end.

Definition digit (c : ascii) : option N := digit_in 10 c.

(** Longest prefix of decimal digits, and what follows it. *)
Fixpoint span_digits (l : list ascii) : list N * list ascii :=
  match l with
  | c :: r =>
      match digit c with
      | Some d => let (ds, rest) := span_digits r in (d :: ds, rest)
      | None => ([], l)
      end
  | [] => ([], [])
  end.

(** All of [l] as digits of the radix, if every character is one. *)
Fixpoint all_digits (radix : N) (l : list ascii) : option (list N) :=
  match l with
  | [] => Some []
  | c :: r =>
      match digit_in radix c, all_digits radix r with
      | Some d, Some ds => Some (d :: ds)
      | _, _ => None
      end
  end.

Definition digits_value (radix : N) (ds : list N) : N :=
  fold_left (fun acc d => (acc * radix + d)%N) ds 0%N.

Definition pow10 (e : Z) : Q := Qpower (10 # 1) e.

(** ExponentPart_opt followed by the end of the literal. *)
Definition exponent_part (l : list ascii) : option Z :=
  match l with
  | [] => Some 0%Z
  | c :: r =>
      if Ascii.eqb c "e" || Ascii.eqb c "E" then
        let '(sg, r') :=
          match r with
          | "+" :: r' => (1%Z, r')
          | "-" :: r' => ((-1)%Z, r')
          | _ => (1%Z, r)
          end in
        match span_digits r' with
        | (d :: ds, []) => Some (sg * Z.of_N (digits_value 10 (d :: ds)))%Z
        | _ => None
        end
      else None
  end.

(** StrUnsignedDecimalLiteral other than [Infinity]:
    digits, an optional fraction, an optional exponent. *)
Definition unsigned_decimal (l : list ascii) : option Q :=
  let (ip, r1) := span_digits l in
  let '(fp, r2) :=
    match r1 with
    | "." :: r => span_digits r
    | _ => ([], r1)
    end in
  match ip ++ fp with
  | [] => None
  | ds =>
      match exponent_part r2 with
      | Some e =>
          Some (inject_Z (Z.of_N (digits_value 10 ds))
                * pow10 (e - Z.of_nat (List.length fp)))%Q
      | None => None
      end
  end.

Definition infinity_word : list ascii :=
  list_ascii_of_string "Infinity".

Definition unsigned_literal (l : list ascii) : option number :=
  if list_eq_dec ascii_dec l infinity_word then Some PInf
  else option_map Num.of_Q (unsigned_decimal l).

(** StrDecimalLiteral: an optional sign and an unsigned literal. *)
Definition decimal_literal (l : list ascii) : option number :=
  match l with
  | "+" :: r => unsigned_literal r
  | "-" :: r => option_map (Num.mul (Num.of_Z (-1))) (unsigned_literal r)
  | _ => unsigned_literal l
  end.

(** NonDecimalIntegerLiteral: at least one digit of the radix, no sign. *)
Definition radix_literal (radix : N) (l : list ascii) : option number :=
  match all_digits radix l with
  | Some (d :: ds) =>
      Some (Num.of_Q (inject_Z (Z.of_N (digits_value radix (d :: ds)))))
  | _ => None
  end.

Definition numeric_literal (l : list ascii) : option number :=
  match l with
  | "0" :: x :: r =>
      if Ascii.eqb x "x" || Ascii.eqb x "X" then radix_literal 16 r
      else if Ascii.eqb x "o" || Ascii.eqb x "O" then radix_literal 8 r
      else if Ascii.eqb x "b" || Ascii.eqb x "B" then radix_literal 2 r
      else decimal_literal l
  | _ => decimal_literal l
  end.

(** [Number(s)] on a string: white space is trimmed, the empty string is 0,
    a numeric literal is its value, anything else is [NaN]. *)
Definition Number (s : string) : number :=
  match trim (list_ascii_of_string s) with
  | [] => Num.zero
  | l =>
      match numeric_literal l with
      | Some v => v
      | None => NaN
      end
  end.

(** *** NumberToString *)

(** The [n] with [10^(n-1) <= q < 10^n], for a positive [q]: the difference
    of the digit counts of numerator and denominator, or one more. *)
Definition decimal_exponent (q : Q) : Z :=
  let count p := Z.of_nat (Decimal.nb_digits (Pos.to_uint p)) in
  let n := (count (Z.to_pos (Qnum q)) - count (Qden q))%Z in
  if Qle_bool (pow10 n) q then (n + 1)%Z else n.

(** Among the decimals [s * 10^(n-k)] with an integer [s], the two that
    enclose [q]: the one nearer to [q] (the even [s] when both are as near)
    of those that [Number] reads back as [q], as the triple [(s, k, n)].
    [s = 10^k] is written [1 * 10^n]. *)
Definition candidate (q : Q) (n k : Z) : option (Z * Z * Z) :=
  let e := (n - k)%Z in
  let t := (q / pow10 e)%Q in
  let lo := Qfloor t in
  let hi := (lo + 1)%Z in
  let reads s := Num.eqb (Num.of_Q (inject_Z s * pow10 e)) (Num.Fin q) in
  let low := (lo, k, n) in
  let high := if (hi =? 10 ^ k)%Z then (1%Z, 1%Z, (n + 1)%Z) else (hi, k, n) in
  match reads lo, reads hi with
  | true, true =>
      match Qcompare (t - inject_Z lo) (1 # 2) with
      | Lt => Some low
      | Gt => Some high
      | Eq => Some (if Z.even lo then low else high)
      end
  | true, false => Some low
  | false, true => Some high
  | false, false => None
  end.

(** The shortest decimal that is read back as [q]: the digit counts are
    tried from [k] on; seventeen digits tell any two binary64 values apart. *)
Fixpoint shortest (q : Q) (n k : Z) (fuel : nat) : Z * Z * Z :=
  match candidate q n k with
  | Some r => r
  | None =>
      match fuel with
      | O => (Qfloor (q / pow10 (n - k)), k, n)
      | S f => shortest q n (k + 1) f
      end
  end.

(** The text of a positive value from its shortest decimal, with [k] digits
    and decimal exponent [n]: the digits with zeros after them, with a point
    inside them, with [0.] and zeros before them, or the exponent form. *)
Definition of_shortest (q : Q) : string :=
  let '(s, k, n) := shortest q (decimal_exponent q) 1 16 in
  let ds := of_N (Z.to_N s) in
  if ((k <=? n) && (n <=? 21))%Z then
    (ds ++ replicate (Z.to_nat (n - k)) "0")%string
  else if ((0 <? n) && (n <=? 21))%Z then
    (substring 0 (Z.to_nat n) ds ++ String "." (
     substring (Z.to_nat n) (Z.to_nat (k - n)) ds))%string
  else if ((-6 <? n) && (n <=? 0))%Z then
    ("0." ++ replicate (Z.to_nat (- n)) "0" ++ ds)%string
  else
    let sign := if (n - 1 <? 0)%Z then "-" else "+" in
    let mantissa :=
      if (k =? 1)%Z then ds
      else (substring 0 1 ds ++
            String "." (substring 1 (Z.to_nat (k - 1)) ds))%string in
    (mantissa ++ String "e" (String sign (of_N (Z.abs_N (n - 1)))))%string.

(** [String(x)] and [`${x}`] on a number. *)
Definition of_number (x : number) : string :=
  match x with
  | NaN => "NaN"
  | PInf => "Infinity"
  | NInf => "-Infinity"
  | Fin q =>
      match Qnum q with
      | Z0 => of_N 0
      | Zpos _ => of_shortest q
      | Zneg _ => String "-" (of_shortest (- q))
      end
  end.

End Str.

(** ** Time parsing and formatting *)

(** The callback of [map] in [parseTimeSafe]: [n => Number(n) || 0]. *)
Definition coerce (n : string) : number := Num.or_zero (Str.Number n).

(** [parseTimeSafe(t)] for a string [t].  The destructuring [[m, s]] takes
    the first two pieces of the split and ignores the others; a missing piece
    is [undefined], and arithmetic on it gives [NaN]. *)
Definition parseTimeSafe (t : string) : number :=
  if (t =? "")%string || negb (Str.includes ":" t) then Num.zero
  else
    match map coerce (Str.split ":" t) with
    | m :: s :: _ => (m * Num.of_Z 60 + s)%num
    | _ => NaN
    end.

(** [parseTime] as the specification words it: one cut at the first
    separator, the text before it as minutes and all the text after it as
    seconds. *)
Fixpoint cut_once (sep : ascii) (s : string) : option (string * string) :=
  match s with
  | EmptyString => None
  | String a r =>
      if Ascii.eqb a sep then Some (EmptyString, r)
      else
        match cut_once sep r with
        | Some (p, q) => Some (String a p, q)
        | None => None
        end
  end.

Definition spec_parseTime (t : string) : number :=
  match cut_once ":" t with
  | None => Num.zero
  | Some (minutes, seconds) =>
      (coerce minutes * Num.of_Z 60 + coerce seconds)%num
  end.

(** [formatTime(seconds)]. *)
Definition formatTime (seconds : number) : string :=
  let m := Num.floor (Num.div seconds (Num.of_Z 60)) in
  let s := Num.rem seconds (Num.of_Z 60) in
  (Str.of_number m ++ ":" ++ Str.padStart 2 "0" (Str.of_number s))%string.

(** ** Parsed JSON *)

#[local] Unset Elimination Schemes.

Inductive value : Type :=
| JNull
| JBool (b : bool)
| JNum (n : number)
| JStr (s : string)
| JArr (items : list value)
| JObj (props : list (string * value)).

#[local] Set Elimination Schemes.

(** First binding of a key in a property list. *)
Fixpoint assoc (k : string) (props : list (string * value)) : option value :=
  match props with
  | [] => None
  | (k', v) :: rest => if (k' =? k)%string then Some v else assoc k rest
  end.

(** [v.k] for a key [k] that is neither an index, nor [length], nor
    inherited: the own property of an object, [undefined] otherwise.  The
    keys the component reads ([name], [race], [steps], [time], [supply],
    [action]) are all of that kind. *)
Definition get (v : value) (k : string) : option value :=
  match v with
  | JObj props => assoc k props
  | _ => None
  end.

(** [typeof v], with [None] for [undefined]. *)
Definition typeof (v : option value) : string :=
  match v with
  | None => "undefined"
  | Some JNull => "object"
  | Some (JBool _) => "boolean"
  | Some (JNum _) => "number"
  | Some (JStr _) => "string"
  | Some (JArr _) => "object"
  | Some (JObj _) => "object"
  end.

(** ToBoolean. *)
Definition truthy (v : value) : bool :=
  match v with
  | JNull => false
  | JBool b => b
  | JNum n => Num.to_bool n
  | JStr s => negb (s =? "")%string
  | JArr _ | JObj _ => true
  end.

(** [Array.isArray(v)]. *)
Definition isArray (v : option value) : option (list value) :=
  match v with
  | Some (JArr items) => Some items
  | _ => None
  end.

(** ** Document validator *)

(** The four tests of the loop body of [validateBuild]; [true] when one of
    them returns [false] from the function. *)
Definition rejects_step (step : value) : bool :=
  if negb (truthy step) || negb (typeof (Some step) =? "object") then true
  else if negb (typeof (get step "time") =? "string") then true
  else if negb (typeof (get step "supply") =? "number") then true
  else if negb (typeof (get step "action") =? "string") then true
  else false.

(** The [for ... of] loop of [validateBuild], leaving at the first step that
    is rejected. *)
Fixpoint check_steps (steps : list value) : bool :=
  match steps with
  | [] => true
  | step :: rest => if rejects_step step then false else check_steps rest
  end.

Definition validateBuild (json : value) : bool :=
  if negb (truthy json) || negb (typeof (Some json) =? "object") then false
  else if negb (typeof (get json "name") =? "string") then false
  else if negb (typeof (get json "race") =? "string") then false
  else
    match isArray (get json "steps") with
    | None => false
    | Some steps => check_steps steps
    end.

(** *** The validator as the specification words it *)

Inductive ValidationError : Type :=
| NotAnObject
| MissingOrInvalidName
| MissingOrInvalidRace
| MissingOrInvalidSteps
| InvalidStep (index : nat).

Definition is_object (v : value) : Prop :=
  match v with
  | JArr _ | JObj _ => True
  | _ => False
  end.

Definition is_text (v : option value) : Prop := exists s, v = Some (JStr s).
Definition is_numeric (v : option value) : Prop := exists n, v = Some (JNum n).

(** A step of the right shape: a non-null object with a string [time], a
    numeric [supply] and a string [action]. *)
Definition step_shape (step : value) : Prop :=
  is_object step /\ is_text (get step "time") /\
  is_numeric (get step "supply") /\ is_text (get step "action").

(** A document of the right shape. *)
Definition build_shape (raw : value) : Prop :=
  is_object raw /\ is_text (get raw "name") /\ is_text (get raw "race") /\
  exists steps, get raw "steps" = Some (JArr steps) /\ Forall step_shape steps.

Definition is_object_b (v : value) : bool :=
  match v with
  | JArr _ | JObj _ => true
  | _ => false
  end.

Definition is_text_b (v : option value) : bool :=
  match v with
  | Some (JStr _) => true
  | _ => false
  end.

Definition is_numeric_b (v : option value) : bool :=
  match v with
  | Some (JNum _) => true
  | _ => false
  end.

Definition step_shape_b (step : value) : bool :=
  is_object_b step && is_text_b (get step "time") &&
  is_numeric_b (get step "supply") && is_text_b (get step "action").

(** Index of the first step of the wrong shape, counting from [i]. *)
Fixpoint first_invalid_step (i : nat) (steps : list value) : option nat :=
  match steps with
  | [] => None
  | step :: rest =>
      if step_shape_b step then first_invalid_step (S i) rest else Some i
  end.

(** Rules 1 to 5 of the specification's validator, top-down, each failing
    with its own error; on success the value is returned as it is. *)
Definition spec_validate (raw : value) : value + ValidationError :=
  if negb (is_object_b raw) then inr NotAnObject
  else if negb (is_text_b (get raw "name")) then inr MissingOrInvalidName
  else if negb (is_text_b (get raw "race")) then inr MissingOrInvalidRace
  else
    match get raw "steps" with
    | Some (JArr steps) =>
        match first_invalid_step 0 steps with
        | Some i => inr (InvalidStep i)
        | None => inl raw
        end
    | _ => inr MissingOrInvalidSteps
    end.

(** The keys the validator reads. *)
Definition document_keys : list string := ["name"; "race"; "steps"].
Definition step_keys : list string := ["time"; "supply"; "action"].

(** ** Build documents *)

(** A step of a validated document: the three recognised fields, and the
    properties that come with them. *)
Record BuildStep : Type := mkStep {
  time : string;
  supply : number;
  action : string;
  extra : list (string * value)
}.

(** A step with its derived window: [{ ...step, start, end }]. *)
Record EnrichedStep : Type := mkEnriched {
  step : BuildStep;
  start : number;
  end_ : number
}.

(** A step of [build.steps] read as a [BuildStep]; defined on the steps
    that [validateBuild] accepts, the only ones a loader stores. *)
Definition read_step (v : value) : option BuildStep :=
  match v with
  | JObj props =>
      match assoc "time" props, assoc "supply" props, assoc "action" props with
      | Some (JStr t), Some (JNum n), Some (JStr a) =>
          Some (mkStep t n a
                  (filter (fun kv => negb (existsb (String.eqb (fst kv)) step_keys))
                          props))
      | _, _, _ => None
      end
  | _ => None
  end.

Fixpoint read_steps (vs : list value) : list BuildStep :=
  match vs with
  | [] => []
  | v :: rest =>
      match read_step v with
      | Some st => st :: read_steps rest
      | None => read_steps rest
      end
  end.

(** [build.steps] of the active document, for a document that
    [validateBuild] accepts: there [steps] is an array and every element is
    read.  The loaders store no other document; one restored from
    [localStorage] is not checked, and where it has another shape the
    projections of the component are not described by this list. *)
Definition build_steps (build : value) : list BuildStep :=
  match isArray (get build "steps") with
  | Some vs => read_steps vs
  | None => []
  end.

Definition jstep (s : N) (t a : string) : value :=
  JObj [("supply", JNum (Num.of_N s)); ("time", JStr t); ("action", JStr a)].

Definition DEFAULT_BUILD : value :=
  JObj [("name", JStr "Sample Terran Macro Opener");
        ("race", JStr "Terran");
        ("steps", JArr [jstep 14 "0:02" "Supply Depot";
                        jstep 16 "0:06" "Barracks";
                        jstep 19 "0:08" "Refinery";
                        jstep 19 "0:12" "Orbital Command";
                        jstep 20 "0:015" "Command Center (Expand)"])].

(** ** Schedule projector *)

(** [xs.map((x, i) => f(x, i))], the index counting from [i]. *)
Fixpoint mapi_from {A B : Type} (f : A -> nat -> B) (i : nat) (xs : list A)
  : list B :=
  match xs with
  | [] => []
  | x :: rest => f x i :: mapi_from f (S i) rest
  end.

Definition mapi {A B : Type} (f : A -> nat -> B) (xs : list A) : list B :=
  mapi_from f 0 xs.

(** The callback of [enrichedSteps].  Under the guard [i < length - 1] the
    index [i + 1] is in range; reading [time] off a missing element would
    throw, which the guard rules out. *)
Definition enrich (steps : list BuildStep) (st : BuildStep) (i : nat)
  : EnrichedStep :=
  let start := parseTimeSafe (time st) in
  let end_ :=
    if (Z.of_nat i <? Z.of_nat (List.length steps) - 1)%Z
    then parseTimeSafe (time (nth (i + 1) steps st))
    else Num.Infinity in
  mkEnriched st start end_.

Definition enrichedSteps (steps : list BuildStep) : list EnrichedStep :=
  mapi (enrich steps) steps.

(** [xs.slice(k)]: a negative [k] counts from the end. *)
Definition slice {A : Type} (k : Z) (xs : list A) : list A :=
  let len := Z.of_nat (List.length xs) in
  let from := if (k <? 0)%Z then Z.max (len + k) 0 else Z.min k len in
  skipn (Z.to_nat from) xs.

(** The body of the [visibleSteps] memo.  It returns the display sequence;
    its side effect, the call of [audioRef.current.play()], is the boolean
    beside it.  [audio] tells whether [audioRef.current] is set. *)
Definition visibleSteps (enriched : list EnrichedStep) (seconds : number)
    (muted audio : bool) : bool * list EnrichedStep :=
  let done := filter (fun s => Num.geb seconds (end_ s)) enriched in
  let lastDone := slice (-2) done in
  let remaining := filter (fun s => Num.ltb seconds (end_ s)) enriched in
  let played :=
    if (0 <? List.length done)%nat && negb muted then
      match nth_error done (List.length done - 1) with
      | Some lastStep => audio && Num.eqb seconds (end_ lastStep)
      | None => false
      end
    else false in
  (played, lastDone ++ remaining).

Definition played (enriched : list EnrichedStep) (seconds : number)
    (muted audio : bool) : bool :=
  fst (visibleSteps enriched seconds muted audio).

(** The classification used when a displayed step is rendered. *)
Definition is_done (seconds : number) (s : EnrichedStep) : bool :=
  Num.geb seconds (end_ s).

Definition is_active (seconds : number) (s : EnrichedStep) : bool :=
  Num.geb seconds (start s) && Num.ltb seconds (end_ s).

(** ** The component: state, clock, loaders *)

(** The state cells of [BuildAdvisor] that the clock and the loaders touch.
    [seconds] counts the ticks; it is the number the engine holds as long as
    it stays below 2^53.  [buildRef] stands for the identity of the object
    held in [build]: every [setBuild(json)] stores a freshly parsed object,
    so the memo that depends on [build] sees a new dependency each time. *)
Record State : Type := mkState {
  seconds : N;
  running : bool;
  linkInput : string;
  loadingLink : bool;
  selectedBuild : string;
  build : value;
  buildRef : nat;
  muted : bool;
  errorMessage : string;
  successMessage : string
}.

Definition initial (saved : option value) : State :=
  {| seconds := 0; running := false; linkInput := ""; loadingLink := false;
     selectedBuild := "";
     build := match saved with Some b => b | None => DEFAULT_BUILD end;
     buildRef := 0; muted := false; errorMessage := ""; successMessage := "" |}.

(** *** A state and exception monad for the handlers

    A handler runs on the component state and either returns or throws an
    error carrying a message; the state updates made before a throw stay. *)
Module Handler.

Definition M (A : Type) : Type := State -> State * (A + string).

Definition ret {A : Type} (a : A) : M A := fun st => (st, inl a).

Definition bind {A B : Type} (m : M A) (k : A -> M B) : M B :=
  fun st =>
    match m st with
    | (st', inl a) => k a st'
    | (st', inr err) => (st', inr err)
    end.

(** [throw new Error(msg)]. *)
Definition throw {A : Type} (msg : string) : M A := fun st => (st, inr msg).

Definition modify (f : State -> State) : M unit := fun st => (f st, inl tt).

(** [if (c) throw new Error(msg)]. *)
Definition throw_if (c : bool) (msg : string) : M unit :=
  if c then throw msg else ret tt.

(** [try { body } catch (err) { handler(err.message) }]. *)
Definition try_catch (body : M unit) (handler : string -> M unit) : M unit :=
  fun st =>
    match body st with
    | (st', inl tt) => (st', inl tt)
    | (st', inr err) => handler err st'
    end.

(** [try { body } catch (err) { handler(err.message) } finally { final }]. *)
Definition try_catch_finally (body : M unit) (handler : string -> M unit)
    (final : M unit) : M unit :=
  bind (try_catch body handler) (fun _ => final).

(** The state a handler leaves. *)
Definition exec (m : M unit) (st : State) : State := fst (m st).

End Handler.

Import Handler.

Notation "x <- m ;; k" := (bind m (fun x => k))
  (at level 61, m at next level, right associativity).
Notation "m ;; k" := (bind m (fun _ => k))
  (at level 61, right associativity).

(** The state setters. *)
Definition setSeconds (n : N) : M unit :=
  modify (fun st => {| seconds := n; running := running st;
    linkInput := linkInput st; loadingLink := loadingLink st;
    selectedBuild := selectedBuild st; build := build st;
    buildRef := buildRef st; muted := muted st;
    errorMessage := errorMessage st; successMessage := successMessage st |}).

Definition setRunning (b : bool) : M unit :=
  modify (fun st => {| seconds := seconds st; running := b;
    linkInput := linkInput st; loadingLink := loadingLink st;
    selectedBuild := selectedBuild st; build := build st;
    buildRef := buildRef st; muted := muted st;
    errorMessage := errorMessage st; successMessage := successMessage st |}).

Definition setLinkInput (s : string) : M unit :=
  modify (fun st => {| seconds := seconds st; running := running st;
    linkInput := s; loadingLink := loadingLink st;
    selectedBuild := selectedBuild st; build := build st;
    buildRef := buildRef st; muted := muted st;
    errorMessage := errorMessage st; successMessage := successMessage st |}).

Definition setLoadingLink (b : bool) : M unit :=
  modify (fun st => {| seconds := seconds st; running := running st;
    linkInput := linkInput st; loadingLink := b;
    selectedBuild := selectedBuild st; build := build st;
    buildRef := buildRef st; muted := muted st;
    errorMessage := errorMessage st; successMessage := successMessage st |}).

Definition setSelectedBuild (s : string) : M unit :=
  modify (fun st => {| seconds := seconds st; running := running st;
    linkInput := linkInput st; loadingLink := loadingLink st;
    selectedBuild := s; build := build st;
    buildRef := buildRef st; muted := muted st;
    errorMessage := errorMessage st; successMessage := successMessage st |}).

Definition setBuild (json : value) : M unit :=
  modify (fun st => {| seconds := seconds st; running := running st;
    linkInput := linkInput st; loadingLink := loadingLink st;
    selectedBuild := selectedBuild st; build := json;
    buildRef := S (buildRef st); muted := muted st;
    errorMessage := errorMessage st; successMessage := successMessage st |}).

Definition setMuted (b : bool) : M unit :=
  modify (fun st => {| seconds := seconds st; running := running st;
    linkInput := linkInput st; loadingLink := loadingLink st;
    selectedBuild := selectedBuild st; build := build st;
    buildRef := buildRef st; muted := b;
    errorMessage := errorMessage st; successMessage := successMessage st |}).

Definition setErrorMessage (s : string) : M unit :=
  modify (fun st => {| seconds := seconds st; running := running st;
    linkInput := linkInput st; loadingLink := loadingLink st;
    selectedBuild := selectedBuild st; build := build st;
    buildRef := buildRef st; muted := muted st;
    errorMessage := s; successMessage := successMessage st |}).

Definition setSuccessMessage (s : string) : M unit :=
  modify (fun st => {| seconds := seconds st; running := running st;
    linkInput := linkInput st; loadingLink := loadingLink st;
    selectedBuild := selectedBuild st; build := build st;
    buildRef := buildRef st; muted := muted st;
    errorMessage := errorMessage st; successMessage := s |}).

(** *** What the environment answers to a loader *)

(** [await res.json()], [JSON.parse(await file.text())]: a thrown error with
    its message, or the parsed value. *)
Inductive Parsed : Type :=
| BadJson (message : string)
| Json (json : value).

(** [await fetch(url)]: a rejection with its message, or a response with its
    [ok] flag and its body. *)
Inductive Fetched : Type :=
| FetchRejected (message : string)
| Response (ok : bool) (body : Parsed).

(** A file handed to [loadFromFile]: its name, and what reading and parsing
    its text gives. *)
Record File : Type := mkFile {
  name : string;
  content : Parsed
}.

Definition await_fetch (net : Fetched) : M (bool * Parsed) :=
  match net with
  | FetchRejected msg => throw msg
  | Response ok body => ret (ok, body)
  end.

Definition await_json (body : Parsed) : M value :=
  match body with
  | BadJson msg => throw msg
  | Json json => ret json
  end.

(** [msg || fallback] on strings. *)
Definition or_else (msg fallback : string) : string :=
  if (msg =? "")%string then fallback else msg.

(** [c.toLowerCase()] on an 8-bit code unit: the letters A-Z, and the
    Latin-1 capitals other than the multiplication sign. *)
Definition lower (c : ascii) : ascii :=
  let n := N_of_ascii c in
  if ((65 <=? n) && (n <=? 90) ||
      (192 <=? n) && (n <=? 222) && negb (n =? 215))%N
  then ascii_of_N (n + 32) else c.

Fixpoint toLowerCase (s : string) : string :=
  match s with
  | EmptyString => EmptyString
  | String c r => String (lower c) (toLowerCase r)
  end.

(** [s.endsWith(suffix)]. *)
Definition endsWith (suffix s : string) : bool :=
  let n := String.length s in
  let k := String.length suffix in
  (k <=? n)%nat && (substring (n - k) k s =? suffix)%string.

(** [loadLocalBuild(buildId)], given what the fetch of the build answers.
    The setter calls written before and after an [await] are applied in
    their order, as when no other handler runs while the loader waits; a
    loader reads no state cell.  [load_begin] and [load_resume] below give
    the two parts of a loader on their own. *)
Definition loadLocalBuild (buildId : string) (net : Fetched) : M unit :=
  try_catch_finally
    (setLoadingLink true ;;
     setErrorMessage "" ;;
     setSuccessMessage "" ;;
     res <- await_fetch net ;;
     throw_if (negb (fst res)) "Build not found" ;;
     json <- await_json (snd res) ;;
     throw_if (negb (validateBuild json)) "Invalid build format" ;;
     setBuild json ;;
     setSeconds 0 ;;
     setSuccessMessage "Build Loaded" ;;
     setRunning false ;;
     setSelectedBuild buildId)
    (fun err => setErrorMessage (or_else err "Build not available locally."))
    (setLoadingLink false).

(** [loadFromFile(file)]; [None] is a missing file. *)
Definition loadFromFile (file : option File) : M unit :=
  try_catch
    (setErrorMessage "" ;;
     setSuccessMessage "" ;;
     match file with
     | None => throw "No file provided"
     | Some f =>
         throw_if (negb (endsWith ".json" (toLowerCase (name f))))
                  "Please drop a valid .json file" ;;
         json <- await_json (content f) ;;
         throw_if (negb (validateBuild json)) "Invalid build JSON schema" ;;
         setBuild json ;;
         setSuccessMessage "Build Loaded" ;;
         setSeconds 0 ;;
         setRunning false
     end)
    (fun err => setErrorMessage (or_else err "Invalid JSON file")).

(** [loadFromLink(url)], given what the fetch answers.  The rewriting of a
    GitHub page address into a raw address only chooses the resource that
    is fetched. *)
Definition loadFromLink (url : string) (net : Fetched) : M unit :=
  try_catch_finally
    (setLoadingLink true ;;
     setErrorMessage "" ;;
     setSuccessMessage "" ;;
     res <- await_fetch net ;;
     throw_if (negb (fst res)) "Fetch failed" ;;
     json <- await_json (snd res) ;;
     throw_if (negb (validateBuild json)) "Invalid build format" ;;
     setBuild json ;;
     setSeconds 0 ;;
     setSuccessMessage "Build Loaded" ;;
     setRunning false ;;
     setLinkInput "")
    (fun err =>
       setErrorMessage (or_else err "Unable to load build JSON from link."))
    (setLoadingLink false).

(** *** Load attempts and their failures *)

Inductive Attempt : Type :=
| LocalBuild (buildId : string) (net : Fetched)
| FromLink (url : string) (net : Fetched)
| FromFile (file : option File).

Definition load (a : Attempt) : M unit :=
  match a with
  | LocalBuild buildId net => loadLocalBuild buildId net
  | FromLink url net => loadFromLink url net
  | FromFile file => loadFromFile file
  end.

(** A fetch that ends in a fetch error (a rejection or a response that is
    not [ok]), a JSON parse error, or a validation error. *)
Inductive fetch_fails : Fetched -> Prop :=
| fetch_error_rejected msg : fetch_fails (FetchRejected msg)
| fetch_error_status body : fetch_fails (Response false body)
| fetch_parse_error msg : fetch_fails (Response true (BadJson msg))
| fetch_validation_error json :
    validateBuild json = false -> fetch_fails (Response true (Json json)).

(** A file load that ends in an error: no file, a name that does not end in
    [.json], a JSON parse error, or a validation error. *)
Inductive file_fails : option File -> Prop :=
| file_missing : file_fails None
| file_wrong_name f :
    endsWith ".json" (toLowerCase (name f)) = false -> file_fails (Some f)
| file_parse_error f msg : content f = BadJson msg -> file_fails (Some f)
| file_validation_error f json :
    content f = Json json -> validateBuild json = false ->
    file_fails (Some f).

Definition fails (a : Attempt) : Prop :=
  match a with
  | LocalBuild _ net | FromLink _ net => fetch_fails net
  | FromFile file => file_fails file
  end.

(** *** Events and renders *)

Inductive Event : Type :=
| Tick
| Start
| Pause
| ResetClock
| ToggleMute
| LoadDoc (a : Attempt).

(** The handlers.  The interval that ticks exists only while [running].
    [LoadDoc] is a load attempt during which no other handler runs. *)
Definition handle (ev : Event) : M unit :=
  match ev with
  | Tick => fun st =>
      if running st then setSeconds (seconds st + 1) st else ret tt st
  | Start => setRunning true
  | Pause => setRunning false
  | ResetClock => setRunning false ;; setSeconds 0
  | ToggleMute => fun st => setMuted (negb (muted st)) st
  | LoadDoc a => load a
  end.

Definition next (st : State) (ev : Event) : State := exec (handle ev) st.

(** The dependencies [enrichedSteps, seconds, muted] of the [visibleSteps]
    memo differ between two renders; [enrichedSteps] is itself a memo on
    [build]. *)
Definition deps_changed (prev cur : State) : bool :=
  negb ((buildRef prev =? buildRef cur)%nat &&
        (seconds prev =? seconds cur)%N &&
        Bool.eqb (muted prev) (muted cur)).

(** The render that follows a state change: the memo body runs when its
    dependencies changed, and the result tells whether it played the sound.
    After the first render [audioRef.current] is the audio element. *)
Definition render_plays (prev cur : State) : bool :=
  deps_changed prev cur &&
  played (enrichedSteps (build_steps (build cur)))
         (Num.of_N (seconds cur)) (muted cur) true.

(** The elapsed values at which the sound was played along a run of
    events, in order. *)
Fixpoint run (st : State) (evs : list Event) : list N :=
  match evs with
  | [] => []
  | ev :: rest =>
      let st' := next st ev in
      (if render_plays st st' then [seconds st'] else []) ++ run st' rest
  end.

(** The state after a run of events. *)
Definition after (st : State) (evs : list Event) : State :=
  fold_left next evs st.

(** ** Auxiliary definitions for the statements and proofs *)

(** The last two entries of a list, fewer if fewer exist, in their order. *)
Definition last_two {A : Type} (xs : list A) : list A :=
  match rev xs with
  | a :: b :: _ => [b; a]
  | [a] => [a]
  | [] => []
  end.

(** Step times that never decrease along the document. *)
Definition non_decreasing (ts : list number) : Prop :=
  StronglySorted (fun a b => Num.leb a b = true) ts.

Definition step_times (steps : list BuildStep) : list number :=
  map (fun st => parseTimeSafe (time st)) steps.

(** The elapsed value [s] is the [end] of some step. *)
Definition is_boundary (enriched : list EnrichedStep) (s : number) : bool :=
  existsb (fun e => Num.eqb s (end_ e)) enriched.

(** The windows of the steps, by recursion on the list. *)
Fixpoint windows (steps : list BuildStep) : list EnrichedStep :=
  match steps with
  | [] => []
  | st :: rest =>
      mkEnriched st (parseTimeSafe (time st))
        match rest with
        | nx :: _ => parseTimeSafe (time nx)
        | [] => Num.Infinity
        end
      :: windows rest
  end.

(** The last element of a list, if any. *)
Fixpoint last_opt {A : Type} (xs : list A) : option A :=
  match xs with
  | [] => None
  | [x] => Some x
  | _ :: rest => last_opt rest
  end.

(** A document with two steps, at 0:01 and 0:03. *)
Definition two_steps : value :=
  JObj [("name", JStr "Two"); ("race", JStr "Zerg");
        ("steps", JArr [jstep 13 "0:01" "Overlord"; jstep 16 "0:03" "Pool"])].

Definition two_steps_file : File := mkFile "two.json" (Json two_steps).

(** Two documents with one step of the wrong shape (its [supply] is a
    string), at index 0 and at index 1. *)
Definition wrong_step : value :=
  JObj [("time", JStr "0:10"); ("supply", JStr "14"); ("action", JStr "Depot")].

Definition wrong_step_0 : value :=
  JObj [("name", JStr "B"); ("race", JStr "Terran");
        ("steps", JArr [wrong_step; jstep 16 "0:38" "Barracks"])].

Definition wrong_step_1 : value :=
  JObj [("name", JStr "B"); ("race", JStr "Terran");
        ("steps", JArr [jstep 16 "0:38" "Barracks"; wrong_step])].

(** The component after [two_steps] is loaded from a file and the clock is
    started. *)
Definition two_steps_started : State :=
  after (initial None) [LoadDoc (FromFile (Some two_steps_file)); Start].

(** A document whose step times decrease: 0:10, 0:05 and 0:03, so that the
    steps end at 5, at 3 and never. *)
Definition unordered_steps : value :=
  JObj [("name", JStr "Unordered"); ("race", JStr "Protoss");
        ("steps", JArr [jstep 14 "0:10" "Pylon"; jstep 15 "0:05" "Gateway";
                        jstep 16 "0:03" "Assimilator"])].

(** The component after [unordered_steps] is loaded from a file and the
    clock is started. *)
Definition unordered_started : State :=
  after (initial None)
    [LoadDoc (FromFile (Some (mkFile "unordered.json" (Json unordered_steps))));
     Start].

(** ** Decimal numerals as printed by [String] *)

(** The digits of a decimal numeral, most significant first. *)
Fixpoint uint_digits (u : Decimal.uint) : list N :=
  match u with
  | Decimal.Nil => []
  | Decimal.D0 r => 0%N :: uint_digits r
  | Decimal.D1 r => 1%N :: uint_digits r
  | Decimal.D2 r => 2%N :: uint_digits r
  | Decimal.D3 r => 3%N :: uint_digits r
  | Decimal.D4 r => 4%N :: uint_digits r
  | Decimal.D5 r => 5%N :: uint_digits r
  | Decimal.D6 r => 6%N :: uint_digits r
  | Decimal.D7 r => 7%N :: uint_digits r
  | Decimal.D8 r => 8%N :: uint_digits r
  | Decimal.D9 r => 9%N :: uint_digits r
  end.

(** The characters of a decimal numeral. *)
Definition uint_chars (u : Decimal.uint) : list ascii :=
  list_ascii_of_string (NilEmpty.string_of_uint u).

(** A decimal digit character. *)
Definition is_dec (c : ascii) : Prop := exists d, Str.digit c = Some d.

(** [k] zeros in front of a numeral. *)
Fixpoint zeros (k : nat) (u : Decimal.uint) : Decimal.uint :=
  match k with
  | O => u
  | S k' => Decimal.D0 (zeros k' u)
  end.

(** Linear arithmetic below [Number.MAX_SAFE_INTEGER]. *)
Ltac safe_lia :=
  unfold MAX_SAFE_INTEGER in *;
  change (2 ^ 53 - 1)%Z with 9007199254740991%Z in *;
  lia.

(** Unfolds a loader down to its state updates. *)
Ltac run_handler :=
  unfold loadLocalBuild, loadFromLink, loadFromFile, exec, try_catch_finally,
    try_catch, bind, throw_if, await_fetch, await_json, throw, ret,
    setLoadingLink, setErrorMessage, setSuccessMessage, setBuild, setSeconds,
    setRunning, setSelectedBuild, setLinkInput, modify;
  cbn.

(** ** More of the component *)

(** *** Text helpers of the link loader and of the tutorial page *)

(** [s.startsWith(p)]. *)
Definition startsWith (p s : string) : bool := String.prefix p s.

(** [s.includes(p)] for a text [p]. *)
Fixpoint includesText (p s : string) : bool :=
  String.prefix p s ||
  match s with
  | EmptyString => false
  | String _ r => includesText p r
  end.

(** The text after the first [n] characters. *)
Fixpoint dropText (n : nat) (s : string) : string :=
  match n, s with
  | O, _ => s
  | S k, String _ r => dropText k r
  | S _, EmptyString => EmptyString
  end.

(** [s.replace(p, r)] for a text pattern [p] and a replacement [r] without
    a dollar sign: the first occurrence of [p] becomes [r]. *)
Fixpoint replaceFirst (p r s : string) : string :=
  if String.prefix p s then (r ++ dropText (String.length p) s)%string
  else
    match s with
    | EmptyString => EmptyString
    | String c rest => String c (replaceFirst p r rest)
    end.

(** The address that [loadFromLink(url)] fetches: the address of a GitHub
    page of a file is turned into the address of the raw file. *)
Definition fetchUrl (url : string) : string :=
  if includesText "github.com" url && includesText "/blob/" url then
    replaceFirst "/blob/" "/"
      (replaceFirst "https://github.com/" "https://raw.githubusercontent.com/"
                    url)
  else url.

(** A character of the class [[a-z0-9]]. *)
Definition is_slug_char (c : ascii) : bool :=
  let n := N_of_ascii c in
  ((97 <=? n) && (n <=? 122) || (48 <=? n) && (n <=? 57))%N.

(** [s.replace(/[^a-z0-9]+/g, "-")]: every maximal run of characters
    outside the class becomes one hyphen.  [in_run] tells that the
    previous character was outside the class. *)
Fixpoint replaceRuns (in_run : bool) (s : string) : string :=
  match s with
  | EmptyString => EmptyString
  | String c r =>
      if is_slug_char c then String c (replaceRuns false r)
      else if in_run then replaceRuns true r
      else String "-" (replaceRuns true r)
  end.

(** The anchor of a heading, as the sidebar and the [h2] renderer of the
    tutorial compute it: [text.toLowerCase().replace(/[^a-z0-9]+/g, "-")]. *)
Definition headingId (text : string) : string :=
  replaceRuns false (toLowerCase text).

(** The white space at the start of a text, dropped. *)
Fixpoint dropSpaces (s : string) : string :=
  match s with
  | String c r => if Str.is_ws c then dropSpaces r else s
  | EmptyString => EmptyString
  end.

(** [line.replace(/^##\s+/, "")]: two hash signs and the white space after
    them go, when there is some. *)
Definition headingText (line : string) : string :=
  match line with
  | String "#" (String "#" (String c r)) =>
      if Str.is_ws c then dropSpaces r else line
  | _ => line
  end.

(** The [headings] memo of the tutorial page, for a markdown text. *)
Definition headings (markdown : string) : list (string * string) :=
  map (fun line => let text := headingText line in (text, headingId text))
      (filter (startsWith "## ") (Str.split "010" markdown)).

(** A character of a heading anchor. *)
Definition anchor_char (c : ascii) : Prop := is_slug_char c = true \/ c = "-"%char.

(** *** What the page shows of the state *)

(** The success banner: [successMessage && !errorMessage]. *)
Definition showsSuccess (st : State) : bool :=
  negb (successMessage st =? "")%string && (errorMessage st =? "")%string.

(** The error banner: [errorMessage]. *)
Definition showsError (st : State) : bool :=
  negb (errorMessage st =? "")%string.

(** The document that a load attempt stores, when it stores one. *)
Definition delivered (a : Attempt) : option value :=
  let of_body (ok : bool) (body : Parsed) :=
    if ok then
      match body with
      | Json json => if validateBuild json then Some json else None
      | BadJson _ => None
      end
    else None in
  match a with
  | LocalBuild _ (Response ok body) | FromLink _ (Response ok body) =>
      of_body ok body
  | LocalBuild _ (FetchRejected _) | FromLink _ (FetchRejected _) => None
  | FromFile (Some f) =>
      of_body (endsWith ".json" (toLowerCase (name f))) (content f)
  | FromFile None => None
  end.

(** *** The two parts of a load attempt

    A loader is an [async] function.  It runs up to its first [await] when
    it is called and goes on when what it awaits has arrived; handlers of
    other events, other loaders among them, run in between.  From its first
    [await] to its last a loader updates no state cell, so its updates come
    in two groups: those made at the call, and those made on arrival.
    [load] runs the two groups one after the other, with nothing in
    between. *)

(** Whether the loader reaches an [await]: [loadFromFile] throws before it
    on a missing file and on a name that does not end in [.json]. *)
Definition awaits (a : Attempt) : bool :=
  match a with
  | LocalBuild _ _ | FromLink _ _ => true
  | FromFile None => false
  | FromFile (Some f) => endsWith ".json" (toLowerCase (name f))
  end.

(** What a loader does when it is called. *)
Definition load_begin (a : Attempt) : M unit :=
  match a with
  | LocalBuild _ _ | FromLink _ _ =>
      setLoadingLink true ;;
      setErrorMessage "" ;;
      setSuccessMessage ""
  | FromFile file =>
      try_catch
        (setErrorMessage "" ;;
         setSuccessMessage "" ;;
         match file with
         | None => throw "No file provided"
         | Some f =>
             throw_if (negb (endsWith ".json" (toLowerCase (name f))))
                      "Please drop a valid .json file"
         end)
        (fun err => setErrorMessage (or_else err "Invalid JSON file"))
  end.

(** What a loader does when what it awaits has arrived; nothing, when it
    ended before any [await]. *)
Definition load_resume (a : Attempt) : M unit :=
  match a with
  | LocalBuild buildId net =>
      try_catch_finally
        (res <- await_fetch net ;;
         throw_if (negb (fst res)) "Build not found" ;;
         json <- await_json (snd res) ;;
         throw_if (negb (validateBuild json)) "Invalid build format" ;;
         setBuild json ;;
         setSeconds 0 ;;
         setSuccessMessage "Build Loaded" ;;
         setRunning false ;;
         setSelectedBuild buildId)
        (fun err => setErrorMessage (or_else err "Build not available locally."))
        (setLoadingLink false)
  | FromLink url net =>
      try_catch_finally
        (res <- await_fetch net ;;
         throw_if (negb (fst res)) "Fetch failed" ;;
         json <- await_json (snd res) ;;
         throw_if (negb (validateBuild json)) "Invalid build format" ;;
         setBuild json ;;
         setSeconds 0 ;;
         setSuccessMessage "Build Loaded" ;;
         setRunning false ;;
         setLinkInput "")
        (fun err =>
           setErrorMessage (or_else err "Unable to load build JSON from link."))
        (setLoadingLink false)
  | FromFile None => ret tt
  | FromFile (Some f) =>
      if awaits a then
        try_catch
          (json <- await_json (content f) ;;
           throw_if (negb (validateBuild json)) "Invalid build JSON schema" ;;
           setBuild json ;;
           setSuccessMessage "Build Loaded" ;;
           setSeconds 0 ;;
           setRunning false)
          (fun err => setErrorMessage (or_else err "Invalid JSON file"))
      else ret tt
  end.

(** A link load of [two_steps] during which a registry load fails: the
    state on arrival of the link load's result. *)
Definition link_of_two_steps : Attempt :=
  FromLink "https://example.com/two.json" (Response true (Json two_steps)).

Definition registry_miss : Attempt :=
  LocalBuild "missing" (Response false (BadJson "")).

Definition arrival_after_registry_miss : State :=
  exec (load registry_miss) (exec (load_begin link_of_two_steps) (initial None)).

(** Unfolds the two parts of a loader down to their state updates. *)
Ltac run_parts :=
  unfold load, load_begin, load_resume, awaits; run_handler.

(** An event that is neither a reset nor a load. *)
Definition keeps_clock (ev : Event) : bool :=
  match ev with
  | ResetClock | LoadDoc _ => false
  | _ => true
  end.

Definition is_tick (ev : Event) : bool :=
  match ev with
  | Tick => true
  | _ => false
  end.

Definition is_toggle (ev : Event) : bool :=
  match ev with
  | ToggleMute => true
  | _ => false
  end.

(** *** The loaders of the first version of the component

    [BuildAdvisor.jsx] as the application imports it: the loaders test only
    that [json.steps] is truthy, and report a failure with [alert]. *)
Module Legacy.

(** [!json.steps] throws on [null], and is the negation of ToBoolean of the
    property otherwise. *)
Definition check_steps_present (json : value) : M unit :=
  match json with
  | JNull => throw "Cannot read properties of null"
  | _ =>
      match get json "steps" with
      | Some v => throw_if (negb (truthy v)) "Invalid build format"
      | None => throw "Invalid build format"
      end
  end.

(** A [try] block with a [catch] that calls [alert(text)] and a [finally]
    block: the state left, and the alert shown if any. *)
Definition try_alert_finally (body : M unit) (text : string) (final : M unit)
  : State -> State * option string :=
  fun st =>
    match body st with
    | (st', inl _) => (exec final st', None)
    | (st', inr _) => (exec final st', Some text)
    end.

Definition loadLocalBuild (buildId : string) (net : Fetched)
  : State -> State * option string :=
  try_alert_finally
    (setLoadingLink true ;;
     res <- await_fetch net ;;
     throw_if (negb (fst res)) "Build not found" ;;
     json <- await_json (snd res) ;;
     check_steps_present json ;;
     setBuild json ;;
     setSeconds 0 ;;
     setRunning false ;;
     setSelectedBuild buildId)
    "Build not available locally."
    (setLoadingLink false).

Definition loadFromLink (url : string) (net : Fetched)
  : State -> State * option string :=
  try_alert_finally
    (setLoadingLink true ;;
     res <- await_fetch net ;;
     json <- await_json (snd res) ;;
     check_steps_present json ;;
     setBuild json ;;
     setSeconds 0 ;;
     setRunning false ;;
     setLinkInput "")
    "Unable to load build JSON from link."
    (setLoadingLink false).

End Legacy.

(** * Properties *)

(** ** The model on concrete inputs *)

Example parse_samples :
  map parseTimeSafe
    ["0:015"; "1:02:03"; " 1 :0x10"; "1.5:3e1"; "-1:30"; ":";
     "Infinity:-Infinity"; "1:.5"; "1:5."; "1:."; "1:1e"; "0:-0";
     "0XfF:0b11"; "1e-1:+Infinity"; "0o17:1 2"]
  = [of_Z 15; of_Z 62; of_Z 76; of_Z 120; of_Z (-30); of_Z 0;
     NaN; Fin (121 # 2); of_Z 65; of_Z 60; of_Z 60; of_Z 0;
     of_Z 15303; PInf; of_Z 900].
Proof. vm_compute. reflexivity. Qed.

Example format_samples :
  map (fun n => formatTime (of_N n)) [0; 5; 59; 60; 65; 600; 3599; 3600]%N
  = ["0:00"; "0:05"; "0:59"; "1:00"; "1:05"; "10:00"; "59:59"; "60:00"].
Proof. vm_compute. reflexivity. Qed.

(** [Number] and [String] on values that binary64 does not hold exactly, or
    not at all. *)
Example number_samples :
  map Str.Number ["0.1"; "9007199254740993"; "1e400"; "-1e400"; "1e-400";
                  "0x20000000000001"]
  = [Fin (3602879701896397 # 36028797018963968); of_Z 9007199254740992;
     PInf; NInf; of_Z 0; of_Z 9007199254740992] /\
  (Str.Number "0.1" + Str.Number "0.2")%num
  = Fin (1351079888211149 # 4503599627370496) /\
  map Str.of_number
    [(Str.Number "0.1" + Str.Number "0.2")%num; Str.Number "1e21";
     Str.Number "123456789012345678901"; Str.Number "1e-7";
     Str.Number "-0.000001"; Str.Number "5e-324"]
  = ["0.30000000000000004"; "1e+21"; "123456789012345680000"; "1e-7";
     "-0.000001"; "5e-324"].
Proof. vm_compute. repeat split; reflexivity. Qed.

Example default_build_valid : validateBuild DEFAULT_BUILD = true.
Proof. vm_compute. reflexivity. Qed.

Example split_samples :
  map (Str.split ":") [""; ":"; "a:"; "a:b:c"; "abc"]
  = [[""]; [""; ""]; ["a"; ""]; ["a"; "b"; "c"]; ["abc"]].
Proof. vm_compute. reflexivity. Qed.

(** The schedule of the specification's example, with times 0:18, 0:38 and
    1:05: which steps are shown, and whether each is done or active, at the
    elapsed values 0, 20 and 9999. *)
Example sample_schedule :
  let steps := [mkStep "0:18" (of_Z 14) "Supply Depot" [];
                mkStep "0:38" (of_Z 16) "Barracks" [];
                mkStep "1:05" (of_Z 19) "Refinery" []] in
  let view s :=
    map (fun e => (time (step e), is_done s e, is_active s e))
        (snd (visibleSteps (enrichedSteps steps) s false true)) in
  view (of_Z 0) = [("0:18", false, false); ("0:38", false, false);
                   ("1:05", false, false)] /\
  view (of_Z 20) = [("0:18", false, true); ("0:38", false, false);
                    ("1:05", false, false)] /\
  view (of_Z 38) = [("0:18", true, false); ("0:38", false, true);
                    ("1:05", false, false)] /\
  view (of_Z 9999) = [("0:18", true, false); ("0:38", true, false);
                      ("1:05", false, true)].
Proof. vm_compute. repeat split; reflexivity. Qed.

(** ** Numbers *)

Lemma Qred_inject_Z (z : Z) : Qred (inject_Z z) = inject_Z z.
Proof.
  unfold Qred, inject_Z.
  pose proof (Z.ggcd_gcd z 1) as Hg.
  pose proof (Z.ggcd_correct_divisors z 1) as Hd.
  destruct (Z.ggcd z 1) as [g [a b]]. simpl in *.
  rewrite Z.gcd_1_r in Hg. subst g.
  destruct Hd as [Ha Hb].
  rewrite Z.mul_1_l in Ha, Hb. subst a b. reflexivity.
Qed.

Lemma Qred_eq_int (q : Q) (z : Z) : (q == inject_Z z)%Q -> Qred q = inject_Z z.
Proof. intros H. rewrite (Qred_complete _ _ H). apply Qred_inject_Z. Qed.

(** ** Rounding to binary64 *)

Lemma pow_pos_pos (p : positive) : Zpos (Pos.pow 2 p) = Z.pow_pos 2 p.
Proof. rewrite Pos2Z.inj_pow. reflexivity. Qed.

Lemma pow_pos_gt0 (p : positive) : (0 < Z.pow_pos 2 p)%Z.
Proof. rewrite <- pow_pos_pos. reflexivity. Qed.

Lemma round_half_even_int (t : Q) (k : Z) :
  (t == inject_Z k)%Q -> round_half_even t = k.
Proof.
  intros H. unfold round_half_even.
  assert (Hf : Qfloor t = k) by (rewrite H; apply Qfloor_Z).
  rewrite Hf.
  assert (Hlt : (t - inject_Z k < 1 # 2)%Q).
  { rewrite H. unfold Qminus. rewrite Qplus_opp_r. reflexivity. }
  rewrite (proj1 (Qlt_alt _ _) Hlt). reflexivity.
Qed.

(** Rounding to the nearest integer does not go below an integer that lies
    below the value, and does not reach one that lies more than a half above
    it. *)
Lemma round_half_even_lower (t : Q) (j : Z) :
  (inject_Z j <= t)%Q -> (j <= round_half_even t)%Z.
Proof.
  intros H. unfold round_half_even.
  assert (Hf : (j <= Qfloor t)%Z).
  { rewrite <- (Qfloor_Z j). apply Qfloor_resp_le. exact H. }
  destruct (Qcompare _ _); [destruct (Z.even _)|..]; lia.
Qed.

Lemma round_half_even_upper (t : Q) (j : Z) :
  (t < inject_Z j - (1 # 2))%Q -> (round_half_even t < j)%Z.
Proof.
  intros H. unfold round_half_even.
  pose proof (Qfloor_le t) as Hfl.
  assert (Hlow : (Qfloor t < j)%Z).
  { apply Z.nle_gt. intros Hc.
    apply (Qlt_not_le _ _ H).
    apply Qle_trans with (inject_Z j).
    - apply (Qplus_le_l _ _ (1 # 2)).
      setoid_replace (inject_Z j - (1 # 2) + (1 # 2))%Q with (inject_Z j + 0)%Q
        by ring.
      apply Qplus_le_r. discriminate.
    - apply Qle_trans with (inject_Z (Qfloor t)); [|exact Hfl].
      rewrite <- Zle_Qle. exact Hc. }
  assert (Hhigh : Qcompare (t - inject_Z (Qfloor t)) (1 # 2) <> Lt ->
                  (Qfloor t + 1 < j)%Z).
  { intros Hc. apply Z.nle_gt. intros Hge.
    assert (Hhalf : (1 # 2 <= t - inject_Z (Qfloor t))%Q).
    { apply Qnot_lt_le. intros Hl. apply Qlt_alt in Hl. contradiction. }
    assert (Hj : (inject_Z j <= inject_Z (Qfloor t) + 1)%Q).
    { change 1%Q with (inject_Z 1).
      rewrite <- (inject_Z_plus (Qfloor t) 1). rewrite <- Zle_Qle. exact Hge. }
    apply (Qlt_not_le _ _ H).
    apply Qle_trans with (inject_Z (Qfloor t) + 1 - (1 # 2))%Q.
    - apply Qplus_le_l. exact Hj.
    - apply (Qplus_le_l _ _ (- inject_Z (Qfloor t))).
      setoid_replace (inject_Z (Qfloor t) + 1 - (1 # 2) + - inject_Z (Qfloor t))%Q
        with (1 # 2)%Q by ring.
      exact Hhalf. }
  destruct (Qcompare _ _) eqn:C.
  - destruct (Z.even _); [exact Hlow | apply Hhigh; discriminate].
  - exact Hlow.
  - apply Hhigh. discriminate.
Qed.

Lemma pow2_pos (s : Z) : (0 <= s)%Z -> (0 < 2 ^ s)%Z.
Proof. intros H. apply Z.pow_pos_nonneg; lia. Qed.

Lemma scale2_up (q : Q) (s : Z) :
  (0 <= s)%Z -> (scale2 q s == q * inject_Z (2 ^ s))%Q.
Proof.
  intros Hs. destruct s as [|p|p]; [| |lia].
  - change (2 ^ 0)%Z with 1%Z. unfold scale2. ring.
  - unfold scale2. change (2 ^ Z.pos p)%Z with (Z.pow_pos 2 p).
    unfold Qeq, Qmult, inject_Z. simpl. rewrite Pos.mul_1_r. reflexivity.
Qed.

Lemma scale2_down (q : Q) (s : Z) :
  (0 <= s)%Z -> (scale2 q (- s) * inject_Z (2 ^ s) == q)%Q.
Proof.
  intros Hs. destruct s as [|p|p]; [| |lia].
  - change (2 ^ 0)%Z with 1%Z. unfold scale2. simpl Z.opp. cbv iota. ring.
  - change (2 ^ Z.pos p)%Z with (Z.pow_pos 2 p). simpl Z.opp. unfold scale2.
    unfold Qeq, Qmult, inject_Z. simpl.
    rewrite Pos.mul_1_r, Pos2Z.inj_mul, pow_pos_pos. ring.
Qed.

Lemma exponent_range (q : Q) :
  let e0 := (Z.log2 (Qnum q) - Z.log2 (Zpos (Qden q)))%Z in
  (e0 - 1 <= exponent q <= e0)%Z.
Proof. unfold exponent. destruct (Qle_bool _ _); simpl; lia. Qed.

Lemma inject_pow2_pos (s : Z) : (0 <= s)%Z -> (0 < inject_Z (2 ^ s))%Q.
Proof.
  intros H. change 0%Q with (inject_Z 0). rewrite <- Zlt_Qlt.
  apply pow2_pos. exact H.
Qed.

(** The floor of a rounded value, when the value lies between an integer [K]
    and half a unit of the last place below [K + 1]. *)
Lemma round_positive_floor (q : Q) (K : Z) :
  let s := (52 - Z.max (exponent q) (-1022))%Z in
  (0 <= s)%Z -> (0 <= K < 2 ^ 53)%Z ->
  (inject_Z (K * 2 ^ s) <= scale2 q s)%Q ->
  (scale2 q s < inject_Z ((K + 1) * 2 ^ s) - (1 # 2))%Q ->
  floor (round_positive q) = Fin (inject_Z K).
Proof.
  intros s Hs HK Hlo Hhi. unfold round_positive.
  fold s. set (m := round_half_even (scale2 q s)).
  replace (Z.max (exponent q) (-1022) - 52)%Z with (- s)%Z by (unfold s; lia).
  set (r := scale2 (inject_Z m) (- s)).
  assert (Hm1 : (K * 2 ^ s <= m)%Z) by (apply round_half_even_lower; exact Hlo).
  assert (Hm2 : (m < (K + 1) * 2 ^ s)%Z) by (apply round_half_even_upper; exact Hhi).
  pose proof (scale2_down (inject_Z m) s Hs) as Hr. fold r in Hr.
  pose proof (inject_pow2_pos s Hs) as HP.
  assert (Hr1 : (inject_Z K <= r)%Q).
  { apply (Qmult_le_r _ _ _ HP). rewrite Hr, <- inject_Z_mult, <- Zle_Qle.
    exact Hm1. }
  assert (Hr2 : (r < inject_Z (K + 1))%Q).
  { apply (Qmult_lt_r _ _ _ HP). rewrite Hr, <- inject_Z_mult, <- Zlt_Qlt.
    exact Hm2. }
  assert (Hover : Qle_bool (inject_Z (2 ^ 1024)) r = false).
  { destruct (Qle_bool (inject_Z (2 ^ 1024)) r) eqn:E; [|reflexivity].
    exfalso. apply Qle_bool_imp_le in E.
    apply (Qlt_not_le _ _ Hr2). eapply Qle_trans; [|exact E].
    rewrite <- Zle_Qle.
    assert (2 ^ 53 <= 2 ^ 1024)%Z by (apply Z.pow_le_mono_r; lia). lia. }
  rewrite Hover. unfold floor. f_equal. f_equal.
  rewrite (Qfloor_comp _ _ (Qred_correct r)).
  apply Z.le_antisymm.
  - apply Z.lt_succ_r. rewrite Zlt_Qlt.
    eapply Qle_lt_trans; [apply Qfloor_le|]. exact Hr2.
  - rewrite <- (Qfloor_Z K). apply Qfloor_resp_le. exact Hr1.
Qed.

(** An integer of magnitude at most 2^53 - 1 is a binary64 value. *)
Lemma round_positive_int (p : positive) :
  (Zpos p <= MAX_SAFE_INTEGER)%Z ->
  round_positive (inject_Z (Zpos p)) = Fin (inject_Z (Zpos p)).
Proof.
  unfold MAX_SAFE_INTEGER. intros Hp.
  assert (HL : (0 <= Z.log2 (Zpos p) <= 52)%Z).
  { split; [apply Z.log2_nonneg|].
    assert (Z.log2 (Zpos p) < 53)%Z by (apply Z.log2_lt_pow2; lia). lia. }
  pose proof (exponent_range (inject_Z (Zpos p))) as He.
  cbv zeta in He. cbn [Qnum Qden inject_Z] in He.
  change (Z.log2 1) with 0%Z in He.
  set (e := exponent (inject_Z (Zpos p))) in *.
  unfold round_positive. fold e.
  replace (Z.max e (-1022)) with e by lia.
  set (s := (52 - e)%Z).
  assert (Hs : (0 <= s)%Z) by (unfold s; lia).
  assert (Hm : round_half_even (scale2 (inject_Z (Zpos p)) s) = (Zpos p * 2 ^ s)%Z).
  { apply round_half_even_int. rewrite (scale2_up _ s Hs), inject_Z_mult.
    reflexivity. }
  rewrite Hm.
  replace (e - 52)%Z with (- s)%Z by (unfold s; lia).
  set (r := scale2 (inject_Z (Zpos p * 2 ^ s)) (- s)).
  pose proof (scale2_down (inject_Z (Zpos p * 2 ^ s)) s Hs) as Hr. fold r in Hr.
  pose proof (inject_pow2_pos s Hs) as HP.
  assert (Hreq : (r == inject_Z (Zpos p))%Q).
  { apply (Qmult_inj_r _ _ (inject_Z (2 ^ s))).
    - intros H0. rewrite H0 in HP. apply (Qlt_irrefl _ HP).
    - rewrite Hr, inject_Z_mult. reflexivity. }
  assert (Hover : Qle_bool (inject_Z (2 ^ 1024)) r = false).
  { destruct (Qle_bool (inject_Z (2 ^ 1024)) r) eqn:E; [|reflexivity].
    exfalso. apply Qle_bool_imp_le in E. rewrite Hreq in E.
    rewrite <- Zle_Qle in E.
    assert (2 ^ 53 <= 2 ^ 1024)%Z by (apply Z.pow_le_mono_r; lia). lia. }
  rewrite Hover. f_equal. apply Qred_eq_int. exact Hreq.
Qed.

Lemma of_Q_int (z : Z) :
  (- MAX_SAFE_INTEGER <= z <= MAX_SAFE_INTEGER)%Z ->
  of_Q (inject_Z z) = of_Z z.
Proof.
  intros H. destruct z as [|p|p]; unfold of_Q; simpl Qnum; cbv iota.
  - reflexivity.
  - apply round_positive_int. lia.
  - change (- inject_Z (Z.neg p))%Q with (inject_Z (Zpos p)).
    rewrite round_positive_int by lia.
    unfold neg, of_Z. f_equal.
    change (- inject_Z (Zpos p))%Q with (inject_Z (Zneg p)).
    apply Qred_inject_Z.
Qed.

Lemma mul_of_Z (a b : Z) :
  (- MAX_SAFE_INTEGER <= a * b <= MAX_SAFE_INTEGER)%Z ->
  mul (of_Z a) (of_Z b) = of_Z (a * b).
Proof.
  intros H. unfold of_Z at 1 2. cbn [mul].
  change (inject_Z a * inject_Z b)%Q with (inject_Z (a * b)).
  apply of_Q_int. exact H.
Qed.

Lemma add_of_Z (a b : Z) :
  (- MAX_SAFE_INTEGER <= a + b <= MAX_SAFE_INTEGER)%Z ->
  add (of_Z a) (of_Z b) = of_Z (a + b).
Proof.
  intros H. unfold of_Z at 1 2. cbn [add].
  replace (inject_Z a + inject_Z b)%Q with (inject_Z (a + b)).
  - apply of_Q_int. exact H.
  - unfold Qplus, inject_Z. simpl. rewrite !Z.mul_1_r. reflexivity.
Qed.

(** Up to 2^53 - 1 seconds, the minutes that [formatTime] computes are the
    integer quotient by 60: the quotient in binary64 lies less than a
    sixtieth below the next integer, and its rounding error is smaller. *)
Lemma floor_div_60 (n : N) :
  (Z.of_N n <= MAX_SAFE_INTEGER)%Z ->
  floor (div (of_N n) (of_Z 60)) = of_N (n / 60).
Proof.
  unfold MAX_SAFE_INTEGER. intros Hn. destruct n as [|p]; [reflexivity|].
  unfold of_N, of_Z. cbn [div Z.of_N]. simpl Qnum. cbv iota.
  set (x := Zpos p) in *.
  set (q := (inject_Z x / inject_Z 60)%Q).
  assert (Hq : q = ((x * 1) # 60)%Q) by reflexivity.
  change (of_Q q) with (round_positive q).
  set (K := (x / 60)%Z).
  assert (HK : (60 * K <= x < 60 * K + 60)%Z).
  { unfold K. pose proof (Z.div_mod x 60). pose proof (Z.mod_pos_bound x 60).
    lia. }
  replace (Z.of_N (N.pos p / 60)) with K
    by (unfold K, x; rewrite N2Z.inj_div; reflexivity).
  pose proof (exponent_range q) as He.
  cbv zeta in He. change (Qnum q) with (x * 1)%Z in He.
  change (Z.log2 (Zpos (Qden q))) with 5%Z in He. rewrite Z.mul_1_r in He.
  assert (HL : (0 <= Z.log2 x <= 52)%Z).
  { split; [apply Z.log2_nonneg|].
    assert (Z.log2 x < 53)%Z by (apply Z.log2_lt_pow2; unfold x; lia). lia. }
  set (s := (52 - Z.max (exponent q) (-1022))%Z).
  assert (Hs : (5 <= s)%Z) by (unfold s; lia).
  assert (HP : (32 <= 2 ^ s)%Z).
  { change 32%Z with (2 ^ 5)%Z. apply Z.pow_le_mono_r; lia. }
  assert (Ht : (scale2 q s == inject_Z (x * 2 ^ s) / inject_Z 60)%Q).
  { rewrite scale2_up by lia. unfold q. rewrite inject_Z_mult.
    field. }
  apply round_positive_floor; fold s.
  - lia.
  - lia.
  - rewrite Ht. apply Qle_shift_div_l; [reflexivity|].
    rewrite <- inject_Z_mult, <- Zle_Qle. nia.
  - rewrite Ht. apply Qlt_shift_div_r; [reflexivity|].
    set (A := ((K + 1) * 2 ^ s)%Z). set (B := (x * 2 ^ s)%Z).
    assert (HAB : (B < A * 60 - 30)%Z) by (unfold A, B; nia).
    clearbody A B.
    unfold Qlt, Qminus, Qplus, Qmult, Qopp, inject_Z. simpl. lia.
Qed.

(** The seconds that [formatTime] computes are the remainder by 60. *)
Lemma rem_60 (n : N) : rem (of_N n) (of_Z 60) = of_N (n mod 60).
Proof.
  unfold of_N, of_Z. cbn [rem]. simpl Qnum. cbv iota. f_equal.
  apply Qred_eq_int.
  set (x := Z.of_N n).
  assert (Hx : (0 <= x)%Z) by (unfold x; lia).
  assert (Htr : Qtrunc (inject_Z x / inject_Z 60) = (x / 60)%Z).
  { unfold Qtrunc.
    assert (Hge : Qle_bool 0 (inject_Z x / inject_Z 60) = true).
    { apply Qle_bool_iff. apply Qle_shift_div_l; [reflexivity|].
      rewrite Qmult_0_l. change 0%Q with (inject_Z 0). rewrite <- Zle_Qle.
      exact Hx. }
    rewrite Hge. unfold Qfloor, Qdiv, Qmult, Qinv, inject_Z. simpl.
    rewrite Z.mul_1_r. reflexivity. }
  rewrite Htr, N2Z.inj_mod. fold x.
  rewrite <- inject_Z_mult. unfold Qminus. rewrite <- inject_Z_opp, <- inject_Z_plus.
  rewrite Z.mod_eq by discriminate. reflexivity.
Qed.

Lemma or_zero_of_Z (z : Z) : or_zero (of_Z z) = of_Z z.
Proof.
  unfold or_zero, to_bool, of_Z.
  destruct (Qeq_bool (inject_Z z) 0) eqn:E; simpl; [|reflexivity].
  apply Qeq_bool_eq in E. unfold zero, of_Z. f_equal.
  unfold Qeq in E. simpl in E. rewrite Z.mul_1_r in E. subst z. reflexivity.
Qed.

(** [a < b] and [a >= b] never hold together. *)
Lemma ltb_not_geb (a b : number) : ltb a b = true -> geb a b = false.
Proof.
  destruct a, b; simpl; try discriminate; try reflexivity.
  destruct (Qle_bool q0 q); [discriminate | reflexivity].
Qed.

Lemma geb_trans (a b c : number) :
  geb a b = true -> geb b c = true -> geb a c = true.
Proof.
  destruct a, b, c; simpl; try discriminate; try reflexivity.
  rewrite !Qle_bool_iff. intros H1 H2. eapply Qle_trans; eassumption.
Qed.

Lemma geb_antisym (a b : number) :
  geb a b = true -> geb b a = true -> eqb a b = true.
Proof.
  destruct a, b; simpl; try discriminate; try reflexivity.
  rewrite !Qle_bool_iff, Qeq_bool_iff. intros H1 H2. apply Qle_antisym; assumption.
Qed.

Lemma eqb_geb (a b : number) : eqb a b = true -> geb a b = true.
Proof.
  destruct a, b; simpl; try discriminate; try reflexivity.
  rewrite Qle_bool_iff, Qeq_bool_iff. intros H. rewrite H. apply Qle_refl.
Qed.

Lemma eqb_sym (a b : number) : eqb a b = eqb b a.
Proof.
  destruct a, b; simpl; try reflexivity.
  destruct (Qeq_bool q q0) eqn:E1, (Qeq_bool q0 q) eqn:E2; try reflexivity.
  - apply Qeq_bool_iff in E1. symmetry in E1. apply Qeq_bool_iff in E1. congruence.
  - apply Qeq_bool_iff in E2. symmetry in E2. apply Qeq_bool_iff in E2. congruence.
Qed.

(** ** Strings *)

Lemma includes_app_sep (c : ascii) (a r : string) :
  Str.includes c (a ++ String c r)%string = true.
Proof.
  induction a as [|x a IH]; simpl.
  - rewrite Ascii.eqb_refl. reflexivity.
  - destruct (Ascii.eqb x c); [reflexivity | exact IH].
Qed.

Lemma split_pieces_none (sep : ascii) (s : string) :
  Str.includes sep s = false -> Str.split_pieces sep s = (s, []).
Proof.
  induction s as [|x s IH]; simpl; [reflexivity|].
  destruct (Ascii.eqb x sep); [discriminate|].
  intros H. rewrite (IH H). reflexivity.
Qed.

Lemma split_pieces_app (sep : ascii) (a r : string) :
  Str.includes sep a = false ->
  Str.split_pieces sep (a ++ String sep r)%string = (a, Str.split sep r).
Proof.
  unfold Str.split.
  induction a as [|x a IH]; simpl.
  - rewrite Ascii.eqb_refl. destruct (Str.split_pieces sep r). reflexivity.
  - destruct (Ascii.eqb x sep); [discriminate|].
    intros H. rewrite (IH H). destruct (Str.split_pieces sep r). reflexivity.
Qed.

Lemma split_none (sep : ascii) (s : string) :
  Str.includes sep s = false -> Str.split sep s = [s].
Proof.
  intros H. unfold Str.split. rewrite (split_pieces_none _ _ H). reflexivity.
Qed.

Lemma split_app (sep : ascii) (a r : string) :
  Str.includes sep a = false ->
  Str.split sep (a ++ String sep r)%string = a :: Str.split sep r.
Proof.
  intros H. unfold Str.split at 1. rewrite (split_pieces_app _ _ _ H).
  reflexivity.
Qed.

Lemma app_sep_nonempty (c : ascii) (a r : string) :
  ((a ++ String c r) =? "")%string = false.
Proof. destruct a; reflexivity. Qed.

Lemma cut_once_none (sep : ascii) (s : string) :
  Str.includes sep s = false -> cut_once sep s = None.
Proof.
  induction s as [|x s IH]; simpl; [reflexivity|].
  destruct (Ascii.eqb x sep); [discriminate|].
  intros H. rewrite (IH H). reflexivity.
Qed.

Lemma cut_once_app (sep : ascii) (a r : string) :
  Str.includes sep a = false ->
  cut_once sep (a ++ String sep r)%string = Some (a, r).
Proof.
  induction a as [|x a IH]; simpl.
  - rewrite Ascii.eqb_refl. reflexivity.
  - destruct (Ascii.eqb x sep); [discriminate|].
    intros H. rewrite (IH H). reflexivity.
Qed.

(** [parseTimeSafe] on a text with a separator: the first two pieces. *)
Lemma parseTimeSafe_pieces (m r : string) :
  Str.includes ":" m = false ->
  parseTimeSafe (m ++ String ":" r)%string =
  match Str.split ":" r with
  | s :: _ => (coerce m * of_Z 60 + coerce s)%num
  | [] => NaN
  end.
Proof.
  intros H. unfold parseTimeSafe.
  rewrite app_sep_nonempty, includes_app_sep. simpl.
  rewrite (split_app _ _ _ H). simpl.
  destruct (Str.split ":" r); reflexivity.
Qed.

Lemma append_assoc (a b c : string) : ((a ++ b) ++ c = a ++ (b ++ c))%string.
Proof. induction a as [|x a IH]; simpl; [reflexivity | rewrite IH; reflexivity]. Qed.

(** ** Decimal digits *)

Lemma uint_chars_dec (u : Decimal.uint) : Forall is_dec (uint_chars u).
Proof.
  unfold uint_chars.
  induction u; simpl; constructor; try assumption;
    eexists; vm_compute; reflexivity.
Qed.

Lemma uint_chars_nonempty (u : Decimal.uint) :
  u <> Decimal.Nil -> uint_chars u <> [].
Proof. destruct u; intros H; try congruence; discriminate. Qed.

Lemma span_uint_chars (u : Decimal.uint) :
  Str.span_digits (uint_chars u) = (uint_digits u, []).
Proof.
  unfold uint_chars.
  induction u; simpl; [reflexivity|..];
    change (Str.digit _) with (Some 0%N) || change (Str.digit _) with (Some 1%N)
    || change (Str.digit _) with (Some 2%N) || change (Str.digit _) with (Some 3%N)
    || change (Str.digit _) with (Some 4%N) || change (Str.digit _) with (Some 5%N)
    || change (Str.digit _) with (Some 6%N) || change (Str.digit _) with (Some 7%N)
    || change (Str.digit _) with (Some 8%N) || change (Str.digit _) with (Some 9%N);
    cbv iota beta; rewrite IHu; reflexivity.
Qed.

Lemma is_dec_code (c : ascii) :
  is_dec c -> (48 <= N_of_ascii c <= 57)%N.
Proof.
  intros [d H]. unfold Str.digit, Str.digit_in in H.
  destruct ((48 <=? N_of_ascii c)%N && (N_of_ascii c <=? 57)%N) eqn:E.
  - apply andb_true_iff in E. destruct E as [E1 E2].
    apply N.leb_le in E1, E2. lia.
  - destruct ((97 <=? N_of_ascii c)%N && (N_of_ascii c <=? 102)%N) eqn:E2.
    + apply andb_true_iff in E2. destruct E2 as [E3 E4].
      apply N.leb_le in E3, E4.
      destruct (N_of_ascii c - 87 <? 10)%N eqn:E5; [|discriminate].
      apply N.ltb_lt in E5. lia.
    + destruct ((65 <=? N_of_ascii c)%N && (N_of_ascii c <=? 70)%N) eqn:E3;
        [|discriminate].
      apply andb_true_iff in E3. destruct E3 as [E4 E5].
      apply N.leb_le in E4, E5.
      destruct (N_of_ascii c - 55 <? 10)%N eqn:E6; [|discriminate].
      apply N.ltb_lt in E6. lia.
Qed.

(** A decimal digit is none of the other characters the grammar tests. *)
Lemma is_dec_neq (c x : ascii) :
  is_dec c -> (N_of_ascii x < 48 \/ 57 < N_of_ascii x)%N ->
  Ascii.eqb c x = false.
Proof.
  intros Hc Hx. apply is_dec_code in Hc.
  destruct (Ascii.eqb c x) eqn:E; [|reflexivity].
  apply Ascii.eqb_eq in E. subst x. lia.
Qed.

Lemma is_dec_not_ws (c : ascii) : is_dec c -> Str.is_ws c = false.
Proof.
  intros Hc. apply is_dec_code in Hc. unfold Str.is_ws.
  repeat match goal with
  | |- context [(?a <=? ?b)%N] => destruct (N.leb_spec a b)
  | |- context [(?a =? ?b)%N] => destruct (N.eqb_spec a b)
  end; simpl; try reflexivity; lia.
Qed.

Lemma trim_end_dec (l : list ascii) : Forall is_dec l -> Str.trim_end l = l.
Proof.
  induction 1 as [|c l Hc Hl IH]; simpl; [reflexivity|].
  rewrite IH. rewrite (is_dec_not_ws _ Hc). destruct l; reflexivity.
Qed.

Lemma trim_dec (l : list ascii) : Forall is_dec l -> Str.trim l = l.
Proof.
  intros H. unfold Str.trim.
  replace (Str.trim_start l) with l; [apply trim_end_dec; exact H|].
  destruct H as [|c l Hc Hl]; simpl; [reflexivity|].
  rewrite (is_dec_not_ws _ Hc). reflexivity.
Qed.

Lemma pos_of_uint_acc_digits (u : Decimal.uint) (acc : positive) :
  N.pos (Pos.of_uint_acc u acc) =
  fold_left (fun a d => (a * 10 + d)%N) (uint_digits u) (N.pos acc).
Proof.
  revert acc. induction u; intros acc;
    cbn [Pos.of_uint_acc uint_digits fold_left]; [reflexivity|..];
    rewrite IHu; f_equal; lia.
Qed.

Lemma digits_value_uint (u : Decimal.uint) :
  Str.digits_value 10 (uint_digits u) = N.of_uint u.
Proof.
  unfold Str.digits_value, N.of_uint.
  induction u; simpl; [reflexivity | exact IHu |..];
    rewrite pos_of_uint_acc_digits; reflexivity.
Qed.

Lemma uint_digits_nonempty (u : Decimal.uint) :
  u <> Decimal.Nil -> uint_digits u <> [].
Proof. destruct u; intros H; try congruence; discriminate. Qed.

Lemma unsigned_decimal_uint (u : Decimal.uint) :
  u <> Decimal.Nil ->
  Str.unsigned_decimal (uint_chars u) =
  Some (inject_Z (Z.of_N (N.of_uint u)) * Str.pow10 0)%Q.
Proof.
  intros Hu. unfold Str.unsigned_decimal.
  rewrite span_uint_chars. rewrite List.app_nil_r.
  pose proof (uint_digits_nonempty u Hu) as Hd.
  rewrite <- digits_value_uint.
  destruct (uint_digits u) as [|d ds]; [congruence|].
  reflexivity.
Qed.

Lemma decimal_literal_unsigned (c : ascii) (l : list ascii) :
  Ascii.eqb c "+" = false -> Ascii.eqb c "-" = false ->
  Str.decimal_literal (c :: l) = Str.unsigned_literal (c :: l).
Proof.
  destruct c as [[] [] [] [] [] [] [] []]; intros H1 H2;
    try reflexivity; discriminate.
Qed.

Lemma numeric_literal_decimal (c x : ascii) (l : list ascii) :
  (forall y, In y (list_ascii_of_string "xXoObB") -> Ascii.eqb x y = false) ->
  Str.numeric_literal (c :: x :: l) = Str.decimal_literal (c :: x :: l).
Proof.
  intros H. unfold Str.numeric_literal.
  rewrite !H by (simpl; tauto). simpl.
  destruct c as [[] [] [] [] [] [] [] []]; reflexivity.
Qed.

Lemma numeric_literal_uint (u : Decimal.uint) :
  u <> Decimal.Nil ->
  (Z.of_N (N.of_uint u) <= MAX_SAFE_INTEGER)%Z ->
  Str.numeric_literal (uint_chars u) = Some (of_N (N.of_uint u)).
Proof.
  intros Hu Hsafe.
  pose proof (uint_chars_dec u) as Hd.
  pose proof (unsigned_decimal_uint u Hu) as Hv.
  pose proof (uint_chars_nonempty u Hu) as Hne.
  assert (Hun : Str.unsigned_literal (uint_chars u) = Some (of_N (N.of_uint u))).
  { unfold Str.unsigned_literal.
    destruct (list_eq_dec ascii_dec (uint_chars u) Str.infinity_word) as [Hi|Hi].
    - exfalso. rewrite Hi in Hd. inversion Hd as [|? ? Hc Hl]; subst.
      apply is_dec_code in Hc. simpl in Hc. lia.
    - rewrite Hv. cbn [option_map]. f_equal.
      replace (inject_Z (Z.of_N (N.of_uint u)) * Str.pow10 0)%Q
        with (inject_Z (Z.of_N (N.of_uint u)))
        by (unfold Qmult, inject_Z; simpl; rewrite Z.mul_1_r; reflexivity).
      apply of_Q_int. unfold MAX_SAFE_INTEGER in *. lia. }
  destruct (uint_chars u) as [|c l] eqn:E; [congruence|].
  inversion Hd as [|? ? Hc Hl]; subst.
  assert (Hdec : Str.decimal_literal (c :: l) = Some (of_N (N.of_uint u))).
  { rewrite decimal_literal_unsigned; [exact Hun|..];
      apply is_dec_neq; try exact Hc; left; simpl; lia. }
  destruct l as [|x r]; [destruct c as [[] [] [] [] [] [] [] []]; exact Hdec|].
  inversion Hl as [|? ? Hx Hr]; subst.
  rewrite numeric_literal_decimal; [exact Hdec|].
  intros y Hy. apply is_dec_neq; [exact Hx|]. right.
  simpl in Hy. repeat (destruct Hy as [<-|Hy]; [simpl; lia|]). contradiction.
Qed.

(** [Number] reads a decimal numeral of value up to 2^53 - 1 back as its
    value. *)
Lemma Number_uint (u : Decimal.uint) :
  u <> Decimal.Nil ->
  (Z.of_N (N.of_uint u) <= MAX_SAFE_INTEGER)%Z ->
  Str.Number (NilEmpty.string_of_uint u) = of_N (N.of_uint u).
Proof.
  intros Hu Hsafe. unfold Str.Number.
  fold (uint_chars u). rewrite (trim_dec _ (uint_chars_dec u)).
  pose proof (numeric_literal_uint u Hu Hsafe) as Hn.
  destruct (uint_chars u) as [|c l] eqn:E;
    [exfalso; exact (uint_chars_nonempty u Hu E)|].
  rewrite Hn. reflexivity.
Qed.

(** ** Formatting *)

Lemma replicate_zeros (k : nat) (u : Decimal.uint) :
  (Str.replicate k "0" ++ NilEmpty.string_of_uint u)%string =
  NilEmpty.string_of_uint (zeros k u).
Proof. induction k as [|k IH]; simpl; [reflexivity | rewrite IH; reflexivity]. Qed.

Lemma of_uint_zeros (k : nat) (u : Decimal.uint) :
  N.of_uint (zeros k u) = N.of_uint u.
Proof. induction k as [|k IH]; simpl; [reflexivity | exact IH]. Qed.

Lemma zeros_nonempty (k : nat) (u : Decimal.uint) :
  u <> Decimal.Nil -> zeros k u <> Decimal.Nil.
Proof. destruct k; simpl; [tauto | discriminate]. Qed.

Lemma to_uint_nonempty (n : N) : N.to_uint n <> Decimal.Nil.
Proof.
  destruct n as [|p]; [discriminate|].
  apply DecimalPos.Unsigned.to_uint_nonnil.
Qed.

Lemma includes_digits (u : Decimal.uint) :
  Str.includes ":" (NilEmpty.string_of_uint u) = false.
Proof. induction u; simpl; [reflexivity|..]; exact IHu. Qed.

(** ** Decimal digits and magnitude *)

Lemma string_of_revapp (d acc : Decimal.uint) :
  NilEmpty.string_of_uint (Decimal.revapp d acc) =
  (NilEmpty.string_of_uint (Decimal.revapp d Decimal.Nil)
   ++ NilEmpty.string_of_uint acc)%string.
Proof.
  revert acc. induction d; intros acc; cbn [Decimal.revapp];
    [reflexivity|..];
    rewrite IHd; symmetry; rewrite IHd; rewrite append_assoc; reflexivity.
Qed.

(** Ten times a positive number has its digits and one more zero. *)
Lemma of_N_tenfold (m : N) :
  m <> 0%N -> Str.of_N (10 * m) = (Str.of_N m ++ "0")%string.
Proof.
  destruct m as [|p]; [congruence|]. intros _.
  unfold Str.of_N.
  change (N.to_uint (10 * N.pos p))
    with (Decimal.rev (DecimalPos.Unsigned.to_lu (10 * N.pos p))).
  rewrite DecimalPos.Unsigned.to_ldec_tenfold.
  change (N.to_uint (N.pos p))
    with (Decimal.rev (DecimalPos.Unsigned.to_lu (N.pos p))).
  unfold Decimal.rev. cbn [Decimal.revapp].
  apply string_of_revapp.
Qed.

Lemma of_N_pow10 (m : N) (e : nat) :
  m <> 0%N ->
  Str.of_N (m * 10 ^ N.of_nat e) = (Str.of_N m ++ Str.replicate e "0")%string.
Proof.
  intros Hm. induction e as [|e IH].
  - simpl. rewrite N.mul_1_r.
    induction (Str.of_N m) as [|c s IHs]; simpl; [reflexivity|].
    rewrite <- IHs. reflexivity.
  - rewrite Nat2N.inj_succ, N.pow_succ_r'.
    replace (m * (10 * 10 ^ N.of_nat e))%N with (10 * (m * 10 ^ N.of_nat e))%N
      by lia.
    rewrite of_N_tenfold.
    + rewrite IH. rewrite append_assoc. f_equal.
      clear. induction e as [|e IHe]; simpl; [reflexivity|].
      rewrite IHe. reflexivity.
    + intros H0. apply N.eq_mul_0 in H0. destruct H0 as [H0|H0]; [congruence|].
      apply N.pow_nonzero in H0; [exact H0 | discriminate].
Qed.

Lemma nb_digits_length (u : Decimal.uint) :
  Decimal.nb_digits u = List.length (uint_digits u).
Proof. induction u; simpl; congruence. Qed.

Lemma fold_digits_lower (ds : list N) (acc : N) :
  (acc * 10 ^ N.of_nat (List.length ds)
   <= fold_left (fun a d => a * 10 + d) ds acc)%N.
Proof.
  revert acc. induction ds as [|d ds IH]; intros acc.
  - simpl. lia.
  - cbn [List.length fold_left]. rewrite Nat2N.inj_succ, N.pow_succ_r'.
    specialize (IH (acc * 10 + d)%N).
    eapply N.le_trans; [|exact IH].
    set (P := (10 ^ N.of_nat (List.length ds))%N). nia.
Qed.

(** A numeral that does not start with a zero is at least the power of ten
    of its length. *)
Lemma of_uint_lower (u : Decimal.uint) :
  u <> Decimal.Nil -> Decimal.nzhead u = u ->
  (10 ^ N.of_nat (Decimal.nb_digits u - 1) <= N.of_uint u)%N.
Proof.
  intros Hu Hz. rewrite <- digits_value_uint, nb_digits_length.
  unfold Str.digits_value.
  destruct u; try congruence;
    try (cbn [uint_digits fold_left List.length];
         rewrite Nat.sub_succ, Nat.sub_0_r;
         eapply N.le_trans; [|apply fold_digits_lower];
         set (P := (10 ^ N.of_nat (List.length (uint_digits u)))%N); lia).
  exfalso. apply (DecimalFacts.nzhead_nonzero (Decimal.D0 u) u). exact Hz.
Qed.

Lemma to_uint_nzhead (n : N) :
  n <> 0%N -> Decimal.nzhead (N.to_uint n) = N.to_uint n.
Proof.
  intros Hn.
  pose proof (DecimalN.Unsigned.to_of (N.to_uint n)) as H.
  rewrite DecimalN.Unsigned.of_to in H.
  destruct (Decimal.uint_eq_dec (Decimal.nzhead (N.to_uint n)) Decimal.Nil) as [E|E].
  - exfalso. apply Hn.
    apply DecimalFacts.unorm_0 in E. rewrite <- H in E.
    rewrite <- (DecimalN.Unsigned.of_to n), E. reflexivity.
  - rewrite <- (DecimalFacts.unorm_nzhead _ E). symmetry. exact H.
Qed.

(** The digit count of a positive number below [10^k] is at most [k]. *)
Lemma nb_digits_upper (n : N) (k : nat) :
  n <> 0%N -> (n < 10 ^ N.of_nat k)%N ->
  (Decimal.nb_digits (N.to_uint n) <= k)%nat.
Proof.
  intros Hn Hlt.
  pose proof (of_uint_lower (N.to_uint n) (to_uint_nonempty n)
                (to_uint_nzhead n Hn)) as H.
  rewrite DecimalN.Unsigned.of_to in H.
  destruct (Nat.le_gt_cases (Decimal.nb_digits (N.to_uint n)) k) as [L|G];
    [exact L|].
  exfalso.
  assert (10 ^ N.of_nat k <= 10 ^ N.of_nat (Decimal.nb_digits (N.to_uint n) - 1))%N
    by (apply N.pow_le_mono_r; lia).
  lia.
Qed.

(** ** Reading integers *)

Lemma Qpower_positive_int (z : Z) (p : positive) :
  Qpower_positive (inject_Z z) p = inject_Z (Z.pow_pos z p).
Proof.
  assert (H : exists y, Qpower_positive (inject_Z z) p = inject_Z y).
  { induction p as [p [y IH] | p [y IH] |]; cbn [Qpower_positive pow_pos].
    - fold (Qpower_positive (inject_Z z) p). rewrite IH.
      exists (z * (y * y))%Z. reflexivity.
    - fold (Qpower_positive (inject_Z z) p). rewrite IH.
      exists (y * y)%Z. reflexivity.
    - exists z. reflexivity. }
  destruct H as [y Hy]. rewrite Hy. f_equal.
  pose proof (Zpower_Qpower z (Zpos p)) as Hq.
  assert (Hp : (0 <= Z.pos p)%Z) by lia. specialize (Hq Hp).
  cbn [Qpower] in Hq. rewrite Hy in Hq.
  unfold Qeq in Hq. simpl in Hq. rewrite !Z.mul_1_r in Hq.
  symmetry. exact Hq.
Qed.

Lemma pow10_nonneg (e : Z) :
  (0 <= e)%Z -> Str.pow10 e = inject_Z (10 ^ e).
Proof.
  intros He. destruct e as [|p|p]; [reflexivity | | lia].
  unfold Str.pow10. cbn [Qpower].
  change (10 # 1)%Q with (inject_Z 10). apply Qpower_positive_int.
Qed.

Lemma inject_Z_mult_eq (a b : Z) :
  (inject_Z a * inject_Z b)%Q = inject_Z (a * b).
Proof. reflexivity. Qed.

(** An integer from 2^53 on is rounded to a value from 2^53 on. *)
Lemma of_Q_large (v : Z) :
  (2 ^ 53 <= v)%Z ->
  of_Q (inject_Z v) = PInf \/
  exists r, of_Q (inject_Z v) = Fin r /\ (inject_Z (2 ^ 53) <= r)%Q.
Proof.
  intros Hv.
  assert (H0 : (0 < 2 ^ 53)%Z) by (apply pow2_pos; lia).
  destruct v as [|p|p]; try lia.
  unfold of_Q. cbn [Qnum inject_Z]. fold (inject_Z (Zpos p)).
  unfold round_positive.
  pose proof (exponent_range (inject_Z (Zpos p))) as He.
  cbv zeta in He. cbn [Qnum Qden inject_Z] in He.
  change (Z.log2 1) with 0%Z in He.
  set (e := exponent (inject_Z (Zpos p))) in *.
  assert (HL : (53 <= Z.log2 (Zpos p))%Z).
  { apply Z.log2_le_pow2; lia. }
  assert (Hmax : Z.max e (-1022) = e) by (clear - He HL; lia).
  rewrite Hmax. clear Hmax.
  set (s := (e - 52)%Z).
  assert (Hs : (0 <= s)%Z) by (clear - He HL; unfold s; lia).
  replace (52 - e)%Z with (- s)%Z by (unfold s; clear; lia).
  assert (Hse : (s + 52 <= Z.log2 (Z.pos p))%Z) by (clear - He; unfold s; lia).
  pose proof (Z.log2_spec (Zpos p) ltac:(lia)) as [Hlo _].
  clearbody s. clear He HL.
  set (t := scale2 (inject_Z (Zpos p)) (- s)).
  set (m := round_half_even t).
  set (r := scale2 (inject_Z m) s).
  destruct (Qle_bool (inject_Z (2 ^ 1024)) r) eqn:E; [left; reflexivity|].
  right. exists (Qred r). split; [reflexivity|].
  rewrite (Qred_correct r).
  pose proof (scale2_down (inject_Z (Zpos p)) s Hs) as Ht. fold t in Ht.
  pose proof (inject_pow2_pos s Hs) as HP.
  pose proof (pow2_pos s Hs) as HPz.
  assert (Hm : (s <= 53 /\ 2 ^ (53 - s) <= m)%Z \/ (s > 53)%Z).
  { destruct (Z_le_gt_dec s 53) as [Hle|Hgt]; [left | right; exact Hgt].
    split; [exact Hle|].
    apply round_half_even_lower.
    apply (Qmult_le_r _ _ _ HP). rewrite Ht, <- inject_Z_mult, <- Zle_Qle.
    rewrite <- Z.pow_add_r by lia.
    replace (53 - s + s)%Z with 53%Z by lia. exact Hv. }
  assert (Hr : (r == inject_Z (m * 2 ^ s))%Q).
  { unfold r. rewrite (scale2_up _ s Hs), inject_Z_mult. reflexivity. }
  rewrite Hr, <- Zle_Qle.
  destruct Hm as [[Hle Hm]|Hgt].
  - assert (Hsplit : (2 ^ 53 = 2 ^ (53 - s) * 2 ^ s)%Z).
    { rewrite <- Z.pow_add_r by lia. f_equal. lia. }
    rewrite Hsplit. apply Z.mul_le_mono_nonneg_r; lia.
  - (* here the significand alone is at least 2^52 *)
    assert (Hm : (2 ^ 52 <= m)%Z).
    { apply round_half_even_lower.
      apply (Qmult_le_r _ _ _ HP). rewrite Ht, <- inject_Z_mult, <- Zle_Qle.
      rewrite <- Z.pow_add_r by lia.
      eapply Z.le_trans; [|exact Hlo].
      apply Z.pow_le_mono_r; lia. }
    assert (H52 : (0 < 2 ^ 52)%Z) by (apply pow2_pos; lia).
    assert (Hs53 : (2 ^ 53 <= 2 ^ s)%Z) by (apply Z.pow_le_mono_r; lia).
    nia.
Qed.

(** Among the non-negative integers, an integer up to 2^53 - 1 is the only
    one that is rounded to it. *)
Lemma reads_int (v z : Z) :
  (0 <= v)%Z -> (0 <= z <= MAX_SAFE_INTEGER)%Z ->
  eqb (of_Q (inject_Z v)) (Fin (inject_Z z)) = true -> v = z.
Proof.
  intros Hv Hz H.
  destruct (Z_le_gt_dec v MAX_SAFE_INTEGER) as [Hle|Hgt].
  - rewrite of_Q_int in H by lia. unfold of_Z in H. cbn [eqb] in H.
    apply Qeq_bool_eq in H. unfold Qeq in H. simpl in H. lia.
  - exfalso. unfold MAX_SAFE_INTEGER in *.
    destruct (of_Q_large v ltac:(lia)) as [E | (r & E & Hr)]; rewrite E in H.
    + discriminate.
    + cbn [eqb] in H. apply Qeq_bool_eq in H. rewrite H in Hr.
      rewrite <- Zle_Qle in Hr. lia.
Qed.

(** ** The text of an integer *)

Lemma decimal_exponent_int (z : Z) :
  (1 <= z <= MAX_SAFE_INTEGER)%Z ->
  (1 <= Str.decimal_exponent (inject_Z z) <= 17)%Z.
Proof.
  intros Hz. destruct z as [|p|p]; try lia.
  unfold Str.decimal_exponent. cbn [Qnum Qden inject_Z Z.to_pos].
  change (Z.of_nat (Decimal.nb_digits (Pos.to_uint 1))) with 1%Z.
  change (Pos.to_uint p) with (N.to_uint (N.pos p)).
  set (d := Decimal.nb_digits (N.to_uint (N.pos p))).
  assert (Hd1 : (1 <= d)%nat).
  { destruct d eqn:E; [|lia]. exfalso.
    apply DecimalFacts.nb_digits_0 in E.
    exact (to_uint_nonempty (N.pos p) E). }
  assert (Hd2 : (d <= 16)%nat).
  { apply nb_digits_upper; [discriminate|].
    unfold MAX_SAFE_INTEGER in Hz.
    change (2 ^ 53 - 1)%Z with 9007199254740991%Z in Hz.
    change (10 ^ N.of_nat 16)%N with 10000000000000000%N. lia. }
  destruct (Qle_bool _ _) eqn:E; [lia|].
  destruct (Nat.eq_dec d 1) as [D1|D1]; [|lia].
  exfalso. rewrite D1 in E. change (Z.of_nat 1 - 1)%Z with 0%Z in E.
  assert (Ht : Qle_bool (Str.pow10 0) (inject_Z (Z.pos p)) = true).
  { apply Qle_bool_iff. unfold Qle. simpl. lia. }
  congruence.
Qed.

Lemma reads_product (s P z : Z) :
  (0 <= s)%Z -> (0 < P)%Z -> (0 <= z <= MAX_SAFE_INTEGER)%Z ->
  eqb (of_Q (inject_Z s * inject_Z P)) (Fin (inject_Z z)) = true ->
  (s * P)%Z = z.
Proof.
  intros Hs HP Hz H. rewrite inject_Z_mult_eq in H.
  apply reads_int; [nia | exact Hz | exact H].
Qed.

(** A decimal of at most as many digits as the integer has, offered for
    an integer up to 2^53 - 1, is the integer. *)
Lemma candidate_int (z n k s k' n' : Z) :
  (1 <= z <= MAX_SAFE_INTEGER)%Z -> (1 <= k <= n)%Z ->
  Str.candidate (inject_Z z) n k = Some (s, k', n') ->
  (s * 10 ^ (n' - k') = z /\ 1 <= k' <= n' /\ n' <= n + 1)%Z.
Proof.
  intros Hz Hk. unfold Str.candidate.
  rewrite (pow10_nonneg (n - k)) by lia.
  set (P := (10 ^ (n - k))%Z).
  assert (HP : (0 < P)%Z) by (apply Z.pow_pos_nonneg; lia).
  set (lo := Qfloor (inject_Z z / inject_Z P)).
  assert (Hlo : (0 <= lo)%Z).
  { unfold lo. rewrite <- (Qfloor_Z 0). apply Qfloor_resp_le.
    apply Qle_shift_div_l.
    - change 0%Q with (inject_Z 0). rewrite <- Zlt_Qlt. exact HP.
    - rewrite Qmult_0_l. change 0%Q with (inject_Z 0). rewrite <- Zle_Qle. lia. }
  assert (Hz' : (0 <= z <= MAX_SAFE_INTEGER)%Z) by lia.
  assert (Hlow : eqb (of_Q (inject_Z lo * inject_Z P)) (Fin (inject_Z z)) = true ->
                 Some (lo, k, n) = Some (s, k', n') ->
                 (s * 10 ^ (n' - k') = z /\ 1 <= k' <= n' /\ n' <= n + 1)%Z).
  { intros R E. injection E as <- <- <-.
    split; [apply (reads_product lo P z); assumption | lia]. }
  assert (Hhigh : eqb (of_Q (inject_Z (lo + 1) * inject_Z P)) (Fin (inject_Z z)) = true ->
                  Some (if (lo + 1 =? 10 ^ k)%Z then (1, 1, n + 1)%Z
                        else ((lo + 1)%Z, k, n)) = Some (s, k', n') ->
                  (s * 10 ^ (n' - k') = z /\ 1 <= k' <= n' /\ n' <= n + 1)%Z).
  { intros R E. apply (reads_product (lo + 1) P z) in R; [|lia | exact HP | exact Hz'].
    destruct (Z.eqb_spec (lo + 1) (10 ^ k)) as [T|T]; injection E as <- <- <-.
    - split; [|lia]. rewrite <- R, T. unfold P.
      rewrite <- Z.pow_add_r by lia. rewrite Z.mul_1_l. f_equal. lia.
    - split; [exact R | lia]. }
  destruct (eqb (of_Q (inject_Z lo * inject_Z P)) (Fin (inject_Z z))) eqn:R1;
    destruct (eqb (of_Q (inject_Z (lo + 1) * inject_Z P)) (Fin (inject_Z z))) eqn:R2;
    try discriminate; auto.
  destruct (Qcompare _ _); [destruct (Z.even lo)|..]; auto.
Qed.

(** With as many digits as the integer has, the integer itself is offered. *)
Lemma candidate_exact (z n : Z) :
  (1 <= z <= MAX_SAFE_INTEGER)%Z ->
  Str.candidate (inject_Z z) n n <> None.
Proof.
  intros Hz. unfold Str.candidate. rewrite Z.sub_diag.
  change (Str.pow10 0) with (inject_Z 1).
  assert (Hlo : Qfloor (inject_Z z / inject_Z 1) = z).
  { rewrite <- (Qfloor_Z z) at 2. apply Qfloor_comp. field. }
  rewrite Hlo. rewrite !inject_Z_mult_eq, Z.mul_1_r.
  rewrite (of_Q_int z) by lia.
  assert (Hr : eqb (of_Z z) (Fin (inject_Z z)) = true).
  { unfold of_Z. cbn [eqb]. apply Qeq_bool_iff. reflexivity. }
  rewrite Hr. clear Hr.
  destruct (eqb (of_Q _) _);
    [destruct (Qcompare _ _); [destruct (Z.even z)|..]|]; discriminate.
Qed.

Lemma shortest_int (z n : Z) (fuel : nat) (k : Z) :
  (1 <= z <= MAX_SAFE_INTEGER)%Z -> (1 <= k <= n)%Z ->
  (Z.to_nat (n - k) <= fuel)%nat ->
  exists s k' n',
    Str.shortest (inject_Z z) n k fuel = (s, k', n') /\
    (s * 10 ^ (n' - k') = z /\ 1 <= k' <= n' /\ n' <= n + 1)%Z.
Proof.
  intros Hz. revert k. induction fuel as [|fuel IH]; intros k Hk Hf;
    cbn [Str.shortest];
    destruct (Str.candidate (inject_Z z) n k) as [[[s k'] n']|] eqn:C.
  - exists s, k', n'. split; [reflexivity|].
    exact (candidate_int z n k s k' n' Hz Hk C).
  - exfalso. assert (k = n) by lia. subst k.
    exact (candidate_exact z n Hz C).
  - exists s, k', n'. split; [reflexivity|].
    exact (candidate_int z n k s k' n' Hz Hk C).
  - destruct (Z.eq_dec k n) as [->|Hne];
      [exfalso; exact (candidate_exact z n Hz C)|].
    apply IH; lia.
Qed.

(** The shortest decimal that reads back as an integer up to 2^53 - 1 is
    the integer: its text is its digits. *)
Lemma of_shortest_int (z : Z) :
  (1 <= z <= MAX_SAFE_INTEGER)%Z ->
  Str.of_shortest (inject_Z z) = Str.of_N (Z.to_N z).
Proof.
  intros Hz. unfold Str.of_shortest.
  pose proof (decimal_exponent_int z Hz) as Hn.
  set (n := Str.decimal_exponent (inject_Z z)) in *.
  destruct (shortest_int z n 16 1 Hz ltac:(lia) ltac:(lia))
    as (s & k' & n' & -> & Hv & Hk & Hn').
  assert (Hs : (0 < s)%Z).
  { assert (0 < 10 ^ (n' - k'))%Z by (apply Z.pow_pos_nonneg; lia). nia. }
  replace ((k' <=? n')%Z && (n' <=? 21)%Z) with true
    by (symmetry; apply andb_true_iff; split; apply Z.leb_le; lia).
  rewrite <- (of_N_pow10 (Z.to_N s) (Z.to_nat (n' - k'))) by lia.
  f_equal. rewrite <- Hv.
  rewrite Z2N.inj_mul by (try apply Z.pow_nonneg; lia).
  rewrite Z2N.inj_pow by lia.
  rewrite Z_nat_N. reflexivity.
Qed.

(** ** Formatted times *)

(** A decimal numeral of value up to 2^53 - 1, padded with zeros or not, is
    read back as its value. *)
Lemma coerce_padded (k : nat) (n : N) :
  (Z.of_N n <= MAX_SAFE_INTEGER)%Z ->
  coerce (Str.padStart k "0" (Str.of_N n)) = of_N n.
Proof.
  intros Hn. unfold coerce, Str.padStart, Str.of_N.
  rewrite replicate_zeros.
  rewrite Number_uint.
  - rewrite of_uint_zeros, DecimalN.Unsigned.of_to. apply or_zero_of_Z.
  - apply zeros_nonempty, to_uint_nonempty.
  - rewrite of_uint_zeros, DecimalN.Unsigned.of_to. exact Hn.
Qed.

Lemma coerce_of_N (n : N) :
  (Z.of_N n <= MAX_SAFE_INTEGER)%Z -> coerce (Str.of_N n) = of_N n.
Proof. exact (coerce_padded 0 n). Qed.

(** [String] gives an integer up to 2^53 - 1 as its decimal digits. *)
Lemma of_number_safe (n : N) :
  (Z.of_N n <= MAX_SAFE_INTEGER)%Z -> Str.of_number (of_N n) = Str.of_N n.
Proof.
  intros Hn. destruct n as [|p]; [reflexivity|].
  change (Str.of_number (of_N (N.pos p)))
    with (Str.of_shortest (inject_Z (Z.pos p))).
  rewrite of_shortest_int by lia. reflexivity.
Qed.

(** Up to 2^53 - 1 seconds [formatTime] prints the integer quotient by 60
    and the remainder, the latter with two digits. *)
Lemma formatTime_safe (n : N) :
  (Z.of_N n <= MAX_SAFE_INTEGER)%Z ->
  formatTime (of_N n) =
  (Str.of_N (n / 60) ++ ":" ++ Str.padStart 2 "0" (Str.of_N (n mod 60)))%string.
Proof.
  intros Hn. unfold formatTime.
  rewrite (floor_div_60 n Hn), rem_60.
  assert (Hm : (n mod 60 < 60)%N) by (apply N.mod_lt; discriminate).
  assert (Hd : (n = 60 * (n / 60) + n mod 60)%N)
    by (apply N.div_mod; discriminate).
  set (d := (n / 60)%N) in *. set (m := (n mod 60)%N) in *. clearbody d m.
  rewrite !of_number_safe by safe_lia.
  reflexivity.
Qed.

Lemma parse_format_safe (n : N) :
  (Z.of_N n <= MAX_SAFE_INTEGER)%Z ->
  parseTimeSafe (formatTime (of_N n)) = of_N n.
Proof.
  intros Hn. rewrite (formatTime_safe n Hn).
  change (Str.of_N (n / 60) ++ ":" ++ Str.padStart 2 "0" (Str.of_N (n mod 60)))%string
    with (Str.of_N (n / 60) ++ String ":" (Str.padStart 2 "0" (Str.of_N (n mod 60))))%string.
  assert (Hm : (n mod 60 < 60)%N) by (apply N.mod_lt; discriminate).
  assert (Hd : (n = 60 * (n / 60) + n mod 60)%N)
    by (apply N.div_mod; discriminate).
  set (d := (n / 60)%N) in *. set (m := (n mod 60)%N) in *. clearbody d m.
  rewrite parseTimeSafe_pieces by apply includes_digits.
  rewrite split_none.
  - rewrite coerce_of_N, coerce_padded by safe_lia.
    unfold of_N.
    rewrite mul_of_Z by safe_lia.
    rewrite add_of_Z by safe_lia.
    f_equal. lia.
  - unfold Str.padStart, Str.of_N. rewrite replicate_zeros. apply includes_digits.
Qed.

(** C10, as stated, fails above 2^53 - 1.  The number 2^55 + 56 is a
    binary64 value.  Its quotient by 60 is rounded to a multiple of 1/8 and
    floored to 600479950316067; the remainder is 4, and the text is
    "600479950316067:04".  Read back, 600479950316067 * 60 lies half way
    between two binary64 values and is rounded to 2^55 + 48, and so is the
    sum with 4. *)
Lemma format_parse_roundtrip_fails_above_safe_integers :
  of_Q (inject_Z (2 ^ 55 + 56)) = of_N (2 ^ 55 + 56) /\
  formatTime (of_N (2 ^ 55 + 56)) = "600479950316067:04" /\
  parseTimeSafe "600479950316067:04" = of_N (2 ^ 55 + 48) /\
  parseTimeSafe (formatTime (of_N (2 ^ 55 + 56))) <> of_N (2 ^ 55 + 56).
Proof.
  split; [vm_compute; reflexivity|].
  split; [vm_compute; reflexivity|].
  split; [vm_compute; reflexivity|].
  vm_compute. discriminate.
Qed.

(** C10 (amended): for every natural number [n] up to 2^53 - 1,
    [formatTime n] is the decimal digits of the minutes [n / 60], a colon,
    and the seconds [n mod 60] padded to two digits, and
    [parseTimeSafe (formatTime n)] is [n]. *)
Theorem format_parse_roundtrip (n : N) :
  (Z.of_N n <= MAX_SAFE_INTEGER)%Z ->
  formatTime (of_N n) =
    (Str.of_N (n / 60) ++ ":" ++ Str.padStart 2 "0" (Str.of_N (n mod 60)))%string /\
  parseTimeSafe (formatTime (of_N n)) = of_N n.
Proof.
  intros Hn. split; [apply formatTime_safe | apply parse_format_safe]; exact Hn.
Qed.

Lemma format_parse_roundtrip_witness :
  formatTime (of_N 3725) = "62:05" /\
  parseTimeSafe (formatTime (of_N 3725)) = of_N 3725.
Proof.
  apply (format_parse_roundtrip 3725). safe_lia.
Defined.

(** ** Time parsing *)

(** C9: [parseTimeSafe] on the five sample timestamps of the specification:
    "0:38" is 38, "1:05" is 65, the empty text is 0, "abc" (no separator)
    is 0, and "2:" (missing seconds) is 120. *)
Theorem parseTime_samples :
  parseTimeSafe "0:38" = of_Z 38 /\
  parseTimeSafe "1:05" = of_Z 65 /\
  parseTimeSafe "" = of_Z 0 /\
  parseTimeSafe "abc" = of_Z 0 /\
  parseTimeSafe "2:" = of_Z 120.
Proof. repeat split; vm_compute; reflexivity. Qed.

(** C4, as stated, fails on a text with two separators: the code cuts at
    every separator and keeps the first two pieces, so "1:02:03" is 62,
    while one cut at the first separator leaves "02:03" as seconds, which
    coerces to 0 and gives 60. *)
Lemma parseTime_split_once_fails :
  parseTimeSafe "1:02:03" = of_Z 62 /\
  spec_parseTime "1:02:03" = of_Z 60 /\
  parseTimeSafe "1:02:03" <> spec_parseTime "1:02:03".
Proof.
  split; [vm_compute; reflexivity|].
  split; [vm_compute; reflexivity|].
  vm_compute. discriminate.
Qed.

Lemma coerce_not_NaN (n : string) : coerce n <> NaN.
Proof.
  unfold coerce, or_zero.
  destruct (Str.Number n); simpl; try discriminate.
  destruct (negb _); discriminate.
Qed.

Lemma coerce_of_NaN (n : string) : Str.Number n = NaN -> coerce n = zero.
Proof. intros H. unfold coerce. rewrite H. reflexivity. Qed.

Lemma coerce_truthy (n : string) :
  Num.to_bool (Str.Number n) = true -> coerce n = Str.Number n.
Proof. intros H. unfold coerce, or_zero. rewrite H. reflexivity. Qed.

(** C4 (amended): [parseTimeSafe t] is 0 when [t] is empty or has no
    separator; otherwise [t] is cut at every separator, the first two
    pieces are the minutes and the seconds (whatever follows a second
    separator is ignored), each is coerced on its own, a piece that is not
    numeric coercing to 0, and the result is minutes*60 + seconds.  On a
    text with a single separator this is the one cut of the specification. *)
Theorem parseTimeSafe_first_two_pieces (t : string) :
  (t = "" \/ Str.includes ":" t = false -> parseTimeSafe t = zero) /\
  (forall m s : string,
      Str.includes ":" m = false -> Str.includes ":" s = false ->
      (t = (m ++ ":" ++ s)%string \/
       exists rest, t = (m ++ ":" ++ s ++ ":" ++ rest)%string) ->
      parseTimeSafe t = (coerce m * of_Z 60 + coerce s)%num) /\
  (forall m s : string,
      Str.includes ":" m = false -> Str.includes ":" s = false ->
      t = (m ++ ":" ++ s)%string -> parseTimeSafe t = spec_parseTime t) /\
  (forall n : string,
      coerce n <> NaN /\
      (Str.Number n = NaN -> coerce n = zero) /\
      (Num.to_bool (Str.Number n) = true -> coerce n = Str.Number n)).
Proof.
  repeat split.
  - intros [-> | H]; [reflexivity|].
    unfold parseTimeSafe. rewrite H. rewrite orb_true_r. reflexivity.
  - intros m s Hm Hs [-> | [rest ->]]; simpl;
      rewrite (parseTimeSafe_pieces _ _ Hm).
    + rewrite (split_none _ _ Hs). reflexivity.
    + rewrite (split_app _ _ _ Hs). reflexivity.
  - intros m s Hm Hs ->. simpl.
    rewrite (parseTimeSafe_pieces _ _ Hm), (split_none _ _ Hs).
    unfold spec_parseTime. rewrite (cut_once_app _ _ _ Hm). reflexivity.
  - apply coerce_not_NaN.
  - apply coerce_of_NaN.
  - apply coerce_truthy.
Qed.

Lemma parseTimeSafe_first_two_pieces_witness :
  parseTimeSafe "" = zero /\
  parseTimeSafe "1:02:03" = (coerce "1" * of_Z 60 + coerce "02")%num /\
  parseTimeSafe "1:02" = spec_parseTime "1:02" /\
  coerce "x" = zero.
Proof.
  split; [|split; [|split]].
  - apply (proj1 (parseTimeSafe_first_two_pieces "")). left. reflexivity.
  - apply (proj1 (proj2 (parseTimeSafe_first_two_pieces "1:02:03")) "1" "02");
      [reflexivity | reflexivity |]. right. exists "03". reflexivity.
  - apply (proj1 (proj2 (proj2 (parseTimeSafe_first_two_pieces "1:02"))) "1" "02");
      reflexivity.
  - apply (proj2 (proj2 (proj2 (parseTimeSafe_first_two_pieces ""))) "x").
    vm_compute. reflexivity.
Defined.

(** ** Document validator *)

Lemma is_text_iff (v : option value) : is_text_b v = true <-> is_text v.
Proof.
  unfold is_text. split.
  - destruct v as [[]|]; simpl; try discriminate. eauto.
  - intros [s ->]. reflexivity.
Qed.

Lemma is_numeric_iff (v : option value) : is_numeric_b v = true <-> is_numeric v.
Proof.
  unfold is_numeric. split.
  - destruct v as [[]|]; simpl; try discriminate. eauto.
  - intros [s ->]. reflexivity.
Qed.

Lemma is_object_iff (v : value) : is_object_b v = true <-> is_object v.
Proof. destruct v; simpl; intuition discriminate. Qed.

Lemma typeof_string (v : option value) :
  (typeof v =? "string")%string = is_text_b v.
Proof. destruct v as [[]|]; reflexivity. Qed.

Lemma typeof_number (v : option value) :
  (typeof v =? "number")%string = is_numeric_b v.
Proof. destruct v as [[]|]; reflexivity. Qed.

Lemma object_test (v : value) :
  negb (truthy v) || negb (typeof (Some v) =? "object")%string
  = negb (is_object_b v).
Proof. destruct v; simpl; try reflexivity; destruct (negb _); reflexivity. Qed.

Lemma rejects_step_shape (step : value) :
  rejects_step step = negb (step_shape_b step).
Proof.
  unfold rejects_step, step_shape_b.
  rewrite object_test, !typeof_string, typeof_number.
  destruct (is_object_b step), (is_text_b (get step "time")),
    (is_numeric_b (get step "supply")), (is_text_b (get step "action"));
    reflexivity.
Qed.

Lemma step_shape_iff (step : value) :
  step_shape_b step = true <-> step_shape step.
Proof.
  unfold step_shape_b, step_shape.
  rewrite !andb_true_iff, is_object_iff, !is_text_iff, is_numeric_iff.
  tauto.
Qed.

Lemma check_steps_forallb (steps : list value) :
  check_steps steps = forallb step_shape_b steps.
Proof.
  induction steps as [|step rest IH]; simpl; [reflexivity|].
  rewrite rejects_step_shape, IH. destruct (step_shape_b step); reflexivity.
Qed.

Lemma check_steps_app (xs ys : list value) :
  check_steps (xs ++ ys) = check_steps xs && check_steps ys.
Proof. rewrite !check_steps_forallb. apply forallb_app. Qed.

Lemma first_invalid_none (i : nat) (steps : list value) :
  first_invalid_step i steps = None <-> check_steps steps = true.
Proof.
  rewrite check_steps_forallb. revert i.
  induction steps as [|step rest IH]; intros i; simpl; [tauto|].
  destruct (step_shape_b step); simpl; [apply IH|].
  split; discriminate.
Qed.

Lemma first_invalid_some (i j : nat) (steps : list value) :
  first_invalid_step i steps = Some j ->
  (i <= j)%nat /\
  check_steps (firstn (j - i) steps) = true /\
  exists step, nth_error steps (j - i) = Some step /\ rejects_step step = true.
Proof.
  revert i. induction steps as [|step rest IH]; intros i; simpl; [discriminate|].
  destruct (step_shape_b step) eqn:E.
  - intros H. destruct (IH _ H) as (Hle & Hpre & st & Hnth & Hrej).
    split; [lia|].
    replace (j - i)%nat with (S (j - S i)) by lia. simpl.
    rewrite rejects_step_shape, E. simpl.
    split; [exact Hpre|]. exists st. split; assumption.
  - intros H. injection H as <-. rewrite Nat.sub_diag. simpl.
    split; [lia|]. split; [reflexivity|].
    exists step. split; [reflexivity|]. rewrite rejects_step_shape, E. reflexivity.
Qed.

(** The validator as one conjunction of its tests. *)
Lemma validateBuild_tests (raw : value) :
  validateBuild raw =
  is_object_b raw && is_text_b (get raw "name") && is_text_b (get raw "race") &&
  match get raw "steps" with
  | Some (JArr steps) => forallb step_shape_b steps
  | _ => false
  end.
Proof.
  unfold validateBuild.
  rewrite object_test, !typeof_string.
  destruct (is_object_b raw); simpl; [|reflexivity].
  destruct (is_text_b (get raw "name")); simpl; [|reflexivity].
  destruct (is_text_b (get raw "race")); simpl; [|reflexivity].
  destruct (get raw "steps") as [[]|]; simpl; try reflexivity.
  apply check_steps_forallb.
Qed.

Lemma validateBuild_shape (raw : value) :
  validateBuild raw = true <-> build_shape raw.
Proof.
  rewrite validateBuild_tests. unfold build_shape.
  rewrite !andb_true_iff, is_object_iff, !is_text_iff.
  split.
  - intros [[[Ho Hn] Hr] Hs]. repeat split; try assumption.
    destruct (get raw "steps") as [[]|]; try discriminate.
    eexists. split; [reflexivity|].
    rewrite forallb_forall in Hs. apply Forall_forall.
    intros x Hx. apply step_shape_iff. auto.
  - intros (Ho & Hn & Hr & steps & -> & Hs). repeat split; try assumption.
    apply forallb_forall. rewrite Forall_forall in Hs.
    intros x Hx. apply step_shape_iff. auto.
Qed.

Lemma validateBuild_spec (raw : value) :
  (validateBuild raw = true <-> spec_validate raw = inl raw) /\
  (validateBuild raw = false <-> exists e, spec_validate raw = inr e).
Proof.
  rewrite validateBuild_tests. unfold spec_validate.
  destruct (is_object_b raw); simpl;
    [|split; split; try discriminate; eauto; intros [e H]; reflexivity].
  destruct (is_text_b (get raw "name")); simpl;
    [|split; split; try discriminate; eauto; intros [e H]; reflexivity].
  destruct (is_text_b (get raw "race")); simpl;
    [|split; split; try discriminate; eauto; intros [e H]; reflexivity].
  destruct (get raw "steps") as [[]|]; simpl;
    try (split; split; try discriminate; eauto; intros [e H]; reflexivity).
  rewrite <- check_steps_forallb.
  destruct (first_invalid_step 0 items) as [i|] eqn:E.
  - assert (check_steps items = false) as ->.
    { destruct (check_steps items) eqn:C; [|reflexivity].
      apply (first_invalid_none 0) in C. congruence. }
    split; split; try discriminate; eauto.
  - apply first_invalid_none in E. rewrite E.
    split; split; try discriminate; eauto. intros [e H]. discriminate.
Qed.

Lemma assoc_app (k : string) (pre post : list (string * value)) :
  assoc k (pre ++ post) =
  match assoc k pre with
  | Some v => Some v
  | None => assoc k post
  end.
Proof.
  induction pre as [|[k' v'] pre IH]; simpl; [reflexivity|].
  destruct (k' =? k)%string; [reflexivity | exact IH].
Qed.

(** A property under another key does not change what a key reads. *)
Lemma assoc_extra (k k' : string) (v : value) (pre post : list (string * value)) :
  k' <> k -> assoc k (pre ++ (k', v) :: post) = assoc k (pre ++ post).
Proof.
  intros H. rewrite !assoc_app. simpl.
  destruct (String.eqb_spec k' k); [contradiction | reflexivity].
Qed.

Lemma rejects_step_extra (k : string) (v : value) (pre post : list (string * value)) :
  ~ In k step_keys ->
  rejects_step (JObj (pre ++ (k, v) :: post)) = rejects_step (JObj (pre ++ post)).
Proof.
  intros H. unfold rejects_step. simpl get.
  rewrite !assoc_extra by (intros ->; apply H; simpl; tauto).
  reflexivity.
Qed.

Lemma validateBuild_extra (k : string) (v : value) (pre post : list (string * value)) :
  ~ In k document_keys ->
  validateBuild (JObj (pre ++ (k, v) :: post)) = validateBuild (JObj (pre ++ post)).
Proof.
  intros H. unfold validateBuild. simpl get.
  rewrite !assoc_extra by (intros ->; apply H; simpl; tauto).
  reflexivity.
Qed.

Lemma validateBuild_steps (hd tl : list (string * value)) (s1 s2 : list value) :
  check_steps s1 = check_steps s2 ->
  validateBuild (JObj (hd ++ ("steps", JArr s1) :: tl)) =
  validateBuild (JObj (hd ++ ("steps", JArr s2) :: tl)).
Proof.
  intros H. unfold validateBuild. simpl get.
  rewrite !(assoc_extra "name"), !(assoc_extra "race") by discriminate.
  rewrite !(assoc_app "steps"). simpl.
  destruct (assoc "steps" hd); [reflexivity|]. simpl. rewrite H. reflexivity.
Qed.

(** C2: [validateBuild] succeeds exactly on a non-null object whose [name]
    and [race] are strings and whose [steps] is an array of non-null objects
    with a string [time], a numeric [supply] and a string [action]; it agrees
    with the rules of the specification applied in their order, failing at
    the first one that fails; and a key the validator does not read, on the
    document or on a step, never changes the outcome. *)
Theorem validateBuild_accepts_exactly (raw : value) :
  (validateBuild raw = true <-> build_shape raw) /\
  (validateBuild raw = true <-> spec_validate raw = inl raw) /\
  (validateBuild raw = false <-> exists e, spec_validate raw = inr e) /\
  (forall k v pre post,
      raw = JObj (pre ++ post) -> ~ In k document_keys ->
      validateBuild (JObj (pre ++ (k, v) :: post)) = validateBuild raw) /\
  (forall k v hd tl xs ys pre post,
      raw = JObj (hd ++ ("steps", JArr (xs ++ JObj (pre ++ post) :: ys)) :: tl) ->
      ~ In k step_keys ->
      validateBuild
        (JObj (hd ++ ("steps", JArr (xs ++ JObj (pre ++ (k, v) :: post) :: ys)) :: tl))
      = validateBuild raw).
Proof.
  split; [apply validateBuild_shape|].
  split; [apply validateBuild_spec|].
  split; [apply validateBuild_spec|].
  split.
  - intros k v pre post -> H. apply validateBuild_extra. exact H.
  - intros k v hd tl xs ys pre post -> H. apply validateBuild_steps.
    rewrite !check_steps_app. simpl. rewrite (rejects_step_extra _ _ _ _ H).
    reflexivity.
Qed.

Lemma validateBuild_accepts_exactly_witness :
  validateBuild (JObj [("author", JStr "me"); ("name", JStr "Two");
                       ("race", JStr "Zerg"); ("steps", JArr [])])
  = validateBuild (JObj [("name", JStr "Two"); ("race", JStr "Zerg");
                         ("steps", JArr [])]) /\
  validateBuild
    (JObj [("name", JStr "Two"); ("race", JStr "Zerg");
           ("steps", JArr [JObj [("note", JNull); ("time", JStr "0:01");
                                 ("supply", JNum (of_Z 13));
                                 ("action", JStr "Overlord")]])])
  = validateBuild
      (JObj [("name", JStr "Two"); ("race", JStr "Zerg");
             ("steps", JArr [JObj [("time", JStr "0:01");
                                   ("supply", JNum (of_Z 13));
                                   ("action", JStr "Overlord")]])]).
Proof.
  split.
  - apply (proj1 (proj2 (proj2 (proj2
             (validateBuild_accepts_exactly
                (JObj [("name", JStr "Two"); ("race", JStr "Zerg");
                       ("steps", JArr [])])))))
             "author" (JStr "me") []
             [("name", JStr "Two"); ("race", JStr "Zerg"); ("steps", JArr [])]
             eq_refl).
    simpl. intros [H | [H | [H | []]]]; discriminate H.
  - apply (proj2 (proj2 (proj2 (proj2
             (validateBuild_accepts_exactly
                (JObj [("name", JStr "Two"); ("race", JStr "Zerg");
                       ("steps", JArr [JObj [("time", JStr "0:01");
                                             ("supply", JNum (of_Z 13));
                                             ("action", JStr "Overlord")]])])))))
             "note" JNull
             [("name", JStr "Two"); ("race", JStr "Zerg")] [] [] [] []
             [("time", JStr "0:01"); ("supply", JNum (of_Z 13));
              ("action", JStr "Overlord")]
             eq_refl).
    simpl. intros [H | [H | [H | []]]]; discriminate H.
Defined.

Lemma validateBuild_false_spec (raw : value) (e : ValidationError) :
  spec_validate raw = inr e -> validateBuild raw = false.
Proof. intros H. apply validateBuild_spec. eauto. Qed.

(** C8, as stated, fails: the validator returns a bare [false] and the
    loaders surface one fixed message, so two documents whose first
    offending steps are at index 0 and at index 1 are rejected alike, and no
    index can be read off the failure. *)
Lemma validation_failure_carries_no_index :
  spec_validate wrong_step_0 = inr (InvalidStep 0) /\
  spec_validate wrong_step_1 = inr (InvalidStep 1) /\
  validateBuild wrong_step_0 = validateBuild wrong_step_1 /\
  exec (load (FromFile (Some (mkFile "build.json" (Json wrong_step_0)))))
       (initial None)
  = exec (load (FromFile (Some (mkFile "build.json" (Json wrong_step_1)))))
         (initial None) /\
  ~ (exists index_of : bool -> nat,
        forall raw i, spec_validate raw = inr (InvalidStep i) ->
                      index_of (validateBuild raw) = i).
Proof.
  split; [vm_compute; reflexivity|].
  split; [vm_compute; reflexivity|].
  split; [vm_compute; reflexivity|].
  split; [vm_compute; reflexivity|].
  intros [index_of H].
  pose proof (H wrong_step_0 0%nat eq_refl) as H0.
  pose proof (H wrong_step_1 1%nat eq_refl) as H1.
  vm_compute in H0, H1. congruence.
Qed.

(** C8 (amended): when the first violated rule is the one on steps, with
    [i] the index of the first offending step, [validateBuild] returns
    [false]: every step before [i] passes the tests of the loop, the loop
    returns at step [i], and the loaders surface their fixed message; the
    failure itself carries no index. *)
Theorem validateBuild_stops_at_first_invalid_step (raw : value) (i : nat) :
  spec_validate raw = inr (InvalidStep i) ->
  validateBuild raw = false /\
  (exists steps step,
      get raw "steps" = Some (JArr steps) /\
      check_steps (firstn i steps) = true /\
      nth_error steps i = Some step /\ rejects_step step = true) /\
  (forall st buildId,
      errorMessage (exec (loadLocalBuild buildId (Response true (Json raw))) st)
      = "Invalid build format") /\
  (forall st url,
      errorMessage (exec (loadFromLink url (Response true (Json raw))) st)
      = "Invalid build format") /\
  (forall st f,
      endsWith ".json" (toLowerCase (name f)) = true -> content f = Json raw ->
      errorMessage (exec (loadFromFile (Some f)) st)
      = "Invalid build JSON schema").
Proof.
  intros H. pose proof (validateBuild_false_spec _ _ H) as Hv.
  split; [exact Hv|]. split.
  - unfold spec_validate in H.
    destruct (negb (is_object_b raw)); [discriminate|].
    destruct (negb (is_text_b (get raw "name"))); [discriminate|].
    destruct (negb (is_text_b (get raw "race"))); [discriminate|].
    destruct (get raw "steps") as [[]|]; try discriminate.
    destruct (first_invalid_step 0 items) as [j|] eqn:E; [|discriminate].
    injection H as ->.
    apply first_invalid_some in E. rewrite Nat.sub_0_r in E.
    destruct E as (_ & Hpre & step & Hnth & Hrej).
    exists items, step. repeat split; assumption.
  - split; [|split].
    + intros st buildId. unfold loadLocalBuild, exec, try_catch_finally,
        try_catch, bind, throw_if. simpl. rewrite Hv. reflexivity.
    + intros st url. unfold loadFromLink, exec, try_catch_finally,
        try_catch, bind, throw_if. simpl. rewrite Hv. reflexivity.
    + intros st f Hn Hc. unfold loadFromFile, exec, try_catch, bind, throw_if.
      simpl. rewrite Hn, Hc. simpl. rewrite Hv. reflexivity.
Qed.

Lemma validateBuild_stops_at_first_invalid_step_witness :
  validateBuild wrong_step_1 = false /\
  exists steps step,
    get wrong_step_1 "steps" = Some (JArr steps) /\
    check_steps (firstn 1 steps) = true /\
    nth_error steps 1 = Some step /\ rejects_step step = true.
Proof.
  pose proof (validateBuild_stops_at_first_invalid_step wrong_step_1 1 eq_refl)
    as (H1 & H2 & _).
  split; [exact H1 | exact H2].
Defined.

(** ** Schedule projector *)

Lemma mapi_from_length {A B : Type} (f : A -> nat -> B) (k : nat) (xs : list A) :
  List.length (mapi_from f k xs) = List.length xs.
Proof.
  revert k. induction xs as [|x xs IH]; intros k; simpl; [reflexivity|].
  rewrite IH. reflexivity.
Qed.

Lemma mapi_from_nth {A B : Type} (f : A -> nat -> B) (k i : nat) (xs : list A) :
  nth_error (mapi_from f k xs) i =
  option_map (fun x => f x (k + i)%nat) (nth_error xs i).
Proof.
  revert k i. induction xs as [|x xs IH]; intros k [|i]; simpl; try reflexivity.
  - rewrite Nat.add_0_r. reflexivity.
  - rewrite IH. rewrite Nat.add_succ_r. reflexivity.
Qed.

Lemma enrichedSteps_length (steps : list BuildStep) :
  List.length (enrichedSteps steps) = List.length steps.
Proof. apply mapi_from_length. Qed.

Lemma enrichedSteps_nth (steps : list BuildStep) (i : nat) :
  nth_error (enrichedSteps steps) i =
  option_map (fun st => enrich steps st i) (nth_error steps i).
Proof. unfold enrichedSteps, mapi. rewrite mapi_from_nth. reflexivity. Qed.

Lemma enrich_end (steps : list BuildStep) (st : BuildStep) (i : nat) :
  end_ (enrich steps st i) =
  match nth_error steps (S i) with
  | Some nx => parseTimeSafe (time nx)
  | None => Num.Infinity
  end.
Proof.
  unfold enrich. cbn [end_].
  destruct (nth_error steps (S i)) as [nx|] eqn:E.
  - assert (S i < List.length steps)%nat as Hlt
      by (apply nth_error_Some; congruence).
    destruct (Z.ltb_spec (Z.of_nat i) (Z.of_nat (List.length steps) - 1)); [|lia].
    rewrite Nat.add_1_r. rewrite (nth_error_nth _ _ st E). reflexivity.
  - apply nth_error_None in E.
    destruct (Z.ltb_spec (Z.of_nat i) (Z.of_nat (List.length steps) - 1));
      [lia | reflexivity].
Qed.

(** C3: for every list of steps and every index [i] of a step, the derived
    [start] is [parseTimeSafe] of the step's own time, and the derived [end]
    is [parseTimeSafe] of the next step's time when [i] is not the last
    index, and [Infinity] for the last step. *)
Theorem enrichedSteps_windows (steps : list BuildStep) (i : nat) (st : BuildStep) :
  nth_error steps i = Some st ->
  exists e,
    nth_error (enrichedSteps steps) i = Some e /\
    step e = st /\
    start e = parseTimeSafe (time st) /\
    (forall nx, nth_error steps (i + 1) = Some nx ->
                end_ e = parseTimeSafe (time nx)) /\
    ((i + 1 < List.length steps)%nat ->
     exists nx, nth_error steps (i + 1) = Some nx /\
                end_ e = parseTimeSafe (time nx)) /\
    ((i + 1 = List.length steps)%nat -> end_ e = Num.Infinity).
Proof.
  intros H. exists (enrich steps st i).
  rewrite enrichedSteps_nth, H.
  split; [reflexivity|]. split; [reflexivity|]. split; [reflexivity|].
  rewrite enrich_end, Nat.add_1_r.
  split; [|split].
  - intros nx ->. reflexivity.
  - intros Hlt. destruct (nth_error steps (S i)) as [nx|] eqn:E.
    + exists nx. split; reflexivity.
    + apply nth_error_None in E. lia.
  - intros Hlast. destruct (nth_error steps (S i)) as [nx|] eqn:E;
      [|reflexivity].
    assert (S i < List.length steps)%nat by (apply nth_error_Some; congruence).
    lia.
Qed.

Lemma enrichedSteps_windows_witness :
  exists e,
    nth_error (enrichedSteps (build_steps DEFAULT_BUILD)) 1 = Some e /\
    start e = of_Z 6 /\ end_ e = of_Z 8.
Proof.
  destruct (enrichedSteps_windows (build_steps DEFAULT_BUILD) 1
              (mkStep "0:06" (of_Z 16) "Barracks" []) eq_refl)
    as (e & He & _ & Hs & Hn & _).
  exists e. split; [exact He|]. split; [exact Hs|].
  exact (Hn (mkStep "0:08" (of_Z 19) "Refinery" []) eq_refl).
Defined.

Lemma slice_last_two {A : Type} (xs : list A) : slice (-2) xs = last_two xs.
Proof.
  unfold slice, last_two. change (-2 <? 0)%Z with true. cbv iota.
  rewrite <- (rev_involutive xs) at 1 2.
  destruct (rev xs) as [|a [|b r]]; try reflexivity.
  simpl rev. rewrite <- app_assoc. simpl app.
  rewrite length_app, length_rev. simpl List.length.
  replace (Z.to_nat (Z.max (Z.of_nat (List.length r + 2) + -2) 0))
    with (List.length (rev r)) by (rewrite length_rev; lia).
  rewrite skipn_app, skipn_all, Nat.sub_diag. reflexivity.
Qed.

Lemma last_two_length {A : Type} (xs : list A) :
  List.length (last_two xs) = Nat.min 2 (List.length xs).
Proof.
  unfold last_two. rewrite <- (length_rev xs).
  destruct (rev xs) as [|a [|b r]]; reflexivity.
Qed.

(** C1: for every list of steps and every elapsed value, the display
    sequence is the last two (fewer if fewer exist) of the steps whose [end]
    satisfies [seconds >= end], in their order, followed by the steps with
    [seconds < end], in their order; an empty list of steps gives an empty
    display sequence. *)
Theorem visibleSteps_display (steps : list BuildStep) (seconds : number)
    (muted audio : bool) :
  snd (visibleSteps (enrichedSteps steps) seconds muted audio) =
    last_two (filter (fun s => geb seconds (end_ s)) (enrichedSteps steps)) ++
    filter (fun s => ltb seconds (end_ s)) (enrichedSteps steps) /\
  snd (visibleSteps (enrichedSteps []) seconds muted audio) = [].
Proof.
  split.
  - unfold visibleSteps. cbn [snd]. rewrite slice_last_two. reflexivity.
  - reflexivity.
Qed.

Lemma filter_length_le {A : Type} (f : A -> bool) (xs : list A) :
  (List.length (filter f xs) <= List.length xs)%nat.
Proof.
  induction xs as [|x xs IH]; simpl; [lia|].
  destruct (f x); simpl; lia.
Qed.

Lemma filter_none {A : Type} (f g : A -> bool) (xs : list A) :
  (forall x, g x = true -> f x = false) -> filter f (filter g xs) = [].
Proof.
  intros H. induction xs as [|x xs IH]; simpl; [reflexivity|].
  destruct (g x) eqn:E; [|exact IH].
  simpl. rewrite (H _ E). exact IH.
Qed.

(** C5: for every list of steps and every elapsed value, at most two
    entries of the display sequence are done, that is, have an [end] with
    [seconds >= end]. *)
Theorem visibleSteps_at_most_two_done (steps : list BuildStep)
    (seconds : number) (muted audio : bool) :
  (List.length
     (filter (is_done seconds)
             (snd (visibleSteps (enrichedSteps steps) seconds muted audio)))
   <= 2)%nat.
Proof.
  unfold visibleSteps. cbn [snd]. rewrite slice_last_two.
  rewrite filter_app, length_app.
  rewrite (filter_none (is_done seconds)); [|intros x; apply ltb_not_geb].
  simpl. rewrite Nat.add_0_r.
  etransitivity; [apply filter_length_le|].
  rewrite last_two_length. lia.
Qed.

(** ** Loaders *)

Lemma or_else_nonempty (msg fallback : string) :
  fallback <> "" -> or_else msg fallback <> "".
Proof.
  intros H. unfold or_else.
  destruct (String.eqb_spec msg ""); [exact H | assumption].
Qed.

Lemma failed_fetch_local (st : State) (buildId : string) (net : Fetched) :
  fetch_fails net ->
  let st' := exec (loadLocalBuild buildId net) st in
  build st' = build st /\ buildRef st' = buildRef st /\
  seconds st' = seconds st /\ running st' = running st /\
  errorMessage st' <> "".
Proof.
  intros H. destruct H as [msg | body | msg | json Hv]; run_handler;
    try rewrite Hv; cbn; repeat split; try reflexivity;
    try (apply or_else_nonempty; discriminate); discriminate.
Qed.

Lemma failed_fetch_link (st : State) (url : string) (net : Fetched) :
  fetch_fails net ->
  let st' := exec (loadFromLink url net) st in
  build st' = build st /\ buildRef st' = buildRef st /\
  seconds st' = seconds st /\ running st' = running st /\
  errorMessage st' <> "".
Proof.
  intros H. destruct H as [msg | body | msg | json Hv]; run_handler;
    try rewrite Hv; cbn; repeat split; try reflexivity;
    try (apply or_else_nonempty; discriminate); discriminate.
Qed.

Lemma failed_file (st : State) (file : option File) :
  file_fails file ->
  let st' := exec (loadFromFile file) st in
  build st' = build st /\ buildRef st' = buildRef st /\
  seconds st' = seconds st /\ running st' = running st /\
  errorMessage st' <> "".
Proof.
  intros H. destruct H as [| f Hn | f msg Hc | f json Hc Hv]; run_handler.
  - repeat split; discriminate.
  - rewrite Hn. cbn. repeat split; discriminate.
  - destruct (endsWith ".json" (toLowerCase (name f))); cbn;
      [rewrite Hc; cbn|]; repeat split; try reflexivity;
      try (apply or_else_nonempty; discriminate); discriminate.
  - destruct (endsWith ".json" (toLowerCase (name f))); cbn;
      [rewrite Hc; cbn; rewrite Hv; cbn|]; repeat split; try reflexivity;
      discriminate.
Qed.

Lemma load_valid_file (st : State) (f : File) (json : value) :
  endsWith ".json" (toLowerCase (name f)) = true ->
  content f = Json json -> validateBuild json = true ->
  let st' := exec (loadFromFile (Some f)) st in
  build st' = json /\ seconds st' = 0%N /\ running st' = false /\
  errorMessage st' = "".
Proof.
  intros Hn Hc Hv. run_handler. rewrite Hn. cbn. rewrite Hc. cbn.
  rewrite Hv. cbn. repeat split; reflexivity.
Qed.

(** C7: a load attempt (registry selection, address, or local file) that
    ends in a fetch error, a JSON parse error or a validation error leaves
    the active document, the elapsed seconds and the running flag as they
    were, and surfaces a non-empty error message; in particular an invalid
    document loaded after a valid one leaves the valid one active. *)
Theorem failed_load_keeps_document_and_clock (st : State) (a : Attempt) :
  fails a ->
  (build (exec (load a) st) = build st /\
   seconds (exec (load a) st) = seconds st /\
   running (exec (load a) st) = running st /\
   errorMessage (exec (load a) st) <> "") /\
  (forall f good,
      endsWith ".json" (toLowerCase (name f)) = true ->
      content f = Json good -> validateBuild good = true ->
      build (exec (load a) (exec (load (FromFile (Some f))) st)) = good /\
      errorMessage (exec (load a) (exec (load (FromFile (Some f))) st)) <> "").
Proof.
  intros H.
  assert (Hall : forall s,
    build (exec (load a) s) = build s /\
    seconds (exec (load a) s) = seconds s /\
    running (exec (load a) s) = running s /\
    errorMessage (exec (load a) s) <> "").
  { intros s. destruct a as [buildId net | url net | file]; simpl in H |- *.
    - destruct (failed_fetch_local s buildId net H) as (? & ? & ? & ? & ?). auto.
    - destruct (failed_fetch_link s url net H) as (? & ? & ? & ? & ?). auto.
    - destruct (failed_file s file H) as (? & ? & ? & ? & ?). auto. }
  split; [apply Hall|].
  intros f good Hn Hc Hv.
  destruct (Hall (exec (load (FromFile (Some f))) st)) as (Hb & _ & _ & He).
  split; [|exact He]. rewrite Hb.
  apply (load_valid_file st f good Hn Hc Hv).
Qed.

Lemma failed_load_keeps_document_and_clock_witness :
  let st := next (next (initial None) Start) Tick in
  let a := LocalBuild "two-base" (Response true (Json wrong_step_1)) in
  build (exec (load a) st) = DEFAULT_BUILD /\
  seconds (exec (load a) st) = 1%N /\
  running (exec (load a) st) = true /\
  errorMessage (exec (load a) st) <> "".
Proof.
  exact (proj1 (failed_load_keeps_document_and_clock
                  (next (next (initial None) Start) Tick)
                  (LocalBuild "two-base" (Response true (Json wrong_step_1)))
                  (fetch_validation_error wrong_step_1 eq_refl))).
Defined.

(** ** Step-completion notification *)

Lemma enrich_eq (steps : list BuildStep) (st : BuildStep) (i : nat) :
  enrich steps st i =
  mkEnriched st (parseTimeSafe (time st))
    match nth_error steps (S i) with
    | Some nx => parseTimeSafe (time nx)
    | None => Num.Infinity
    end.
Proof.
  pose proof (enrich_end steps st i) as H.
  unfold enrich in *. cbn [end_] in H. rewrite H. reflexivity.
Qed.

Lemma mapi_from_windows (pre l : list BuildStep) :
  mapi_from (enrich (pre ++ l)) (List.length pre) l = windows l.
Proof.
  revert pre. induction l as [|st rest IH]; intros pre; simpl; [reflexivity|].
  f_equal.
  - rewrite enrich_eq. f_equal.
    replace (S (List.length pre)) with (List.length pre + 1)%nat by lia.
    rewrite nth_error_app2 by lia.
    replace (List.length pre + 1 - List.length pre)%nat with 1%nat by lia.
    destruct rest; reflexivity.
  - specialize (IH (pre ++ [st])).
    rewrite <- app_assoc, length_app in IH. simpl in IH.
    rewrite Nat.add_1_r in IH. exact IH.
Qed.

Lemma enrichedSteps_eq_windows (steps : list BuildStep) :
  enrichedSteps steps = windows steps.
Proof. exact (mapi_from_windows [] steps). Qed.

Lemma windows_ends (steps : list BuildStep) :
  map end_ (windows steps) =
  match step_times steps with
  | [] => []
  | _ :: later => later ++ [Num.Infinity]
  end.
Proof.
  induction steps as [|st rest IH]; simpl; [reflexivity|].
  rewrite IH. destruct rest; reflexivity.
Qed.

Lemma leb_PInf (a b : number) : leb a b = true -> leb b PInf = true.
Proof. destruct a, b; simpl; try discriminate; reflexivity. Qed.

Lemma non_decreasing_snoc (ts : list number) :
  non_decreasing ts -> Forall (fun x => leb x PInf = true) ts ->
  non_decreasing (ts ++ [PInf]).
Proof.
  unfold non_decreasing. induction 1 as [|t ts Hs IH Hall]; intros Hinf; simpl.
  - repeat constructor.
  - inversion Hinf as [|? ? Ht Hts]; subst. constructor; [apply IH; exact Hts|].
    apply Forall_app. split; [exact Hall|]. constructor; [exact Ht | constructor].
Qed.

Lemma ends_non_decreasing (steps : list BuildStep) :
  non_decreasing (step_times steps) ->
  non_decreasing (map end_ (enrichedSteps steps)).
Proof.
  rewrite enrichedSteps_eq_windows, windows_ends.
  intros H. destruct (step_times steps) as [|t later]; [constructor|].
  inversion H as [|? ? Hs Hall]; subst.
  apply non_decreasing_snoc; [exact Hs|].
  eapply Forall_impl; [|exact Hall]. intros x. apply leb_PInf.
Qed.

Lemma last_opt_nth {A : Type} (xs : list A) :
  nth_error xs (List.length xs - 1) = last_opt xs.
Proof.
  induction xs as [|x xs IH]; [reflexivity|].
  destruct xs as [|y rest]; [reflexivity|].
  change (last_opt (x :: y :: rest)) with (last_opt (y :: rest)).
  rewrite <- IH. cbn [List.length].
  replace (S (S (List.length rest)) - 1)%nat
    with (S (S (List.length rest) - 1)) by lia.
  reflexivity.
Qed.

Lemma last_opt_In {A : Type} (xs : list A) (x : A) :
  last_opt xs = Some x -> In x xs.
Proof.
  induction xs as [|y xs IH]; [discriminate|].
  destruct xs as [|z rest].
  - intros H. injection H as ->. left. reflexivity.
  - intros H. right. apply IH. exact H.
Qed.

(** The memo plays the sound exactly when the sound is on, the audio
    element is there, and the elapsed value is the end of the last done
    step. *)
Lemma played_last_done (es : list EnrichedStep) (s : number) (m a : bool) :
  played es s m a =
  negb m && a &&
  match last_opt (filter (is_done s) es) with
  | Some e => eqb s (end_ e)
  | None => false
  end.
Proof.
  unfold played, visibleSteps. cbn [fst].
  fold (is_done s). rewrite last_opt_nth.
  destruct (filter (is_done s) es) as [|e rest]; simpl;
    [destruct m, a; reflexivity|].
  destruct m, a; simpl; try reflexivity;
    destruct (match rest with [] => Some e | _ :: _ => last_opt rest end);
    reflexivity.
Qed.

Lemma last_opt_filter_cons {A : Type} (p : A -> bool) (x : A) (xs : list A) :
  last_opt (filter p (x :: xs)) =
  match last_opt (filter p xs) with
  | Some y => Some y
  | None => if p x then Some x else None
  end.
Proof.
  simpl. destruct (p x); [|destruct (last_opt (filter p xs)); reflexivity].
  destruct (filter p xs) as [|y ys]; [reflexivity|].
  change (last_opt (x :: y :: ys)) with (last_opt (y :: ys)).
  destruct (last_opt (y :: ys)) eqn:E; [reflexivity|].
  exfalso. clear -E. revert y E. induction ys as [|z ys IH]; intros y E.
  - discriminate.
  - apply (IH z). exact E.
Qed.

Lemma eqb_geb_trans (s x y : number) :
  eqb s x = true -> geb y x = true -> geb s y = true -> eqb s y = true.
Proof.
  intros H1 H2 H3. apply geb_antisym; [exact H3|].
  apply geb_trans with x; [exact H2|].
  rewrite eqb_sym in H1. apply eqb_geb. exact H1.
Qed.

(** With ends that never decrease, the last done step ends at the elapsed
    value exactly when some step does. *)
Lemma last_done_boundary (es : list EnrichedStep) (s : number) :
  non_decreasing (map end_ es) ->
  match last_opt (filter (is_done s) es) with
  | Some e => eqb s (end_ e)
  | None => false
  end = is_boundary es s.
Proof.
  unfold non_decreasing, is_boundary.
  induction es as [|x es IH]; intros Hs; [reflexivity|].
  simpl map in Hs. inversion Hs as [|? ? Hs' Hall]; subst.
  specialize (IH Hs'). rewrite last_opt_filter_cons. simpl existsb.
  destruct (last_opt (filter (is_done s) es)) as [y|] eqn:E.
  - rewrite <- IH.
    destruct (eqb s (end_ x)) eqn:Ex; [|reflexivity]. simpl.
    apply last_opt_In in E. apply filter_In in E. destruct E as [Hin Hdone].
    rewrite Forall_forall in Hall.
    apply eqb_geb_trans with (end_ x); [exact Ex | | exact Hdone].
    apply Hall. apply in_map. exact Hin.
  - rewrite <- IH, orb_false_r.
    unfold is_done. destruct (geb s (end_ x)) eqn:G; [reflexivity|].
    destruct (eqb s (end_ x)) eqn:Ex; [|reflexivity].
    apply eqb_geb in Ex. congruence.
Qed.

Lemma played_only_at_boundary (es : list EnrichedStep) (s : number) (m a : bool) :
  played es s m a = true ->
  m = false /\ a = true /\
  exists e, In e es /\ is_done s e = true /\ eqb s (end_ e) = true.
Proof.
  rewrite played_last_done. intros H.
  apply andb_true_iff in H. destruct H as [H1 H2].
  apply andb_true_iff in H1. destruct H1 as [Hm Ha].
  split; [destruct m; [discriminate | reflexivity]|]. split; [exact Ha|].
  destruct (last_opt (filter (is_done s) es)) as [e|] eqn:E; [|discriminate].
  apply last_opt_In in E. apply filter_In in E. destruct E as [Hin Hdone].
  exists e. auto.
Qed.

Lemma played_sorted (steps : list BuildStep) (s : number) :
  non_decreasing (step_times steps) ->
  played (enrichedSteps steps) s false true = is_boundary (enrichedSteps steps) s.
Proof.
  intros H. rewrite played_last_done. simpl.
  apply last_done_boundary. apply ends_non_decreasing. exact H.
Qed.

Lemma tick_running (st : State) :
  running st = true ->
  let st' := next st Tick in
  seconds st' = (seconds st + 1)%N /\ running st' = true /\
  muted st' = muted st /\ build st' = build st /\ buildRef st' = buildRef st.
Proof.
  intros H. unfold next, exec, handle. rewrite H. cbn. auto.
Qed.

Lemma render_plays_tick (st : State) :
  running st = true -> muted st = false ->
  non_decreasing (step_times (build_steps (build st))) ->
  render_plays st (next st Tick) =
  is_boundary (enrichedSteps (build_steps (build st)))
              (of_N (seconds st + 1)).
Proof.
  intros Hr Hm Hs.
  destruct (tick_running st Hr) as (Hsec & _ & Hmu & Hb & Href).
  unfold render_plays, deps_changed.
  rewrite Hsec, Hmu, Hb, Href, Hm.
  replace (seconds st =? seconds st + 1)%N with false
    by (symmetry; apply N.eqb_neq; lia).
  rewrite andb_false_r. simpl negb. rewrite andb_true_l.
  apply played_sorted. exact Hs.
Qed.

(** Along a run of ticks of a running clock with the sound on and step
    times that never decrease, each elapsed value is notified once if it is
    reached and is the end of a step, and not at all otherwise. *)
Lemma run_ticks_count (n : nat) (st : State) (b : N) :
  non_decreasing (step_times (build_steps (build st))) ->
  running st = true -> muted st = false ->
  count_occ N.eq_dec (run st (repeat Tick n)) b =
  if (seconds st <? b)%N && (b <=? seconds st + N.of_nat n)%N &&
     is_boundary (enrichedSteps (build_steps (build st))) (of_N b)
  then 1%nat else 0%nat.
Proof.
  revert st. induction n as [|n IH]; intros st Hs Hr Hm.
  - simpl. destruct (N.ltb_spec (seconds st) b); simpl; [|reflexivity].
    destruct (N.leb_spec b (seconds st + 0)); simpl; [lia | reflexivity].
  - cbn [repeat run]. rewrite count_occ_app.
    destruct (tick_running st Hr) as (Hsec & Hr' & Hmu & Hb & Href).
    rewrite (render_plays_tick st Hr Hm Hs).
    rewrite IH; [| rewrite Hb; exact Hs | exact Hr' | congruence].
    rewrite Hsec, Hb.
    set (es := enrichedSteps (build_steps (build st))).
    destruct (N.eq_dec b (seconds st + 1)) as [->|Hne].
    + replace (seconds st + 1 <? seconds st + 1)%N with false
        by (symmetry; apply N.ltb_ge; lia).
      replace (seconds st <? seconds st + 1)%N with true
        by (symmetry; apply N.ltb_lt; lia).
      replace (seconds st + 1 <=? seconds st + N.of_nat (S n))%N with true
        by (symmetry; apply N.leb_le; lia).
      simpl. destruct (is_boundary es (of_N (seconds st + 1))); simpl;
        [|reflexivity].
      destruct (N.eq_dec (seconds st + 1) (seconds st + 1)); [reflexivity | congruence].
    + assert (count_occ N.eq_dec
                (if is_boundary es (of_N (seconds st + 1))
                 then [(seconds st + 1)%N] else []) b = 0%nat) as ->.
      { destruct (is_boundary es (of_N (seconds st + 1))); simpl; [|reflexivity].
        destruct (N.eq_dec (seconds st + 1) b); [congruence | reflexivity]. }
      simpl plus.
      replace (seconds st + 1 + N.of_nat n)%N
        with (seconds st + N.of_nat (S n))%N by lia.
      replace (seconds st + 1 <? b)%N with (seconds st <? b)%N; [reflexivity|].
      destruct (N.ltb_spec (seconds st) b), (N.ltb_spec (seconds st + 1) b);
        try reflexivity; lia.
Qed.

(** C6, as stated, fails: from the document [two_steps], whose first step
    ends at 3, three ticks reach the boundary and the sound plays; with the
    clock paused at 3, muting and unmuting re-evaluates the projection at
    the same elapsed value and the sound plays a second time.  With the
    sound muted the boundary is reached without any notification.  And with
    step times that decrease the boundary of a step is passed in silence:
    in the validated document [unordered_steps] the steps end at 5, at 3 and
    never; ten ticks play the sound at 3 only, because at 5 the last done
    step is the one that ended at 3. *)
Lemma notification_repeats_at_same_elapsed_value :
  map end_ (enrichedSteps (build_steps (build two_steps_started)))
    = [of_Z 3; PInf] /\
  run two_steps_started [Tick; Tick; Tick; Pause; ToggleMute; ToggleMute]
    = [3; 3]%N /\
  count_occ N.eq_dec
    (run two_steps_started [Tick; Tick; Tick; Pause; ToggleMute; ToggleMute])
    3%N = 2%nat /\
  run two_steps_started [ToggleMute; Tick; Tick; Tick; Tick] = [] /\
  validateBuild (build unordered_started) = true /\
  map end_ (enrichedSteps (build_steps (build unordered_started)))
    = [of_Z 5; of_Z 3; PInf] /\
  muted unordered_started = false /\
  is_boundary (enrichedSteps (build_steps (build unordered_started)))
              (of_N 5) = true /\
  run unordered_started (repeat Tick 10) = [3%N] /\
  count_occ N.eq_dec (run unordered_started (repeat Tick 10)) 5%N = 0%nat.
Proof.
  split; [vm_compute; reflexivity|].
  split; [vm_compute; reflexivity|].
  split; [vm_compute; reflexivity|].
  split; [vm_compute; reflexivity|].
  split; [vm_compute; reflexivity|].
  split; [vm_compute; reflexivity|].
  split; [vm_compute; reflexivity|].
  split; [vm_compute; reflexivity|].
  split; vm_compute; reflexivity.
Qed.

(** C6 (amended): for a document that [validateBuild] accepts, with the
    sound on and step times that never decrease, along a run of ticks of the
    running clock that stays within 2^53 - 1 seconds the notification fires
    exactly once at each elapsed value that the ticks reach and that is the
    end boundary of some step (steps that share a boundary share one
    notification), and at no other tick.  Whenever an evaluation of the
    projection fires, on a document that [validateBuild] accepts and within
    2^53 - 1 seconds, the sound is on, the audio element is there, and the
    elapsed value equals the end of a done step, so a boundary that lies
    below the elapsed value is never notified.  What a re-evaluation at an
    unchanged elapsed value does is left open. *)
Theorem notification_once_per_boundary_tick (st : State) (n : nat) :
  validateBuild (build st) = true ->
  (Z.of_N (seconds st) + Z.of_nat n <= MAX_SAFE_INTEGER)%Z ->
  non_decreasing (step_times (build_steps (build st))) ->
  running st = true -> muted st = false ->
  (forall b : N,
      count_occ N.eq_dec (run st (repeat Tick n)) b =
      if (seconds st <? b)%N && (b <=? seconds st + N.of_nat n)%N &&
         is_boundary (enrichedSteps (build_steps (build st))) (of_N b)
      then 1%nat else 0%nat) /\
  (forall es s m a,
      played es s m a = true ->
      m = false /\ a = true /\
      exists e, In e es /\ is_done s e = true /\ eqb s (end_ e) = true) /\
  (forall prev cur,
      validateBuild (build cur) = true ->
      (Z.of_N (seconds cur) <= MAX_SAFE_INTEGER)%Z ->
      render_plays prev cur = true ->
      muted cur = false /\
      is_boundary (enrichedSteps (build_steps (build cur)))
                  (of_N (seconds cur)) = true).
Proof.
  intros _ _ Hs Hr Hm. split; [|split].
  - intros b. apply run_ticks_count; assumption.
  - apply played_only_at_boundary.
  - intros prev cur _ _ H. unfold render_plays in H.
    apply andb_true_iff in H. destruct H as [_ H].
    apply played_only_at_boundary in H.
    destruct H as (Hmu & _ & e & Hin & _ & He).
    split; [exact Hmu|]. unfold is_boundary. apply existsb_exists.
    exists e. auto.
Qed.

Lemma notification_once_per_boundary_tick_witness :
  count_occ N.eq_dec (run two_steps_started (repeat Tick 5)) 3%N = 1%nat /\
  count_occ N.eq_dec (run two_steps_started (repeat Tick 5)) 2%N = 0%nat.
Proof.
  assert (Hs : non_decreasing
                 (step_times (build_steps (build two_steps_started)))).
  { vm_compute. repeat constructor. }
  assert (Hv : validateBuild (build two_steps_started) = true).
  { vm_compute. reflexivity. }
  assert (Ht : (Z.of_N (seconds two_steps_started) + Z.of_nat 5
                <= MAX_SAFE_INTEGER)%Z).
  { vm_compute. discriminate. }
  pose proof (notification_once_per_boundary_tick two_steps_started 5
                Hv Ht Hs eq_refl eq_refl) as (H & _).
  split; [exact (H 3%N) | exact (H 2%N)].
Defined.

(** * Further properties *)

(** ** Timestamps *)

Lemma coerce_numeral (u : Decimal.uint) :
  (Z.of_N (N.of_uint u) <= MAX_SAFE_INTEGER)%Z ->
  coerce (NilEmpty.string_of_uint u) = of_N (N.of_uint u).
Proof.
  intros Hsafe. destruct (Decimal.uint_eq_dec u Decimal.Nil) as [-> | Hu].
  - vm_compute. reflexivity.
  - unfold coerce. rewrite (Number_uint u Hu Hsafe). apply or_zero_of_Z.
Qed.

(** X1: a timestamp made of two decimal numerals, each possibly empty or with
    leading zeros, parses to minutes * 60 + seconds when that is at most
    2^53 - 1; the seconds are not bounded by 60. *)
Theorem parseTimeSafe_numerals (u v : Decimal.uint) :
  (Z.of_N (N.of_uint u * 60 + N.of_uint v) <= MAX_SAFE_INTEGER)%Z ->
  parseTimeSafe
    (NilEmpty.string_of_uint u ++ ":" ++ NilEmpty.string_of_uint v)%string
  = of_N (N.of_uint u * 60 + N.of_uint v).
Proof.
  intros Hsafe.
  change (NilEmpty.string_of_uint u ++ ":" ++ NilEmpty.string_of_uint v)%string
    with (NilEmpty.string_of_uint u
          ++ String ":" (NilEmpty.string_of_uint v))%string.
  rewrite parseTimeSafe_pieces by apply includes_digits.
  rewrite split_none by apply includes_digits.
  rewrite !coerce_numeral by safe_lia.
  unfold of_N.
  rewrite mul_of_Z by safe_lia.
  rewrite add_of_Z by safe_lia.
  f_equal. lia.
Qed.

Lemma parseTimeSafe_numerals_witness :
  parseTimeSafe "12:075" = of_N 795.
Proof.
  apply (parseTimeSafe_numerals
           (Decimal.D1 (Decimal.D2 Decimal.Nil))
           (Decimal.D0 (Decimal.D7 (Decimal.D5 Decimal.Nil)))).
  unfold MAX_SAFE_INTEGER. simpl. lia.
Defined.

(** Above 2^53 - 1 the numerals are rounded as they are read: 2^53 + 1
    minutes are read as 2^53. *)
Example parse_rounds_large_numerals :
  parseTimeSafe "9007199254740993:0" = of_Z 540431955284459520 /\
  (9007199254740993 * 60 = 540431955284459580)%Z.
Proof. split; [vm_compute; reflexivity | reflexivity]. Qed.

Lemma padded_seconds_length (s : N) :
  (s < 60)%N -> String.length (Str.padStart 2 "0" (Str.of_N s)) = 2%nat.
Proof.
  intros H.
  assert (Hin : In s (map N.of_nat (seq 0 60))).
  { rewrite <- (N2Nat.id s). apply in_map. apply in_seq. lia. }
  simpl in Hin.
  repeat (destruct Hin as [<- | Hin]; [reflexivity|]).
  contradiction.
Qed.

(** X2: up to 2^53 - 1 seconds, [formatTime n] has one colon: cut at the
    colons it gives the minutes [n / 60] in decimal and a seconds field of
    exactly two characters, which reads as [n mod 60]. *)
Theorem formatTime_fields (n : N) :
  (Z.of_N n <= MAX_SAFE_INTEGER)%Z ->
  exists ss : string,
    Str.split ":" (formatTime (of_N n)) = [Str.of_N (n / 60); ss] /\
    String.length ss = 2%nat /\
    coerce ss = of_N (n mod 60).
Proof.
  intros Hn.
  assert (Hm : (n mod 60 < 60)%N) by (apply N.mod_lt; discriminate).
  exists (Str.padStart 2 "0" (Str.of_N (n mod 60))).
  split; [|split].
  - rewrite (formatTime_safe n Hn).
    change (Str.of_N (n / 60) ++ ":" ++
            Str.padStart 2 "0" (Str.of_N (n mod 60)))%string
      with (Str.of_N (n / 60) ++
            String ":" (Str.padStart 2 "0" (Str.of_N (n mod 60))))%string.
    rewrite split_app by apply includes_digits.
    rewrite split_none; [reflexivity|].
    unfold Str.padStart, Str.of_N. rewrite replicate_zeros.
    apply includes_digits.
  - apply padded_seconds_length. exact Hm.
  - apply coerce_padded. clear Hn. set (m := (n mod 60)%N) in *. clearbody m.
    safe_lia.
Qed.

Lemma formatTime_fields_witness :
  exists ss : string,
    Str.split ":" (formatTime (of_N 3725)) = ["62"; ss] /\
    String.length ss = 2%nat /\
    coerce ss = of_N 5.
Proof.
  apply (formatTime_fields 3725). safe_lia.
Defined.

(** What [formatTime] prints outside the tick counts up to 2^53 - 1: the
    minutes of 10^21 seconds are rounded and printed with the shortest
    digits; a fraction, a negative value and the values that are no numbers
    are printed as they are. *)
Example format_other_values :
  map formatTime
    [of_Q (Str.pow10 21); of_Q (6 * Str.pow10 22); Fin (3 # 2); of_Z (-5);
     of_Z (-60); NaN; PInf]
  = ["16666666666666666000:40"; "1e+21:00"; "0:1.5"; "-1:-5"; "-1:00";
     "NaN:NaN"; "Infinity:NaN"].
Proof. vm_compute. reflexivity. Qed.

Lemma of_N_inj (a b : N) : of_N a = of_N b -> a = b.
Proof.
  unfold of_N, of_Z, inject_Z. intros H. injection H as H. lia.
Qed.

(** X3: [formatTime] is injective on the tick counts up to 2^53 - 1: two
    different elapsed values are never shown as the same text. *)
Theorem formatTime_injective (a b : N) :
  (Z.of_N a <= MAX_SAFE_INTEGER)%Z -> (Z.of_N b <= MAX_SAFE_INTEGER)%Z ->
  a <> b -> formatTime (of_N a) <> formatTime (of_N b).
Proof.
  intros Ha Hb Hne H. apply Hne. apply of_N_inj.
  rewrite <- (parse_format_safe a Ha), <- (parse_format_safe b Hb), H.
  reflexivity.
Qed.

Lemma formatTime_injective_witness :
  formatTime (of_N 59) <> formatTime (of_N 60).
Proof.
  apply (formatTime_injective 59 60).
  - safe_lia.
  - safe_lia.
  - lia.
Defined.

(** ** Windows and display *)

Lemma windows_steps (steps : list BuildStep) : map step (windows steps) = steps.
Proof.
  induction steps as [|st rest IH]; simpl; [reflexivity|].
  rewrite IH. reflexivity.
Qed.

Lemma windows_starts (steps : list BuildStep) :
  map start (windows steps) = step_times steps.
Proof.
  induction steps as [|st rest IH]; simpl; [reflexivity|].
  rewrite IH. reflexivity.
Qed.

Lemma windows_meet (steps : list BuildStep) (i : nat) (e e' : EnrichedStep) :
  nth_error (windows steps) i = Some e ->
  nth_error (windows steps) (S i) = Some e' ->
  end_ e = start e'.
Proof.
  revert i. induction steps as [|st rest IH]; intros i; [destruct i; discriminate|].
  destruct i as [|i].
  - simpl. intros H1 H2. injection H1 as <-. simpl.
    destruct rest as [|nx rest']; [discriminate|].
    simpl in H2. injection H2 as <-. reflexivity.
  - simpl. apply IH.
Qed.

(** X4: the windows carry the steps of the document in their order, one window
    per step, and they meet: the [end] of a window is the [start] of the
    next one, whatever the times are. *)
Theorem enrichedSteps_tile (steps : list BuildStep) :
  map step (enrichedSteps steps) = steps /\
  List.length (enrichedSteps steps) = List.length steps /\
  forall i e e',
    nth_error (enrichedSteps steps) i = Some e ->
    nth_error (enrichedSteps steps) (S i) = Some e' ->
    end_ e = start e'.
Proof.
  rewrite enrichedSteps_eq_windows.
  split; [apply windows_steps|]. split.
  - rewrite <- (windows_steps steps) at 2. rewrite length_map. reflexivity.
  - apply windows_meet.
Qed.

Lemma enrichedSteps_tile_witness :
  exists e e',
    nth_error (enrichedSteps (build_steps DEFAULT_BUILD)) 0 = Some e /\
    nth_error (enrichedSteps (build_steps DEFAULT_BUILD)) 1 = Some e' /\
    end_ e = start e'.
Proof.
  eexists. eexists.
  split; [vm_compute; reflexivity|].
  split; [vm_compute; reflexivity|].
  apply (proj2 (proj2 (enrichedSteps_tile (build_steps DEFAULT_BUILD))) 0%nat);
    vm_compute; reflexivity.
Defined.

Lemma sorted_snoc_all (l : list number) :
  non_decreasing (l ++ [PInf]) ->
  Forall (fun x => leb x PInf = true) (l ++ [PInf]).
Proof.
  unfold non_decreasing. induction l as [|x l IH]; simpl; intros H.
  - repeat constructor.
  - inversion H as [|? ? Hs Hall]; subst. constructor; [|apply IH; exact Hs].
    rewrite Forall_forall in Hall.
    assert (Hin : In PInf (l ++ [PInf])) by (apply in_or_app; right; left; reflexivity).
    exact (Hall PInf Hin).
Qed.

Lemma ends_comparable (steps : list BuildStep) :
  non_decreasing (step_times steps) ->
  Forall (fun x => leb x PInf = true) (map end_ (enrichedSteps steps)).
Proof.
  intros H. pose proof (ends_non_decreasing steps H) as Hs.
  rewrite enrichedSteps_eq_windows, windows_ends in *.
  destruct (step_times steps) as [|t later]; [constructor|].
  apply sorted_snoc_all. exact Hs.
Qed.

Lemma not_geb_ltb (s x : number) :
  s <> NaN -> leb x PInf = true -> geb s x = false -> ltb s x = true.
Proof.
  destruct s, x; simpl; try discriminate; try reflexivity; try congruence.
  intros _ _ H. rewrite H. reflexivity.
Qed.

Lemma none_done_after (es : list EnrichedStep) (s b : number) :
  geb s b = false ->
  Forall (fun t => leb b t = true) (map end_ es) ->
  filter (is_done s) es = [].
Proof.
  intros G. induction es as [|y es IH]; intros H; [reflexivity|].
  simpl in H. inversion H as [|? ? Hy Hrest]; subst.
  simpl. unfold is_done at 1. destruct (geb s (end_ y)) eqn:Gy.
  - unfold leb in Hy. rewrite (geb_trans _ _ _ Gy Hy) in G. discriminate.
  - apply IH. exact Hrest.
Qed.

(** With ends that never decrease the done steps are a prefix of the
    schedule and the others the rest of it. *)
Lemma done_then_remaining (es : list EnrichedStep) (s : number) :
  s <> NaN ->
  non_decreasing (map end_ es) ->
  Forall (fun x => leb x PInf = true) (map end_ es) ->
  filter (is_done s) es ++ filter (fun e => ltb s (end_ e)) es = es.
Proof.
  intros Hs. unfold non_decreasing.
  induction es as [|x es IH]; intros Hsorted Hcmp; [reflexivity|].
  simpl map in *. inversion Hsorted as [|? ? Hs' Hall]; subst.
  inversion Hcmp as [|? ? Hx Hcmp']; subst.
  specialize (IH Hs' Hcmp'). simpl.
  unfold is_done at 1. destruct (geb s (end_ x)) eqn:G.
  - destruct (ltb s (end_ x)) eqn:L.
    + apply ltb_not_geb in L. congruence.
    + simpl. rewrite IH. reflexivity.
  - rewrite (not_geb_ltb _ _ Hs Hx G).
    rewrite (none_done_after es s (end_ x) G Hall) in *.
    simpl in *. rewrite IH. reflexivity.
Qed.

Lemma slice_skipn {A : Type} (xs : list A) :
  slice (-2) xs = skipn (List.length xs - 2) xs.
Proof.
  unfold slice. change (-2 <? 0)%Z with true. cbv iota.
  f_equal. lia.
Qed.

(** X5: when the step times never decrease, the display sequence is a suffix of
    the schedule: with [d] steps done it is the schedule without its first
    [d - 2] steps, in the order of the document. *)
Theorem visibleSteps_suffix (steps : list BuildStep) (seconds : number)
    (muted audio : bool) :
  seconds <> NaN ->
  non_decreasing (step_times steps) ->
  snd (visibleSteps (enrichedSteps steps) seconds muted audio) =
  skipn (List.length (filter (is_done seconds) (enrichedSteps steps)) - 2)
        (enrichedSteps steps).
Proof.
  intros Hs Hsorted.
  pose proof (done_then_remaining (enrichedSteps steps) seconds Hs
                (ends_non_decreasing steps Hsorted)
                (ends_comparable steps Hsorted)) as Hsplit.
  unfold visibleSteps. cbn [snd]. fold (is_done seconds).
  rewrite slice_skipn.
  set (done := filter (is_done seconds) (enrichedSteps steps)) in *.
  set (remaining := filter (fun e => ltb seconds (end_ e)) (enrichedSteps steps)) in *.
  rewrite <- Hsplit.
  rewrite skipn_app.
  replace (List.length done - 2 - List.length done)%nat with 0%nat by lia.
  reflexivity.
Qed.

Lemma visibleSteps_suffix_witness :
  snd (visibleSteps (enrichedSteps (build_steps DEFAULT_BUILD)) (of_Z 13)
                    false true)
  = skipn 1 (enrichedSteps (build_steps DEFAULT_BUILD)).
Proof.
  assert (Hs : non_decreasing (step_times (build_steps DEFAULT_BUILD))).
  { vm_compute. repeat constructor. }
  assert (Hn : of_Z 13 <> NaN) by discriminate.
  exact (visibleSteps_suffix (build_steps DEFAULT_BUILD) (of_Z 13) false true
           Hn Hs).
Defined.

Lemma no_active_from (steps : list BuildStep) (s b : number) :
  ltb s b = true ->
  Forall (fun t => t = b \/ leb b t = true) (step_times steps) ->
  filter (is_active s) (windows steps) = [].
Proof.
  intros Hb. induction steps as [|st rest IH]; intros H; [reflexivity|].
  simpl in H. inversion H as [|? ? Ht Hrest]; subst.
  simpl. rewrite (IH Hrest).
  unfold is_active. simpl start.
  assert (geb s (parseTimeSafe (time st)) = false) as ->; [|reflexivity].
  destruct (geb s (parseTimeSafe (time st))) eqn:G; [|reflexivity].
  apply ltb_not_geb in Hb.
  destruct Ht as [Ht | Ht].
  - rewrite Ht in G. congruence.
  - unfold leb in Ht. rewrite (geb_trans _ _ _ G Ht) in Hb. discriminate.
Qed.

(** X6: when the step times never decrease, at most one step is active at any
    elapsed value. *)
Theorem at_most_one_active (steps : list BuildStep) (seconds : number) :
  non_decreasing (step_times steps) ->
  (List.length (filter (is_active seconds) (enrichedSteps steps)) <= 1)%nat.
Proof.
  rewrite enrichedSteps_eq_windows. unfold non_decreasing.
  induction steps as [|st rest IH]; intros H; [simpl; lia|].
  simpl step_times in H. inversion H as [|? ? Hs Hall]; subst.
  specialize (IH Hs). simpl.
  destruct (is_active seconds _) eqn:A; [|exact IH].
  simpl. unfold is_active in A. simpl in A.
  apply andb_true_iff in A. destruct A as [_ L].
  destruct rest as [|nx rest']; [simpl; lia|].
  rewrite (no_active_from (nx :: rest') seconds (parseTimeSafe (time nx)) L);
    [simpl; lia|].
  simpl step_times in *. constructor; [left; reflexivity|].
  inversion Hs as [|? ? _ Hnx]; subst.
  eapply Forall_impl; [|exact Hnx]. intros t Ht. right. exact Ht.
Qed.

Lemma at_most_one_active_witness :
  (List.length (filter (is_active (of_Z 7))
                       (enrichedSteps (build_steps DEFAULT_BUILD))) <= 1)%nat.
Proof.
  apply (at_most_one_active (build_steps DEFAULT_BUILD) (of_Z 7)).
  vm_compute. repeat constructor.
Defined.

Lemma last_opt_app {A : Type} (xs ys : list A) :
  ys <> [] -> last_opt (xs ++ ys) = last_opt ys.
Proof.
  intros H. induction xs as [|x xs IH]; [reflexivity|].
  simpl app. destruct (xs ++ ys) eqn:E.
  - apply app_eq_nil in E. destruct E. contradiction.
  - rewrite <- E in *. rewrite <- IH. rewrite E. reflexivity.
Qed.

Lemma last_opt_filter {A : Type} (p : A -> bool) (xs : list A) (x : A) :
  last_opt xs = Some x -> p x = true -> last_opt (filter p xs) = Some x.
Proof.
  induction xs as [|y xs IH]; [discriminate|].
  intros H Hp. rewrite last_opt_filter_cons.
  destruct xs as [|z xs'].
  - simpl in H. injection H as ->. simpl. rewrite Hp. reflexivity.
  - change (last_opt (y :: z :: xs')) with (last_opt (z :: xs')) in H.
    rewrite (IH H Hp). reflexivity.
Qed.

Lemma windows_last (steps : list BuildStep) (e : EnrichedStep) :
  last_opt (windows steps) = Some e -> end_ e = PInf.
Proof.
  induction steps as [|st rest IH]; [discriminate|].
  destruct rest as [|nx rest'].
  - simpl. intros H. injection H as <-. reflexivity.
  - intros H. apply IH. exact H.
Qed.

(** X7: the last step of a document is on display at every tick count: its
    window never ends, so the display sequence of a document with steps is
    never empty and finishes with the last step. *)
Theorem last_step_always_shown (steps : list BuildStep) (n : N)
    (muted audio : bool) :
  steps <> [] ->
  exists e,
    last_opt (enrichedSteps steps) = Some e /\
    end_ e = Num.Infinity /\
    last_opt (snd (visibleSteps (enrichedSteps steps) (of_N n) muted audio))
    = Some e.
Proof.
  intros Hne. rewrite enrichedSteps_eq_windows.
  destruct (last_opt (windows steps)) as [e|] eqn:E.
  - exists e. pose proof (windows_last steps e E) as He.
    split; [reflexivity|]. split; [exact He|].
    unfold visibleSteps. cbn [snd].
    assert (Hrem : last_opt (filter (fun s => ltb (of_N n) (end_ s))
                                    (windows steps)) = Some e).
    { apply last_opt_filter; [exact E|]. rewrite He. reflexivity. }
    rewrite last_opt_app; [exact Hrem|].
    intros Hnil. rewrite Hnil in Hrem. discriminate.
  - exfalso. destruct steps as [|st rest]; [congruence|].
    clear Hne. revert st E. induction rest as [|nx rest IH]; intros st E.
    + discriminate.
    + apply (IH nx). exact E.
Qed.

Lemma last_step_always_shown_witness :
  exists e,
    last_opt (enrichedSteps (build_steps DEFAULT_BUILD)) = Some e /\
    end_ e = Num.Infinity /\
    last_opt (snd (visibleSteps (enrichedSteps (build_steps DEFAULT_BUILD))
                                (of_N 1000) false true)) = Some e.
Proof.
  apply (last_step_always_shown (build_steps DEFAULT_BUILD) 1000 false true).
  discriminate.
Defined.

(** ** From the validator to the projector *)

Lemma read_step_shape (v : value) :
  step_shape_b v = true ->
  exists st, read_step v = Some st /\
             get v "time" = Some (JStr (time st)) /\
             get v "supply" = Some (JNum (supply st)) /\
             get v "action" = Some (JStr (action st)).
Proof.
  unfold step_shape_b, read_step.
  destruct v as [| | | | |props]; simpl; try discriminate.
  destruct (assoc "time" props) as [[| | |t| |]|]; simpl; try discriminate.
  destruct (assoc "supply" props) as [[| |n| | |]|]; simpl; try discriminate.
  destruct (assoc "action" props) as [[| | |a| |]|]; simpl; try discriminate.
  intros _. eexists. split; [reflexivity|]. simpl. auto.
Qed.

Lemma read_steps_shape (vs : list value) :
  forallb step_shape_b vs = true ->
  Forall2 (fun v st =>
             get v "time" = Some (JStr (time st)) /\
             get v "supply" = Some (JNum (supply st)) /\
             get v "action" = Some (JStr (action st)))
          vs (read_steps vs).
Proof.
  induction vs as [|v vs IH]; simpl; [constructor|].
  intros H. apply andb_true_iff in H. destruct H as [Hv Hvs].
  destruct (read_step_shape v Hv) as (st & -> & Hfields).
  constructor; [exact Hfields | apply IH; exact Hvs].
Qed.

(** X8: on a document that [validateBuild] accepts, the projector finds every
    step of [steps], in order, with the [time], [supply] and [action] it
    reads: no step is lost and no field is missing. *)
Theorem validated_steps_are_read (json : value) :
  validateBuild json = true ->
  exists vs,
    get json "steps" = Some (JArr vs) /\
    List.length (enrichedSteps (build_steps json)) = List.length vs /\
    Forall2 (fun v st =>
               get v "time" = Some (JStr (time st)) /\
               get v "supply" = Some (JNum (supply st)) /\
               get v "action" = Some (JStr (action st)))
            vs (build_steps json).
Proof.
  rewrite validateBuild_tests. intros H.
  apply andb_true_iff in H. destruct H as [_ H].
  unfold build_steps.
  destruct (get json "steps") as [[| | | |vs|]|]; try discriminate.
  exists vs. pose proof (read_steps_shape vs H) as HF.
  split; [reflexivity|]. split; [|exact HF].
  rewrite enrichedSteps_length. simpl. symmetry.
  exact (Forall2_length HF).
Qed.

Lemma validated_steps_are_read_witness :
  exists vs,
    get DEFAULT_BUILD "steps" = Some (JArr vs) /\
    List.length (enrichedSteps (build_steps DEFAULT_BUILD)) = List.length vs.
Proof.
  destruct (validated_steps_are_read DEFAULT_BUILD eq_refl) as (vs & H1 & H2 & _).
  exists vs. split; assumption.
Defined.

(** ** Loading *)

Lemma delivered_or_fails (a : Attempt) :
  match delivered a with
  | Some json => validateBuild json = true
  | None => fails a
  end.
Proof.
  destruct a as [buildId [msg | [|] [msg | json]]
                | url [msg | [|] [msg | json]]
                | [[fname [msg | json]]|]]; simpl;
    try (constructor; fail).
  - destruct (validateBuild json) eqn:V; [exact V | constructor; exact V].
  - destruct (validateBuild json) eqn:V; [exact V | constructor; exact V].
  - destruct (endsWith ".json" (toLowerCase fname)) eqn:E.
    + eapply file_parse_error. reflexivity.
    + apply file_wrong_name. exact E.
  - destruct (endsWith ".json" (toLowerCase fname)) eqn:E.
    + destruct (validateBuild json) eqn:V; [exact V|].
      eapply file_validation_error; [reflexivity | exact V].
    + apply file_wrong_name. exact E.
Qed.

Lemma load_delivered (st : State) (a : Attempt) (json : value) :
  delivered a = Some json ->
  let st' := exec (load a) st in
  build st' = json /\ buildRef st' = S (buildRef st) /\
  seconds st' = 0%N /\ running st' = false /\
  errorMessage st' = "" /\ successMessage st' = "Build Loaded" /\
  muted st' = muted st.
Proof.
  destruct a as [buildId [msg | [|] [msg | j]]
                | url [msg | [|] [msg | j]]
                | [[fname [msg | j]]|]]; simpl; try discriminate.
  - destruct (validateBuild j) eqn:V; [|discriminate]. intros H.
    injection H as <-. run_handler. rewrite V. cbn. repeat split.
  - destruct (validateBuild j) eqn:V; [|discriminate]. intros H.
    injection H as <-. run_handler. rewrite V. cbn. repeat split.
  - destruct (endsWith ".json" (toLowerCase fname)) eqn:E; discriminate.
  - destruct (endsWith ".json" (toLowerCase fname)) eqn:E; [|discriminate].
    destruct (validateBuild j) eqn:V; [|discriminate]. intros H.
    injection H as <-. run_handler. rewrite E. cbn. rewrite V. cbn.
    repeat split.
Qed.

Lemma load_split (a : Attempt) (st : State) :
  exec (load a) st = exec (load_resume a) (exec (load_begin a) st).
Proof.
  destruct a as [buildId [msg | [|] [msg | j]]
                | url [msg | [|] [msg | j]]
                | [[fname [msg | j]]|]]; run_parts;
    repeat (match goal with
            | |- context [validateBuild ?j] => destruct (validateBuild j)
            | |- context [endsWith ?x ?y] => destruct (endsWith x y)
            end; cbn);
    reflexivity.
Qed.

Lemma delivered_awaits (a : Attempt) (json : value) :
  delivered a = Some json -> awaits a = true.
Proof.
  destruct a as [buildId net | url net | [f|]]; simpl; try reflexivity;
    [|discriminate].
  destruct (endsWith ".json" (toLowerCase (name f))); [reflexivity | discriminate].
Qed.

Lemma resume_delivered (st : State) (a : Attempt) (json : value) :
  delivered a = Some json ->
  let st' := exec (load_resume a) st in
  build st' = json /\ buildRef st' = S (buildRef st) /\
  seconds st' = 0%N /\ running st' = false /\
  successMessage st' = "Build Loaded" /\
  errorMessage st' = errorMessage st /\
  muted st' = muted st.
Proof.
  destruct a as [buildId [msg | [|] [msg | j]]
                | url [msg | [|] [msg | j]]
                | [[fname [msg | j]]|]]; simpl; try discriminate.
  - destruct (validateBuild j) eqn:V; [|discriminate]. intros H.
    injection H as <-. run_parts. rewrite V. cbn. repeat split.
  - destruct (validateBuild j) eqn:V; [|discriminate]. intros H.
    injection H as <-. run_parts. rewrite V. cbn. repeat split.
  - destruct (endsWith ".json" (toLowerCase fname)) eqn:E; discriminate.
  - destruct (endsWith ".json" (toLowerCase fname)) eqn:E; [|discriminate].
    destruct (validateBuild j) eqn:V; [|discriminate]. intros H.
    injection H as <-. run_parts. rewrite ?E. cbn. rewrite V. cbn.
    repeat split.
Qed.

Lemma begin_clears (st : State) (a : Attempt) :
  awaits a = true ->
  let st' := exec (load_begin a) st in
  errorMessage st' = "" /\ successMessage st' = "" /\
  build st' = build st /\ buildRef st' = buildRef st /\
  seconds st' = seconds st /\ running st' = running st /\
  muted st' = muted st.
Proof.
  destruct a as [buildId net | url net | [f|]]; simpl; try discriminate;
    intros H; run_parts; try rewrite H; cbn; repeat split.
Qed.

Lemma resume_fails (st : State) (a : Attempt) :
  awaits a = true -> fails a ->
  let st' := exec (load_resume a) st in
  errorMessage st' <> "" /\ successMessage st' = successMessage st /\
  build st' = build st /\ buildRef st' = buildRef st /\
  seconds st' = seconds st /\ running st' = running st.
Proof.
  destruct a as [buildId net | url net | file]; simpl; intros Ha H.
  - destruct H as [msg | body | msg | json Hv]; run_parts;
      try rewrite Hv; cbn; repeat split; try reflexivity;
      try (apply or_else_nonempty; discriminate); discriminate.
  - destruct H as [msg | body | msg | json Hv]; run_parts;
      try rewrite Hv; cbn; repeat split; try reflexivity;
      try (apply or_else_nonempty; discriminate); discriminate.
  - destruct H as [| f Hn | f msg Hc | f json Hc Hv]; try discriminate.
    + congruence.
    + run_parts. rewrite ?Ha. cbn. rewrite Hc. cbn. repeat split.
      apply or_else_nonempty. discriminate.
    + run_parts. rewrite ?Ha. cbn. rewrite Hc. cbn. rewrite Hv. cbn.
      repeat split. discriminate.
Qed.

Lemma begin_ends (st : State) (a : Attempt) :
  awaits a = false ->
  fails a /\ delivered a = None /\
  errorMessage (exec (load_begin a) st) <> "" /\
  successMessage (exec (load_begin a) st) = "" /\
  build (exec (load_begin a) st) = build st /\
  (forall st1, exec (load_resume a) st1 = st1).
Proof.
  destruct a as [buildId net | url net | [f|]]; simpl; try discriminate;
    intros H.
  - split; [apply file_wrong_name; exact H|]. rewrite H.
    split; [reflexivity|]. run_parts. rewrite ?H. cbn.
    repeat split; try discriminate.
  - split; [constructor|]. split; [reflexivity|]. run_parts.
    repeat split; try discriminate.
Qed.

Lemma fails_not_delivered (a : Attempt) : fails a -> delivered a = None.
Proof.
  destruct a as [buildId net | url net | file]; simpl; intros H.
  - destruct H as [msg | body | msg | json Hv]; simpl; try reflexivity.
    rewrite Hv. reflexivity.
  - destruct H as [msg | body | msg | json Hv]; simpl; try reflexivity.
    rewrite Hv. reflexivity.
  - destruct H as [| f Hn | f msg Hc | f json Hc Hv]; simpl.
    + reflexivity.
    + rewrite Hn. reflexivity.
    + rewrite Hc. destruct (endsWith ".json" (toLowerCase (name f))); reflexivity.
    + rewrite Hc, Hv. destruct (endsWith ".json" (toLowerCase (name f))); reflexivity.
Qed.

Lemma load_outcome (st : State) (a : Attempt) :
  (exists json, delivered a = Some json /\
                errorMessage (exec (load a) st) = "" /\
                successMessage (exec (load a) st) = "Build Loaded") \/
  (delivered a = None /\
   errorMessage (exec (load a) st) <> "" /\
   successMessage (exec (load a) st) = "" /\
   build (exec (load a) st) = build st /\
   buildRef (exec (load a) st) = buildRef st).
Proof.
  pose proof (delivered_or_fails a) as H.
  destruct (delivered a) as [json|] eqn:D.
  - left. exists json.
    destruct (load_delivered st a json D) as (_ & _ & _ & _ & H5 & H6 & _).
    auto.
  - right. split; [reflexivity|].
    destruct a as [buildId net | url net | file]; simpl in H |- *.
    + destruct (failed_fetch_local st buildId net H) as (Hb & Hr & _ & _ & He).
      repeat split; try assumption.
      destruct H; run_handler; try rewrite H; reflexivity.
    + destruct (failed_fetch_link st url net H) as (Hb & Hr & _ & _ & He).
      repeat split; try assumption.
      destruct H; run_handler; try rewrite H; reflexivity.
    + destruct (failed_file st file H) as (Hb & Hr & _ & _ & He).
      repeat split; try assumption.
      destruct H as [| f Hn | f msg Hc | f json Hc Hv]; run_handler.
      * reflexivity.
      * rewrite Hn. reflexivity.
      * destruct (endsWith ".json" (toLowerCase (name f))); cbn;
          [rewrite Hc|]; reflexivity.
      * destruct (endsWith ".json" (toLowerCase (name f))); cbn;
          [rewrite Hc; cbn; rewrite Hv|]; reflexivity.
Qed.

(** X9: a load attempt that passes every check reaches its [await]; when
    the result arrives, in whatever state the handlers that ran in between
    have left, it stores the document as it was parsed, sets the elapsed
    seconds to 0, stops the clock and sets the success message, keeps the
    mute setting and leaves the error message as it finds it.  The call had
    cleared the error message and touched neither document nor clock, so
    the error message is empty when nothing ran in between. *)
Theorem successful_load_replaces_and_resets (a : Attempt) (json : value) :
  delivered a = Some json ->
  validateBuild json = true /\
  awaits a = true /\
  (forall st : State,
      build (exec (load_resume a) st) = json /\
      seconds (exec (load_resume a) st) = 0%N /\
      running (exec (load_resume a) st) = false /\
      successMessage (exec (load_resume a) st) = "Build Loaded" /\
      errorMessage (exec (load_resume a) st) = errorMessage st /\
      muted (exec (load_resume a) st) = muted st) /\
  (forall st : State,
      errorMessage (exec (load_begin a) st) = "" /\
      build (exec (load_begin a) st) = build st /\
      seconds (exec (load_begin a) st) = seconds st /\
      running (exec (load_begin a) st) = running st) /\
  (forall st : State,
      exec (load a) st = exec (load_resume a) (exec (load_begin a) st) /\
      errorMessage (exec (load_resume a) (exec (load_begin a) st)) = "").
Proof.
  intros H. pose proof (delivered_or_fails a) as Hv. rewrite H in Hv.
  pose proof (delivered_awaits a json H) as Ha.
  split; [exact Hv|]. split; [exact Ha|]. split; [|split].
  - intros st.
    destruct (resume_delivered st a json H) as (H1 & _ & H3 & H4 & H5 & H6 & H7).
    repeat split; assumption.
  - intros st.
    destruct (begin_clears st a Ha) as (H1 & _ & H3 & _ & H5 & H6 & _).
    repeat split; assumption.
  - intros st. split; [apply load_split|].
    destruct (resume_delivered (exec (load_begin a) st) a json H)
      as (_ & _ & _ & _ & _ & H6 & _).
    rewrite H6. apply (begin_clears st a Ha).
Qed.

Lemma successful_load_replaces_and_resets_witness :
  errorMessage arrival_after_registry_miss = "Build not found" /\
  build (exec (load_resume link_of_two_steps) arrival_after_registry_miss)
    = two_steps /\
  errorMessage (exec (load_resume link_of_two_steps) arrival_after_registry_miss)
    = "Build not found" /\
  seconds (exec (load_resume link_of_two_steps) arrival_after_registry_miss)
    = 0%N.
Proof.
  destruct (successful_load_replaces_and_resets link_of_two_steps two_steps
              eq_refl) as (_ & _ & H & _).
  destruct (H arrival_after_registry_miss) as (H1 & H2 & _ & _ & H5 & _).
  split; [reflexivity|]. split; [exact H1|]. split; [|exact H2].
  rewrite H5. reflexivity.
Defined.

(** X10: when a load attempt ends, the page shows exactly one of the two
    banners, whatever ran while the loader waited.  After the part that
    runs on arrival of the result, the error banner shows if the attempt
    failed; if the document was stored, the error banner is as it was on
    arrival and the success banner shows exactly when the error banner does
    not.  An attempt that ends before any [await] shows the error banner.
    When nothing runs between the two parts, the success banner shows
    exactly when the document was stored and the error banner exactly when
    the attempt failed. *)
Theorem load_shows_one_banner (a : Attempt) :
  (awaits a = true ->
   forall st : State,
     showsSuccess (exec (load_resume a) st)
       = negb (showsError (exec (load_resume a) st)) /\
     (fails a -> showsError (exec (load_resume a) st) = true) /\
     (delivered a <> None ->
      showsError (exec (load_resume a) st) = showsError st)) /\
  (awaits a = false ->
   fails a /\
   forall st : State,
     showsError (exec (load_begin a) st) = true /\
     showsSuccess (exec (load_begin a) st) = false /\
     exec (load_resume a) (exec (load_begin a) st) = exec (load_begin a) st) /\
  (forall st : State,
     let st' := exec (load_resume a) (exec (load_begin a) st) in
     exec (load a) st = st' /\
     showsSuccess st' = negb (showsError st') /\
     (showsSuccess st' = true <-> delivered a <> None) /\
     (showsError st' = true <-> fails a)).
Proof.
  pose proof (delivered_or_fails a) as Hd.
  split; [|split].
  - intros Ha st. unfold showsSuccess, showsError.
    destruct (delivered a) as [json|] eqn:D.
    + destruct (resume_delivered st a json D) as (_ & _ & _ & _ & Hs & He & _).
      rewrite Hs, He. simpl. rewrite negb_involutive.
      split; [reflexivity|]. split; [|reflexivity].
      intros Hf. apply fails_not_delivered in Hf. congruence.
    + destruct (resume_fails st a Ha Hd) as (He & _).
      destruct (String.eqb_spec (errorMessage (exec (load_resume a) st)) "");
        [contradiction|].
      rewrite andb_false_r. simpl.
      split; [reflexivity|]. split; [reflexivity | congruence].
  - intros Ha. split; [apply (begin_ends (initial None) a Ha)|].
    intros st. destruct (begin_ends st a Ha) as (_ & _ & He & Hs & _ & Hr).
    unfold showsSuccess, showsError. rewrite Hs.
    destruct (String.eqb_spec (errorMessage (exec (load_begin a) st)) "");
      [contradiction|].
    split; [reflexivity|]. split; [reflexivity | apply Hr].
  - intros st. cbv zeta. rewrite <- load_split. split; [reflexivity|].
    unfold showsSuccess, showsError.
    destruct (load_outcome st a) as [(json & D & He & Hs) | (D & He & Hs & _)].
    + rewrite He, Hs, D in *. simpl. split; [reflexivity|]. split.
      * split; [discriminate | reflexivity].
      * split; [discriminate|]. intros Hf. exfalso.
        apply fails_not_delivered in Hf. congruence.
    + rewrite Hs, D in *. simpl.
      destruct (String.eqb_spec (errorMessage (exec (load a) st)) "");
        [contradiction|]. simpl. split; [reflexivity|]. split.
      * split; [discriminate | congruence].
      * split; [intros _; exact Hd | reflexivity].
Qed.

Lemma load_shows_one_banner_witness :
  showsError (exec (load_resume registry_miss)
                (exec (load_begin link_of_two_steps) (initial None))) = true /\
  showsError (exec (load_begin (FromFile None)) (initial None)) = true.
Proof.
  split.
  - apply (proj1 (load_shows_one_banner registry_miss) eq_refl).
    simpl. constructor.
  - apply (proj2 (proj1 (proj2 (load_shows_one_banner (FromFile None))) eq_refl)).
Defined.

(** ** Runs of events *)

Lemma load_keeps_muted (st : State) (a : Attempt) :
  muted (exec (load a) st) = muted st.
Proof.
  destruct (load_outcome st a) as [(json & D & _) | (D & _)].
  - apply (load_delivered st a json D).
  - destruct a as [buildId net | url net | file]; simpl in D |- *.
    + destruct net as [msg | ok [msg | j]]; run_handler; try reflexivity;
        destruct ok; cbn; try reflexivity;
        destruct (validateBuild j); reflexivity.
    + destruct net as [msg | ok [msg | j]]; run_handler; try reflexivity;
        destruct ok; cbn; try reflexivity;
        destruct (validateBuild j); reflexivity.
    + destruct file as [[fname [msg | j]]|]; run_handler; try reflexivity;
        destruct (endsWith ".json" (toLowerCase fname)); cbn; try reflexivity;
        destruct (validateBuild j); reflexivity.
Qed.

Lemma next_build (st : State) (ev : Event) :
  build (next st ev) = build st \/ validateBuild (build (next st ev)) = true.
Proof.
  destruct ev as [| | | | | a]; unfold next, exec, handle;
    try (left; reflexivity).
  - left. destruct (running st); reflexivity.
  - fold (exec (load a) st).
    destruct (load_outcome st a) as [(json & D & _) | (_ & _ & _ & Hb & _)].
    + right. pose proof (delivered_or_fails a) as Hv. rewrite D in Hv.
      destruct (load_delivered st a json D) as (-> & _). exact Hv.
    + left. exact Hb.
Qed.

(** X11: the active document stays one that [validateBuild] accepts along every
    run of events, loads included. *)
Theorem active_document_stays_valid (st : State) (evs : list Event) :
  validateBuild (build st) = true ->
  validateBuild (build (after st evs)) = true.
Proof.
  unfold after. revert st. induction evs as [|ev evs IH]; intros st H.
  - exact H.
  - simpl. apply IH.
    destruct (next_build st ev) as [-> | Hv]; assumption.
Qed.

Lemma active_document_stays_valid_witness :
  validateBuild
    (build (after (initial None)
              [Start; Tick; LoadDoc (FromFile (Some two_steps_file)); Tick;
               LoadDoc (LocalBuild "x" (Response true (Json wrong_step_0)))]))
  = true.
Proof.
  apply (active_document_stays_valid (initial None)). reflexivity.
Defined.

Lemma next_seconds (st : State) (ev : Event) :
  keeps_clock ev = true ->
  seconds (next st ev) =
  if is_tick ev && running st then (seconds st + 1)%N else seconds st.
Proof.
  destruct ev; try discriminate; intros _; unfold next, exec, handle; cbn;
    try reflexivity.
  destruct (running st); reflexivity.
Qed.

(** X12: without a reset and without a load, the elapsed seconds never go back,
    and they advance by at most one for each tick of the run. *)
Theorem clock_moves_forward_by_ticks (st : State) (evs : list Event) :
  forallb keeps_clock evs = true ->
  (seconds st <= seconds (after st evs))%N /\
  (seconds (after st evs)
   <= seconds st + N.of_nat (List.length (filter is_tick evs)))%N.
Proof.
  unfold after. revert st. induction evs as [|ev evs IH]; intros st H.
  - simpl. lia.
  - simpl in H. apply andb_true_iff in H. destruct H as [Hev Hevs].
    simpl fold_left. specialize (IH (next st ev) Hevs).
    rewrite (next_seconds st ev Hev) in IH.
    cbn [filter]. destruct (is_tick ev); simpl in *.
    + destruct (running st); lia.
    + lia.
Qed.

Lemma clock_moves_forward_by_ticks_witness :
  (seconds (after (initial None) [Start; Tick; Pause; Tick; ToggleMute]) <= 2)%N.
Proof.
  exact (proj2 (clock_moves_forward_by_ticks (initial None)
                  [Start; Tick; Pause; Tick; ToggleMute] eq_refl)).
Defined.


Lemma next_muted (st : State) (ev : Event) :
  is_toggle ev = false -> muted (next st ev) = muted st.
Proof.
  destruct ev as [| | | | | a]; try discriminate; intros _;
    unfold next, exec, handle; try reflexivity.
  - destruct (running st); reflexivity.
  - apply load_keeps_muted.
Qed.

(** X14: while the sound is muted nothing is played: along a run of events
    without a mute toggle, loads and resets included, a muted component
    makes no notification. *)
Theorem muted_run_is_silent (st : State) (evs : list Event) :
  muted st = true ->
  forallb (fun ev => negb (is_toggle ev)) evs = true ->
  run st evs = [].
Proof.
  revert st. induction evs as [|ev evs IH]; intros st Hm H; [reflexivity|].
  simpl in H. apply andb_true_iff in H. destruct H as [Hev Hevs].
  apply negb_true_iff in Hev.
  pose proof (next_muted st ev Hev) as Hm'. rewrite Hm in Hm'.
  simpl. rewrite (IH (next st ev) Hm' Hevs), List.app_nil_r.
  unfold render_plays. rewrite played_last_done, Hm'. simpl.
  rewrite andb_false_r. reflexivity.
Qed.

Lemma muted_run_is_silent_witness :
  run (next two_steps_started ToggleMute)
      [Tick; Tick; Tick; Pause; ResetClock; Start; Tick; Tick; Tick] = [].
Proof.
  apply (muted_run_is_silent (next two_steps_started ToggleMute));
    reflexivity.
Defined.

(** ** The address fetched by the link loader *)

Lemma prefix_app (p b : string) : String.prefix p (p ++ b) = true.
Proof.
  induction p as [|c p IH]; simpl; [destruct b; reflexivity|].
  destruct (Ascii.ascii_dec c c); [exact IH | congruence].
Qed.

Lemma dropText_app (p b : string) : dropText (String.length p) (p ++ b) = b.
Proof. induction p as [|c p IH]; simpl; [reflexivity | exact IH]. Qed.

Lemma prefix_app_long (p x y : string) :
  (String.length p <= String.length x)%nat ->
  String.prefix p (x ++ y) = String.prefix p x.
Proof.
  revert x. induction p as [|c p IH]; intros x H.
  - destruct x, y; reflexivity.
  - destruct x as [|d x]; [simpl in H; lia|].
    simpl. destruct (Ascii.ascii_dec c d); [|reflexivity].
    apply IH. simpl in H. lia.
Qed.

Lemma length_append (a b : string) :
  String.length (a ++ b) = (String.length a + String.length b)%nat.
Proof. induction a as [|c a IH]; simpl; [reflexivity | rewrite IH; reflexivity]. Qed.


Lemma includesText_cons (p : string) (c : ascii) (s : string) :
  includesText p (String c s) = String.prefix p (String c s) || includesText p s.
Proof. reflexivity. Qed.

Lemma includesText_prefix (p s : string) :
  String.prefix p s = true -> includesText p s = true.
Proof. intros H. destruct s; cbn [includesText]; rewrite H; reflexivity. Qed.

Lemma includesText_app (p a b : string) :
  includesText p (a ++ p ++ b) = true.
Proof.
  induction a as [|c a IH].
  - change ("" ++ p ++ b)%string with (p ++ b)%string.
    apply includesText_prefix, prefix_app.
  - simpl append. rewrite includesText_cons, IH. apply orb_true_r.
Qed.

Lemma replaceFirst_absent (p r s : string) :
  includesText p s = false -> replaceFirst p r s = s.
Proof.
  induction s as [|c s IH]; cbn [includesText replaceFirst].
  - intros H. rewrite orb_false_r in H. rewrite H. reflexivity.
  - intros H. apply orb_false_iff in H. destruct H as [H1 H2].
    rewrite H1, (IH H2). reflexivity.
Qed.

Lemma replaceFirst_start (p r b : string) :
  replaceFirst p r (p ++ b) = (r ++ b)%string.
Proof.
  pose proof (prefix_app p b) as H. pose proof (dropText_app p b) as D.
  destruct (p ++ b)%string; cbn [replaceFirst]; rewrite H, D; reflexivity.
Qed.

(** The first occurrence of a pattern [q ++ l]: if the pattern does not
    begin anywhere in [a], then in [a ++ q ++ l ++ b] it is the occurrence
    after [a] that is replaced. *)
Lemma replaceFirst_first (q : string) (l : ascii) (r a b : string) :
  includesText (q ++ String l "") (a ++ q) = false ->
  replaceFirst (q ++ String l "") r (a ++ (q ++ String l "") ++ b)
  = (a ++ r ++ b)%string.
Proof.
  induction a as [|c a IH]; intros H.
  - exact (replaceFirst_start (q ++ String l "") r b).
  - simpl append in *. rewrite includesText_cons in H.
    apply orb_false_iff in H. destruct H as [H1 H2].
    cbn [replaceFirst].
    assert (Hp : String.prefix (q ++ String l "")
                   (String c (a ++ (q ++ String l "") ++ b)) = false).
    { rewrite <- H1.
      replace (String c (a ++ (q ++ String l "") ++ b))
        with (String c (a ++ q) ++ (String l "" ++ b))%string.
      - apply prefix_app_long. simpl. rewrite !length_append. simpl. lia.
      - simpl. rewrite !append_assoc. reflexivity. }
    rewrite Hp, (IH H2). reflexivity.
Qed.

(** X15: the address of a GitHub page of a file,
    [https://github.com/<path>/blob/<rest>], is fetched at
    [https://raw.githubusercontent.com/<path>/<rest>], provided [/blob/]
    does not already begin inside [/<path>/blob]. *)
Theorem fetchUrl_github_page (path rest : string) :
  includesText "/blob/"
    ("https://raw.githubusercontent.com/" ++ path ++ "/blob") = false ->
  fetchUrl ("https://github.com/" ++ path ++ "/blob/" ++ rest)
  = ("https://raw.githubusercontent.com/" ++ path ++ "/" ++ rest)%string.
Proof.
  intros H. unfold fetchUrl.
  assert (H1 : includesText "github.com"
                 ("https://github.com/" ++ path ++ "/blob/" ++ rest) = true).
  { change ("https://github.com/" ++ path ++ "/blob/" ++ rest)%string
      with ("https://" ++ "github.com" ++ ("/" ++ path ++ "/blob/" ++ rest))%string.
    apply includesText_app. }
  assert (H2 : includesText "/blob/"
                 ("https://github.com/" ++ path ++ "/blob/" ++ rest) = true).
  { rewrite <- append_assoc. apply includesText_app. }
  rewrite H1, H2. cbn [andb].
  rewrite replaceFirst_start.
  rewrite <- (append_assoc "https://raw.githubusercontent.com/" path).
  rewrite <- (append_assoc "https://raw.githubusercontent.com/" path) in H.
  exact (replaceFirst_first "/blob" "/" "/"
           ("https://raw.githubusercontent.com/" ++ path) rest H).
Qed.

Lemma fetchUrl_github_page_witness :
  fetchUrl "https://github.com/kylermurphy/sc2-waterfall/blob/main/b.json"
  = "https://raw.githubusercontent.com/kylermurphy/sc2-waterfall/main/b.json".
Proof.
  exact (fetchUrl_github_page "kylermurphy/sc2-waterfall" "main/b.json" eq_refl).
Defined.

(** X16: an address that names GitHub without the [https] scheme is only
    shortened: [/blob/] goes and the host stays [github.com], so the page,
    not the raw file, is fetched. *)
Theorem fetchUrl_other_scheme (url before rest : string) :
  includesText "github.com" url = true ->
  includesText "https://github.com/" url = false ->
  url = (before ++ "/blob/" ++ rest)%string ->
  includesText "/blob/" (before ++ "/blob") = false ->
  fetchUrl url = (before ++ "/" ++ rest)%string.
Proof.
  intros Hg Hs -> Hb. unfold fetchUrl.
  rewrite Hg, includesText_app. cbn [andb].
  rewrite (replaceFirst_absent _ _ _ Hs).
  exact (replaceFirst_first "/blob" "/" "/" before rest Hb).
Qed.

Lemma fetchUrl_other_scheme_witness :
  fetchUrl "http://github.com/u/r/blob/main/b.json"
  = "http://github.com/u/r/main/b.json".
Proof.
  exact (fetchUrl_other_scheme "http://github.com/u/r/blob/main/b.json"
           "http://github.com/u/r" "main/b.json"
           eq_refl eq_refl eq_refl eq_refl).
Defined.

(** ** Heading anchors of the tutorial page *)

Lemma prefix_nil (s : string) : String.prefix "" s = true.
Proof. destruct s; reflexivity. Qed.

Lemma prefix_cons (c d : ascii) (p s : string) :
  String.prefix (String c p) (String d s) =
  if Ascii.eqb c d then String.prefix p s else false.
Proof.
  cbn [String.prefix]. destruct (Ascii.ascii_dec c d) as [-> | n].
  - rewrite Ascii.eqb_refl. reflexivity.
  - apply Ascii.eqb_neq in n. rewrite n. reflexivity.
Qed.

Lemma slug_char_not_hyphen (c : ascii) (s : string) :
  is_slug_char c = true -> String.prefix "-" (String c s) = false.
Proof.
  intros H. rewrite prefix_cons.
  destruct (Ascii.eqb_spec "-"%char c) as [<- | _]; [discriminate H | reflexivity].
Qed.

Lemma prefix_hyphens (c : ascii) (s : string) :
  String.prefix "--" (String c s) =
  String.prefix "-" (String c s) && String.prefix "-" s.
Proof.
  rewrite !prefix_cons, prefix_nil.
  destruct (Ascii.eqb "-"%char c); reflexivity.
Qed.

Lemma replaceRuns_shape (s : string) (b : bool) :
  Forall anchor_char (list_ascii_of_string (replaceRuns b s)) /\
  includesText "--" (replaceRuns b s) = false /\
  (b = true -> String.prefix "-" (replaceRuns b s) = false).
Proof.
  revert b. induction s as [|c s IH]; intros b.
  - simpl. split; [constructor|]. split; [reflexivity|]. intros _. reflexivity.
  - simpl. destruct (is_slug_char c) eqn:C.
    + destruct (IH false) as (H1 & H2 & _). split; [|split].
      * simpl. constructor; [left; exact C | exact H1].
      * rewrite includesText_cons, prefix_hyphens, (slug_char_not_hyphen _ _ C).
        exact H2.
      * intros _. apply slug_char_not_hyphen. exact C.
    + destruct b.
      * apply IH.
      * destruct (IH true) as (H1 & H2 & H3). split; [|split].
        -- simpl. constructor; [right; reflexivity | exact H1].
        -- rewrite includesText_cons, prefix_hyphens, (H3 eq_refl), andb_false_r.
           exact H2.
        -- discriminate.
Qed.

(** X17: a heading anchor is made of the characters [a-z], [0-9] and the hyphen
    only, and never has two hyphens in a row. *)
Theorem headingId_shape (text : string) :
  Forall (fun c => is_slug_char c = true \/ c = "-"%char)
         (list_ascii_of_string (headingId text)) /\
  includesText "--" (headingId text) = false.
Proof.
  destruct (replaceRuns_shape (toLowerCase text) false) as (H1 & H2 & _).
  split; assumption.
Qed.

Lemma lower_anchor_char (c : ascii) : anchor_char c -> lower c = c.
Proof.
  intros [H | ->]; [|reflexivity].
  unfold is_slug_char in H. unfold lower.
  destruct ((65 <=? N_of_ascii c)%N && (N_of_ascii c <=? 90)%N
            || (192 <=? N_of_ascii c)%N && (N_of_ascii c <=? 222)%N
               && negb (N_of_ascii c =? 215)%N) eqn:E; [|reflexivity].
  exfalso.
  repeat match type of H with
  | context [(?a <=? ?b)%N] => destruct (N.leb_spec a b)
  end; simpl in H; try discriminate;
  repeat match type of E with
  | context [(?a <=? ?b)%N] => destruct (N.leb_spec a b)
  end; simpl in E; try discriminate; lia.
Qed.

Lemma toLowerCase_anchor (s : string) :
  Forall anchor_char (list_ascii_of_string s) -> toLowerCase s = s.
Proof.
  induction s as [|c s IH]; simpl; [reflexivity|].
  intros H. inversion H as [|? ? Hc Hs]; subst.
  rewrite (lower_anchor_char c Hc), (IH Hs). reflexivity.
Qed.

Lemma replaceRuns_fixed (s : string) (b : bool) :
  Forall anchor_char (list_ascii_of_string s) ->
  includesText "--" s = false ->
  (b = true -> String.prefix "-" s = false) ->
  replaceRuns b s = s.
Proof.
  revert b. induction s as [|c s IH]; intros b Hc Hh Hb; [reflexivity|].
  simpl in Hc. inversion Hc as [|? ? Hc0 Hcs]; subst.
  rewrite includesText_cons in Hh. apply orb_false_iff in Hh.
  destruct Hh as [Hp Hh]. rewrite prefix_hyphens in Hp.
  simpl. destruct (is_slug_char c) eqn:C.
  - rewrite (IH false Hcs Hh); [reflexivity | discriminate].
  - destruct Hc0 as [Hc0 | ->]; [congruence|].
    rewrite prefix_cons, prefix_nil in Hp. cbn in Hp.
    destruct b.
    + specialize (Hb eq_refl). rewrite prefix_cons, prefix_nil in Hb.
      discriminate.
    + rewrite (IH true Hcs Hh); [reflexivity|].
      intros _. exact Hp.
Qed.

(** X18: taking the anchor of an anchor changes nothing: the anchors that the
    sidebar links to are fixed points of the function that the [h2]
    renderer applies. *)
Theorem headingId_idempotent (text : string) :
  headingId (headingId text) = headingId text.
Proof.
  destruct (replaceRuns_shape (toLowerCase text) false) as (H1 & H2 & _).
  unfold headingId at 1. fold (headingId text) in H1, H2.
  rewrite (toLowerCase_anchor _ H1).
  apply replaceRuns_fixed; [exact H1 | exact H2 | discriminate].
Qed.

Lemma dropSpaces_split (s : string) :
  exists spaces,
    s = (spaces ++ dropSpaces s)%string /\
    Forall (fun c => Str.is_ws c = true) (list_ascii_of_string spaces) /\
    match dropSpaces s with
    | String c _ => Str.is_ws c = false
    | EmptyString => True
    end.
Proof.
  induction s as [|c s IH].
  - exists "". simpl. repeat split. constructor.
  - simpl. destruct (Str.is_ws c) eqn:W.
    + destruct IH as (sp & Hs & Hw & Hd). exists (String c sp).
      split; [simpl; rewrite <- Hs; reflexivity|].
      split; [simpl; constructor; assumption | exact Hd].
    + exists "". split; [reflexivity|]. split; [constructor | exact W].
Qed.

Lemma prefix_append (p s : string) :
  String.prefix p s = true -> exists r, s = (p ++ r)%string.
Proof.
  revert s. induction p as [|c p IH]; intros s H.
  - exists s. reflexivity.
  - destruct s as [|d s]; [discriminate H|].
    rewrite prefix_cons in H.
    destruct (Ascii.eqb_spec c d) as [<-|]; [|discriminate].
    destruct (IH s H) as [r ->]. exists r. reflexivity.
Qed.

(** X19: every entry of the sidebar comes from a line of the markdown that
    starts with two hash signs and a space: its text is that line without
    the hash signs and the white space after them, so it never starts with
    white space, and its anchor is [headingId] of that text. *)
Theorem headings_entries (markdown text id : string) :
  In (text, id) (headings markdown) ->
  id = headingId text /\
  (exists line spaces,
      In line (Str.split "010" markdown) /\
      line = ("##" ++ spaces ++ text)%string /\
      spaces <> "" /\
      Forall (fun c => Str.is_ws c = true) (list_ascii_of_string spaces)) /\
  match text with
  | String c _ => Str.is_ws c = false
  | EmptyString => True
  end.
Proof.
  unfold headings. intros H. apply in_map_iff in H.
  destruct H as (line & Heq & Hin). apply filter_In in Hin.
  destruct Hin as [Hin Hstart]. injection Heq as Ht Hi.
  split; [congruence|].
  unfold startsWith in Hstart. apply prefix_append in Hstart.
  destruct Hstart as [r ->].
  change ("## " ++ r)%string with (String "#" (String "#" (String " " r))) in *.
  simpl in Ht. subst text.
  destruct (dropSpaces_split r) as (sp & Hr & Hw & Hd).
  split; [|exact Hd].
  exists (String "#" (String "#" (String " " r))), (String " " sp).
  split; [exact Hin|]. split; [simpl; rewrite <- Hr; reflexivity|].
  split; [discriminate|]. simpl. constructor; [reflexivity | exact Hw].
Qed.

Lemma headings_entries_witness :
  headingId "1. Base Structure" = "1-base-structure" /\
  In ("1. Base Structure", "1-base-structure")
     (headings "# T
## 1. Base Structure
text
##  2. Build Steps").
Proof.
  assert (Hin : In ("1. Base Structure", "1-base-structure")
     (headings "# T
## 1. Base Structure
text
##  2. Build Steps")) by (vm_compute; left; reflexivity).
  split; [|exact Hin].
  symmetry. exact (proj1 (headings_entries _ _ _ Hin)).
Defined.

(** ** The loaders of the first version *)

Lemma valid_has_steps (json : value) :
  validateBuild json = true ->
  exists props vs, json = JObj props /\ assoc "steps" props = Some (JArr vs).
Proof.
  rewrite validateBuild_tests. intros H.
  apply andb_true_iff in H. destruct H as [H Hs].
  destruct json as [| | | | |props];
    try (simpl in Hs; discriminate Hs).
  simpl in Hs. destruct (assoc "steps" props) as [[| | | |vs|]|] eqn:E;
    try discriminate Hs.
  exists props, vs. split; [reflexivity | exact E].
Qed.

(** X20: the loaders of the first version store every document that
    [validateBuild] accepts, without an alert; when they alert, the
    document, the elapsed seconds and the running flag are as before; and
    in every case they leave [loadingLink] off. *)
Theorem legacy_loaders (st : State) (key : string) (net : Fetched) :
  let local := Legacy.loadLocalBuild key net st in
  let link := Legacy.loadFromLink key net st in
  loadingLink (fst local) = false /\ loadingLink (fst link) = false /\
  (snd local <> None ->
   build (fst local) = build st /\ seconds (fst local) = seconds st /\
   running (fst local) = running st) /\
  (snd link <> None ->
   build (fst link) = build st /\ seconds (fst link) = seconds st /\
   running (fst link) = running st) /\
  (forall json,
      net = Response true (Json json) -> validateBuild json = true ->
      snd local = None /\ build (fst local) = json /\
      seconds (fst local) = 0%N /\ running (fst local) = false /\
      snd link = None /\ build (fst link) = json /\
      seconds (fst link) = 0%N /\ running (fst link) = false).
Proof.
  cbv zeta.
  unfold Legacy.loadLocalBuild, Legacy.loadFromLink, Legacy.try_alert_finally.
  split; [|split; [|split; [|split]]].
  - match goal with |- context [match ?b st with _ => _ end] =>
      destruct (b st) as [s [u|e]] end; reflexivity.
  - match goal with |- context [match ?b st with _ => _ end] =>
      destruct (b st) as [s [u|e]] end; reflexivity.
  - destruct net as [msg | ok [msg | json]]; run_handler;
      try (intros _; repeat split; reflexivity);
      destruct ok; cbn; try (intros _; repeat split; reflexivity).
    unfold Legacy.check_steps_present.
    destruct json; cbn; try (intros _; repeat split; reflexivity);
      destruct (assoc "steps" props) as [v|]; cbn;
      try (intros _; repeat split; reflexivity).
    destruct (truthy v); cbn; [intros H; congruence|].
    intros _; repeat split; reflexivity.
  - destruct net as [msg | ok [msg | json]]; run_handler;
      try (intros _; repeat split; reflexivity).
    unfold Legacy.check_steps_present.
    destruct json; cbn; try (intros _; repeat split; reflexivity);
      destruct (assoc "steps" props) as [v|]; cbn;
      try (intros _; repeat split; reflexivity).
    destruct (truthy v); cbn; [intros H; congruence|].
    intros _; repeat split; reflexivity.
  - intros json -> Hv.
    destruct (valid_has_steps json Hv) as (props & vs & -> & Hs).
    run_handler. unfold Legacy.check_steps_present. cbn. rewrite Hs. cbn.
    repeat split; reflexivity.
Qed.

Lemma legacy_loaders_witness :
  snd (Legacy.loadLocalBuild "two" (Response true (Json two_steps))
                             (initial None)) = None /\
  build (fst (Legacy.loadLocalBuild "two" (Response true (Json two_steps))
                                    (initial None))) = two_steps.
Proof.
  destruct (proj2 (proj2 (proj2 (proj2
              (legacy_loaders (initial None) "two"
                 (Response true (Json two_steps))))))
              two_steps eq_refl eq_refl) as (H1 & H2 & _).
  split; assumption.
Defined.
